(** * RepoGraph ingestion pipeline: a shallow embedding and its properties

    The development follows the Go sources of the document orchestrator
    (package [orchestrator]: [ProcessDirectory], [scanDirectory],
    [processFile], [calculateFileHash], [chunkText]) and of the Pinecone
    adapter (package [pinecone]: [UpsertVectors], [CheckDocumentExists]).

    Part I holds the model, one module per Go package or concern.
    Part II holds the lemmas and the theorems about the model. *)

From Stdlib Require Import ZArith List String Ascii Bool Lia DecimalString DecimalN.
Import ListNotations.
Local Open Scope string_scope.
Local Open Scope list_scope.
Local Open Scope Z_scope.

(* ===================================================================== *)
(** * Part I: the model                                                   *)
(* ===================================================================== *)

(** ** Go's [int] and the outcomes of running Go code *)

Module GoInt.

(** [int] is 64 bits wide on the targets the service is built for;
    signed arithmetic wraps around in two's complement. *)
Definition min_int : Z := - 2 ^ 63.
Definition max_int : Z := 2 ^ 63 - 1.

Definition wrap (z : Z) : Z := (z + 2 ^ 63) mod 2 ^ 64 - 2 ^ 63.

Definition add (a b : Z) : Z := wrap (a + b).
Definition sub (a b : Z) : Z := wrap (a - b).

(** [len(s)] of a Go string is its number of bytes. *)
Definition len (s : string) : Z := Z.of_nat (String.length s).

(** Strings and slices live in memory: their length stays well below
    [2^62], which is what the bound below records. *)
Definition max_len : Z := 2 ^ 62.
Definition in_memory (s : string) : Prop := len s <= max_len.

(** [ceil(a / b)] for [b > 0], for the statements. *)
Definition ceil_div (a b : Z) : Z := (a + b - 1) / b.

End GoInt.

(** A Go call either returns, panics (a run-time error unwinding the
    stack) or never returns. *)
Inductive outcome (A : Type) : Type :=
| Done (a : A)
| Panics
| Diverges.
Arguments Done {A} a.
Arguments Panics {A}.
Arguments Diverges {A}.

(** Go [error] values.  The code looks at an error in two ways only: at its
    message ([err.Error()]), and, inside [filepath.Walk], at whether it is
    one of the sentinels [SkipDir] and [SkipAll]. *)
Inductive error : Type :=
| SkipDir
| SkipAll
| Errorf (msg : string).

Definition Error (e : error) : string :=
  match e with
  | SkipDir => "skip this directory"
  | SkipAll => "skip everything and stop the walk"
  | Errorf msg => msg
  end.

(** [fmt.Errorf("<prefix>: %w", err)] *)
Definition wrapf (prefix : string) (err : error) : error :=
  Errorf (prefix ++ ": " ++ Error err).

(** A Go result pair [(value, error)]. *)
Inductive result (A : Type) : Type :=
| Ok (a : A)
| Fail (e : error).
Arguments Ok {A} a.
Arguments Fail {A} e.

(** ** The chunker: [chunkText] *)

Module Chunker.
Import GoInt.

(** [text[lo:hi]]: a run-time panic unless [0 <= lo <= hi <= len(text)]. *)
Definition slice (text : string) (lo hi : Z) : outcome string :=
  if (0 <=? lo) && (lo <=? hi) && (hi <=? len text)
  then Done (substring (Z.to_nat lo) (Z.to_nat (hi - lo)) text)
  else Panics.

(** [end := start + chunkSize; if end > len(text) { end = len(text) }] *)
Definition window_end (text : string) (chunkSize start : Z) : Z :=
  let e := add start chunkSize in
  if e >? len text then len text else e.

(** [start += chunkSize - overlap] *)
Definition next_start (chunkSize overlap start : Z) : Z :=
  add start (sub chunkSize overlap).

(** The [for start < len(text)] loop.  One unit of fuel is spent per
    iteration of the body; running out of fuel is reported as
    [Diverges]. *)
Fixpoint chunkLoop (fuel : nat) (text : string) (chunkSize overlap : Z)
         (start : Z) (chunks : list string) : outcome (list string) :=
  if start <? len text then
    match fuel with
    | O => Diverges
    | S fuel' =>
        match slice text start (window_end text chunkSize start) with
        | Done c =>
            chunkLoop fuel' text chunkSize overlap
                      (next_start chunkSize overlap start) (chunks ++ [c])
        | _ => Panics
        end
    end
  else Done chunks.

(** The loop keeps [0 <= start < len(text)] while it runs, so after
    [len(text) + 1] iterations a value of [start] has been seen twice and
    the run cannot end: that much fuel is all the function ever needs. *)
Definition chunkText (text : string) (chunkSize overlap : Z)
  : outcome (list string) :=
  if len text <=? chunkSize then Done [text]
  else chunkLoop (S (String.length text)) text chunkSize overlap 0 [].

(** *** Vocabulary for the statements *)

(** The [i]-th window of the sliding scheme: it starts at [i * stride]
    and ends at [start + chunkSize], clipped to the text length. *)
Definition win_start (chunkSize overlap : Z) (i : nat) : Z :=
  Z.of_nat i * (chunkSize - overlap).
Definition win_end (text : string) (chunkSize overlap : Z) (i : nat) : Z :=
  Z.min (win_start chunkSize overlap i + chunkSize) (len text).

(** The bytes of [text] in [[lo, hi)]. *)
Definition bytes_of (text : string) (lo hi : Z) : string :=
  substring (Z.to_nat lo) (Z.to_nat (hi - lo)) text.

(** The chunk cut by window [i]. *)
Definition piece (text : string) (chunkSize overlap : Z) (i : nat) : string :=
  bytes_of text (win_start chunkSize overlap i) (win_end text chunkSize overlap i).

(** Number of bytes two windows [[a, b)] and [[c, d)] have in common. *)
Definition common (a b c d : Z) : Z := Z.max 0 (Z.min b d - Z.max a c).

(** A text of [n] copies of one byte, for the examples. *)
Fixpoint replicate (n : nat) (c : ascii) : string :=
  match n with
  | O => EmptyString
  | S n' => String c (replicate n' c)
  end.

End Chunker.

(** ** SHA-256 ([crypto/sha256]) *)

Module SHA256.

(** 32-bit words are kept in [[0, 2^32)]. *)
Definition w32 (x : Z) : Z := x mod 2 ^ 32.
Definition add32 (x y : Z) : Z := w32 (x + y).
Definition rotr (n x : Z) : Z :=
  w32 (Z.lor (Z.shiftr x n) (Z.shiftl x (32 - n))).
Definition shr (n x : Z) : Z := Z.shiftr x n.

Definition Ch (x y z : Z) : Z := Z.lxor (Z.land x y) (Z.land (Z.lnot x) z).
Definition Maj (x y z : Z) : Z :=
  Z.lxor (Z.lxor (Z.land x y) (Z.land x z)) (Z.land y z).
Definition Sigma0 (x : Z) : Z :=
  Z.lxor (Z.lxor (rotr 2 x) (rotr 13 x)) (rotr 22 x).
Definition Sigma1 (x : Z) : Z :=
  Z.lxor (Z.lxor (rotr 6 x) (rotr 11 x)) (rotr 25 x).
Definition sigma0 (x : Z) : Z :=
  Z.lxor (Z.lxor (rotr 7 x) (rotr 18 x)) (shr 3 x).
Definition sigma1 (x : Z) : Z :=
  Z.lxor (Z.lxor (rotr 17 x) (rotr 19 x)) (shr 10 x).

(** The constants, as the standard defines them: the first 32 bits of the
    fractional parts of the cube roots (for [K]) and of the square roots
    (for the initial chaining value) of the first primes. *)
Definition is_prime (p : nat) : bool :=
  forallb (fun d => negb (Nat.eqb (p mod d) 0)) (seq 2 (p - 2)).

Definition primes64 : list Z :=
  map Z.of_nat (filter is_prime (seq 2 310)).

(** The largest [r] below [2 ^ bits] with [r ^ k <= n], found bit by bit. *)
Fixpoint root (k n : Z) (bits : nat) (r : Z) : Z :=
  match bits with
  | O => r
  | S b =>
      let c := r + 2 ^ Z.of_nat b in
      root k n b (if c ^ k <=? n then c else r)
  end.

Definition frac_cbrt (p : Z) : Z := w32 (root 3 (p * 2 ^ 96) 36 0).
Definition frac_sqrt (p : Z) : Z := w32 (root 2 (p * 2 ^ 64) 36 0).

Definition K : list Z := Eval vm_compute in map frac_cbrt primes64.

(** The eight working variables, also the chaining value. *)
Record state : Type := State {
  sa : Z; sb : Z; sc : Z; sd : Z; se : Z; sf : Z; sg : Z; sh : Z
}.

Definition init : state :=
  Eval vm_compute in
  let h := map frac_sqrt (firstn 8 primes64) in
  State (nth 0 h 0) (nth 1 h 0) (nth 2 h 0) (nth 3 h 0)
        (nth 4 h 0) (nth 5 h 0) (nth 6 h 0) (nth 7 h 0).

Definition byte_of_ascii (c : ascii) : Z := Z.of_N (N_of_ascii c).

Definition bytes_of_string (s : string) : list Z :=
  map byte_of_ascii (list_ascii_of_string s).

(** [n] as eight bytes, most significant first. *)
Definition be64 (n : Z) : list Z :=
  map (fun i => (n / 2 ^ (8 * i)) mod 256) [7; 6; 5; 4; 3; 2; 1; 0].

(** The message, a [0x80] byte, zero bytes up to 56 modulo 64, and the
    length of the message in bits. *)
Definition pad (msg : list Z) : list Z :=
  let l := Z.of_nat (List.length msg) in
  msg ++ [0x80] ++ repeat 0 (Z.to_nat ((55 - l) mod 64))
      ++ be64 ((8 * l) mod 2 ^ 64).

Fixpoint words (bs : list Z) : list Z :=
  match bs with
  | b0 :: b1 :: b2 :: b3 :: rest =>
      (b0 * 2 ^ 24 + b1 * 2 ^ 16 + b2 * 2 ^ 8 + b3) :: words rest
  | _ => []
  end.

Fixpoint blocks (n : nat) (ws : list Z) : list (list Z) :=
  match n with
  | O => []
  | S n' => firstn 16 ws :: blocks n' (skipn 16 ws)
  end.

(** The message schedule: [n] more words after those of [w]. *)
Fixpoint extend (n : nat) (w : list Z) : list Z :=
  match n with
  | O => w
  | S n' =>
      let t := List.length w in
      let x := add32 (add32 (sigma1 (nth (t - 2) w 0)) (nth (t - 7) w 0))
                     (add32 (sigma0 (nth (t - 15) w 0)) (nth (t - 16) w 0)) in
      extend n' (w ++ [x])
  end.

Definition round (s : state) (kw : Z * Z) : state :=
  let t1 := add32 (add32 (add32 (sh s) (Sigma1 (se s)))
                         (add32 (Ch (se s) (sf s) (sg s)) (fst kw)))
                  (snd kw) in
  let t2 := add32 (Sigma0 (sa s)) (Maj (sa s) (sb s) (sc s)) in
  State (add32 t1 t2) (sa s) (sb s) (sc s)
        (add32 (sd s) t1) (se s) (sf s) (sg s).

Definition compress (s : state) (block : list Z) : state :=
  let r := fold_left round (combine K (extend 48 block)) s in
  State (add32 (sa s) (sa r)) (add32 (sb s) (sb r))
        (add32 (sc s) (sc r)) (add32 (sd s) (sd r))
        (add32 (se s) (se r)) (add32 (sf s) (sf r))
        (add32 (sg s) (sg r)) (add32 (sh s) (sh r)).

(** [x] as four bytes, most significant first. *)
Definition be32 (x : Z) : list Z :=
  map (fun i => (x / 2 ^ (8 * i)) mod 256) [3; 2; 1; 0].

Definition output (s : state) : list Z :=
  be32 (sa s) ++ be32 (sb s) ++ be32 (sc s) ++ be32 (sd s)
  ++ be32 (se s) ++ be32 (sf s) ++ be32 (sg s) ++ be32 (sh s).

(** The 32-byte digest of a message. *)
Definition Sum256 (msg : string) : list Z :=
  let ws := words (pad (bytes_of_string msg)) in
  output (fold_left compress (blocks (List.length ws / 16) ws) init).

End SHA256.

(** ** The hasher: [calculateFileHash] *)

Module Hasher.

(** What reading an open file to its end yields: blocks of bytes, then
    end-of-file or a read error. *)
Inductive reads : Type :=
| EOF
| ReadError (msg : string)
| Block (data : string) (rest : reads).

(** A [hash.Hash] from [sha256.New()]: what matters of its state is the
    sequence of bytes written into it. *)
Record digest : Type := { written : string }.

Definition New : digest := {| written := "" |}.
Definition Write (h : digest) (p : string) : digest :=
  {| written := written h ++ p |}.
(** [h.Sum(nil)] *)
Definition Sum (h : digest) : list Z := SHA256.Sum256 (written h).

(** [io.Copy(hash, file)]: every block read is written to the hash, up to
    end-of-file (no error) or a read error (returned). *)
Fixpoint Copy (h : digest) (r : reads) : digest * option error :=
  match r with
  | EOF => (h, None)
  | ReadError msg => (h, Some (Errorf msg))
  | Block data rest => Copy (Write h data) rest
  end.

Definition hex_digit (d : Z) : ascii :=
  nth (Z.to_nat d) (list_ascii_of_string "0123456789abcdef") "0"%char.

(** [fmt.Sprintf("%x", bytes)]: two lower-case hexadecimal digits a byte. *)
Fixpoint hex (bytes : list Z) : string :=
  match bytes with
  | [] => ""
  | b :: rest => String (hex_digit (b / 16)) (String (hex_digit (b mod 16)) (hex rest))
  end.

(** The file system as [os.Open] and the reads that follow see it. *)
Definition filesystem : Type := string -> result reads.

Definition calculateFileHash (fs : filesystem) (filePath : string)
  : result string :=
  match fs filePath with
  | Fail err => Fail err
  | Ok file =>
      match Copy New file with
      | (_, Some err) => Fail err
      | (hash, None) => Ok ("sha256:" ++ hex (Sum hash))%string
      end
  end.

(** *** Vocabulary for the statements *)

(** The full byte content of a file that can be read to its end. *)
Fixpoint content (r : reads) : option string :=
  match r with
  | EOF => Some ""
  | ReadError _ => None
  | Block data rest => option_map (append data) (content rest)
  end.

Definition is_lower_hex (c : ascii) : bool :=
  existsb (Ascii.eqb c) (list_ascii_of_string "0123456789abcdef").

End Hasher.

(** ** The scanner: [filepath.Walk] and [scanDirectory] *)

Module Scanner.

(** What [os.Lstat] reports about an entry that is not a directory. *)
Inductive file_mode : Type :=
| Regular | Symlink | NamedPipe | Socket | Device | CharDevice | Irregular.

(** The file tree as [filepath.Walk] observes it.  [Unreadable msg]: the
    entry is listed by its parent but [os.Lstat] fails on it.  For a
    directory, [readdir = Some msg] says that listing its names fails. *)
#[local] Unset Elimination Schemes.
Inductive node : Type :=
| Unreadable (msg : string)
| File (mode : file_mode)
| Dir (readdir : option string) (entries : list (string * node)).
#[local] Set Elimination Schemes.

(** Structural induction that reaches the entries of a directory. *)
Section NodeInduction.
Variable P : node -> Prop.
Hypothesis Hunreadable : forall msg, P (Unreadable msg).
Hypothesis Hfile : forall m, P (File m).
Hypothesis Hdir : forall readdir entries,
  Forall (fun e => P (snd e)) entries -> P (Dir readdir entries).

Fixpoint node_induction (n : node) : P n :=
  match n with
  | Unreadable msg => Hunreadable msg
  | File m => Hfile m
  | Dir readdir entries =>
      Hdir readdir entries
        ((fix all (es : list (string * node)) : Forall (fun e => P (snd e)) es :=
            match es with
            | [] => Forall_nil _
            | (nm, child) :: rest =>
                Forall_cons (nm, child) (node_induction child) (all rest)
            end) entries)
  end.
End NodeInduction.

Record FileInfo : Type := {
  Name : string;
  IsDir : bool;
  Mode : option file_mode
}.

(** The three ways [Walk] calls its function: [fn(path, info, nil)] on an
    entry it could stat, [fn(path, info, err)] on a directory it could stat
    but not list, and [fn(path, nil, err)] on an entry it could not stat. *)
Inductive visit : Type :=
| Stat (info : FileInfo) (err : option error)
| NoStat (err : error).

Definition WalkFunc (St : Type) : Type :=
  string -> visit -> St -> St * option error.

(** [strings.Split(path, "/")]: the elements of a path. *)
Fixpoint elements (path : string) : list string :=
  match path with
  | EmptyString => [EmptyString]
  | String ch rest =>
      if Ascii.eqb ch "/" then EmptyString :: elements rest
      else match elements rest with
           | [] => [String ch EmptyString]
           | e :: es => String ch e :: es
           end
  end.

(** One element more for [Clean]: [out] holds the elements kept so far,
    the last one first.  Empty elements and [.] are dropped; [..] takes
    back the element before it, is dropped at the root, and is kept at the
    start of a path that is not rooted. *)
Definition clean_step (rooted : bool) (out : list string) (e : string)
  : list string :=
  if String.eqb e "" || String.eqb e "." then out
  else if String.eqb e ".." then
    match out with
    | top :: below => if String.eqb top ".." then e :: out else below
    | [] => if rooted then [] else [e]
    end
  else e :: out.

(** [filepath.Clean] with [/] as the separator. *)
Definition Clean (path : string) : string :=
  let rooted := prefix "/" path in
  let body :=
    String.concat "/" (rev (fold_left (clean_step rooted) (elements path) []))
  in
  if rooted then ("/" ++ body)%string
  else if String.eqb body "" then "." else body.

(** [filepath.Join(dir, name)]: empty elements are left out, and what is
    joined is cleaned. *)
Definition Join (dir name : string) : string :=
  if negb (String.eqb dir "") then Clean (dir ++ "/" ++ name)
  else if negb (String.eqb name "") then Clean name
  else "".

Definition is_dir (n : node) : bool :=
  match n with Dir _ _ => true | _ => false end.

Definition is_SkipDir (e : error) : bool :=
  match e with SkipDir => true | _ => false end.

Definition is_SkipAll (e : error) : bool :=
  match e with SkipAll => true | _ => false end.

(** [walk] of path/filepath, the recursive descent.  [name] is what
    [info.Name()] returns for the entry at [path]. *)
Fixpoint walk {St : Type} (fn : WalkFunc St) (path name : string) (n : node)
         (st : St) {struct n} : St * option error :=
  match n with
  | Unreadable msg => fn path (NoStat (Errorf msg)) st
  | File m =>
      fn path (Stat {| Name := name; IsDir := false; Mode := Some m |} None) st
  | Dir readdir entries =>
      let info := {| Name := name; IsDir := true; Mode := None |} in
      let '(st1, err1) := fn path (Stat info (option_map Errorf readdir)) st in
      match readdir, err1 with
      | None, None =>
          (fix each (es : list (string * node)) (st : St) : St * option error :=
             match es with
             | [] => (st, None)
             | (nm, child) :: rest =>
                 let filename := Join path nm in
                 match child with
                 | Unreadable msg =>
                     let '(st', r) := fn filename (NoStat (Errorf msg)) st in
                     match r with
                     | Some e => if is_SkipDir e then each rest st'
                                 else (st', Some e)
                     | None => each rest st'
                     end
                 | _ =>
                     let '(st', r) := walk fn filename nm child st in
                     match r with
                     | Some e =>
                         if negb (is_dir child) || negb (is_SkipDir e)
                         then (st', Some e)
                         else each rest st'
                     | None => each rest st'
                     end
                 end
             end) entries st1
      | _, _ => (st1, err1)
      end
  end.

(** [filepath.Walk(root, fn)]; [name] is the base name of [root]. *)
Definition Walk {St : Type} (root name : string) (n : node) (fn : WalkFunc St)
           (st : St) : St * option error :=
  let '(st', err) := walk fn root name n st in
  match err with
  | Some e => if is_SkipDir e || is_SkipAll e then (st', None) else (st', Some e)
  | None => (st', None)
  end.

(** The function literal [scanDirectory] hands to [Walk]; its state is the
    captured variable [files]. *)
Definition scanVisit : WalkFunc (list string) :=
  fun path v files =>
    match v with
    | NoStat err => (files, Some err)
    | Stat _ (Some err) => (files, Some err)
    | Stat info None =>
        if IsDir info || prefix "." (Name info)
        then (files, None)
        else (files ++ [path], None)
    end.

Definition scanDirectory (directory name : string) (root : node)
  : list string * option error :=
  Walk directory name root scanVisit [].

(** *** Vocabulary for the statements *)

(** [located dir name n p nm x]: below the entry [n] found at path [dir]
    under the name [name], going only through directories that can be
    listed, the entry [x] is found at path [p] under the name [nm]. *)
Inductive located : string -> string -> node -> string -> string -> node -> Prop :=
| located_here dir name n : located dir name n dir name n
| located_below dir name entries nm child p nm' x :
    In (nm, child) entries ->
    located (Join dir nm) nm child p nm' x ->
    located dir name (Dir None entries) p nm' x.

(** The first failure a full traversal runs into, if any. *)
Fixpoint first_failure (n : node) : option string :=
  match n with
  | Unreadable msg => Some msg
  | File _ => None
  | Dir (Some msg) _ => Some msg
  | Dir None entries =>
      (fix each (es : list (string * node)) : option string :=
         match es with
         | [] => None
         | (_, child) :: rest =>
             match first_failure child with
             | Some msg => Some msg
             | None => each rest
             end
         end) entries
  end.

(** The paths a traversal gathers before it stops: the entries that are
    not directories and whose name does not begin with a dot, in the order
    of the walk, up to the first failure. *)
Fixpoint gathered (path name : string) (n : node) : list string :=
  match n with
  | Unreadable _ => []
  | File _ => if prefix "." name then [] else [path]
  | Dir (Some _) _ => []
  | Dir None entries =>
      (fix each (es : list (string * node)) : list string :=
         match es with
         | [] => []
         | (nm, child) :: rest =>
             gathered (Join path nm) nm child
             ++ match first_failure child with
                | Some _ => []
                | None => each rest
                end
         end) entries
  end.

End Scanner.

(** ** The Pinecone adapter: data *)

(** Values of type [interface{}] as they occur in metadata maps and in the
    fields of log entries. *)
Inductive value : Type :=
| VString (s : string)
| VInt (n : Z)
| VBool (b : bool)
| VError (e : error).

Module Pinecone.

(** A [float32], by its bit pattern; the code never computes with one. *)
Definition float32 : Type := Z.

Record Vector : Type := {
  ID : string;
  Values : list float32;
  Metadata : list (string * value)
}.

Record Match : Type := {
  MatchID : string;
  Score : float32;
  MatchMetadata : list (string * value)
}.

Record UpsertRequest : Type := {
  Vectors : list Vector;
  Namespace : string
}.

Record QueryRequest : Type := {
  QueryVector : list float32;
  TopK : Z;
  IncludeMetadata : bool;
  Filter : option (list (string * list (string * value)));
  QueryNamespace : string
}.

Record PineconeConfig : Type := {
  Dimension : Z;
  UseNamespaces : bool
}.

End Pinecone.

(** ** Effects: the world outside, the log, and the calls made *)

Module Effects.
Import Pinecone.

Inductive level : Type := DebugLevel | InfoLevel | WarnLevel | ErrorLevel.

(** The calls that leave the process. *)
Inductive call : Type :=
| WalkTree (directory : string)
| OpenFile (path : string)
| PineconeQuery (req : QueryRequest)
| PineconeUpsert (req : UpsertRequest)
| ExtractFile (path : string)
| AnalyzeImage (path : string)
| GenerateSummary (text : string)
| GenerateEmbedding (text : string)
| NewUUID
| TimeNow.

(** What a run leaves behind, in order: log entries, and the calls with
    whether they succeeded. *)
Inductive event : Type :=
| Log (lvl : level) (msg : string) (fields : list (string * value))
| Called (c : call) (ok : bool).

Section Monad.
Context {W : Type}.

(** A computation starts in a state [W] of everything outside (file
    system, services, clock) and, if it returns, yields its result, the new
    state outside, and the events it produced. *)
Definition M (A : Type) : Type := W -> outcome (A * W * list event).

Definition ret {A : Type} (a : A) : M A := fun w => Done (a, w, []).

Definition bind {A B : Type} (m : M A) (f : A -> M B) : M B :=
  fun w =>
    match m w with
    | Done (a, w1, t1) =>
        match f a w1 with
        | Done (b, w2, t2) => Done (b, w2, t1 ++ t2)
        | Panics => Panics
        | Diverges => Diverges
        end
    | Panics => Panics
    | Diverges => Diverges
    end.

Definition lift {A : Type} (o : outcome A) : M A :=
  fun w =>
    match o with
    | Done a => Done (a, w, [])
    | Panics => Panics
    | Diverges => Diverges
    end.

Definition log (lvl : level) (msg : string) (fields : list (string * value))
  : M unit :=
  fun w => Done (tt, w, [Log lvl msg fields]).

(** A call to the outside: it answers, may change the state outside, and
    is recorded with its success. *)
Definition ask {A : Type} (c : call) (ok : A -> bool) (f : W -> A * W) : M A :=
  fun w => let '(a, w') := f w in Done (a, w', [Called c (ok a)]).

(** A call into code that may itself panic or never return: when it
    answers, it is recorded like any other call. *)
Definition attempt {A : Type} (c : call) (ok : A -> bool)
           (f : W -> outcome (A * W)) : M A :=
  fun w =>
    match f w with
    | Done (a, w') => Done (a, w', [Called c (ok a)])
    | Panics => Panics
    | Diverges => Diverges
    end.

(** A look at the outside that does not change it. *)
Definition observe {A : Type} (c : call) (ok : A -> bool) (f : W -> A) : M A :=
  ask c ok (fun w => (f w, w)).

(** The same outcome, with the events [t] put in front of its own. *)
Definition after {A : Type} (t : list event) (o : outcome (A * W * list event))
  : outcome (A * W * list event) :=
  match o with
  | Done (a, w, t') => Done (a, w, t ++ t')
  | Panics => Panics
  | Diverges => Diverges
  end.

(** [m] returns from every state outside, with a result that satisfies
    [Q]. *)
Definition returns {A : Type} (m : M A) (Q : A -> Prop) : Prop :=
  forall w, exists a w' t, m w = Done (a, w', t) /\ Q a.

End Monad.

Definition is_ok {A : Type} (r : result A) : bool :=
  match r with Ok _ => true | Fail _ => false end.

Definition is_nil (e : option error) : bool :=
  match e with None => true | Some _ => false end.

End Effects.

Notation "x <- m ;; k" := (Effects.bind m (fun x => k))
  (at level 61, m at next level, right associativity).
Notation "m ;;; k" := (Effects.bind m (fun _ => k))
  (at level 61, right associativity).

(** ** The Pinecone adapter: [UpsertVectors], [CheckDocumentExists] *)

Module PineconeClient.
Import GoInt Pinecone Effects.

Section Client.
Context {W : Type}.

(** The client's configuration, and the two HTTP exchanges it makes: each
    stands for building the request, sending it and reading the answer,
    and yields what [QueryVectors], respectively [upsertBatch], returns. *)
Variable config : PineconeConfig.
Variable query : W -> QueryRequest -> result (list Match) * W.
Variable upsert : W -> UpsertRequest -> option error * W.

Definition llen {A : Type} (l : list A) : Z := Z.of_nat (List.length l).

(** [l[lo:hi]] on a slice.  The bound checked is the length: the code only
    ever passes an upper index that was clipped to it. *)
Definition slice {A : Type} (l : list A) (lo hi : Z) : outcome (list A) :=
  if (0 <=? lo) && (lo <=? hi) && (hi <=? llen l)
  then Done (firstn (Z.to_nat (hi - lo)) (skipn (Z.to_nat lo) l))
  else Panics.

(** [make([]float32, n)] *)
Definition make (n : Z) : outcome (list float32) :=
  if n <? 0 then Panics else Done (repeat 0 (Z.to_nat n)).

Definition upsertBatch (vectors : list Vector) : M (option error) :=
  let reqBody := {| Vectors := vectors;
                    Namespace := if UseNamespaces config then "default" else "" |} in
  ask (PineconeUpsert reqBody) is_nil (fun w => upsert w reqBody).

Definition batchSize : Z := 100.

(** The loop [for i := 0; i < len(vectors); i += batchSize], with fuel as
    in the chunker. *)
Fixpoint upsertLoop (fuel : nat) (vectors : list Vector) (i : Z)
  : M (option error) :=
  if i <? llen vectors then
    match fuel with
    | O => lift Diverges
    | S fuel' =>
        let e := add i batchSize in
        let e := if e >? llen vectors then llen vectors else e in
        batch <- lift (slice vectors i e) ;;
        err <- upsertBatch batch ;;
        match err with
        | Some err => ret (Some (wrapf "failed to upsert batch" err))
        | None =>
            log DebugLevel "Upserted batch" [("from", VInt i); ("to", VInt e)] ;;;
            upsertLoop fuel' vectors (add i batchSize)
        end
    end
  else
    log InfoLevel "Successfully upserted vectors"
        [("total", VInt (llen vectors))] ;;;
    ret None.

Definition UpsertVectors (vectors : list Vector) : M (option error) :=
  if llen vectors =? 0 then ret None
  else
    log DebugLevel "Upserting vectors" [("count", VInt (llen vectors))] ;;;
    upsertLoop (S (List.length vectors)) vectors 0.

Definition QueryVectors (embedding : list float32) (topK : Z)
           (filter : option (list (string * list (string * value))))
  : M (result (list Match)) :=
  log DebugLevel "Querying vectors"
      [("topK", VInt topK);
       ("has_filter", VBool match filter with Some _ => true | None => false end)] ;;;
  let reqBody := {| QueryVector := embedding;
                    TopK := topK;
                    IncludeMetadata := true;
                    Filter := filter;
                    QueryNamespace :=
                      if UseNamespaces config then "default" else "" |} in
  r <- ask (PineconeQuery reqBody) is_ok (fun w => query w reqBody) ;;
  match r with
  | Fail err => ret (Fail err)
  | Ok matches =>
      log DebugLevel "Query complete" [("matches", VInt (llen matches))] ;;;
      ret (Ok matches)
  end.

Definition CheckDocumentExists (fileHash : string) : M (bool * option error) :=
  log DebugLevel "Checking document existence" [("hash", VString fileHash)] ;;;
  dummyVector <- lift (make (Dimension config)) ;;
  let filter := Some [("file_hash", [("$eq", VString fileHash)])] in
  r <- QueryVectors dummyVector 1 filter ;;
  match r with
  | Fail err =>
      log WarnLevel "Failed to check document existence"
          [("error", VError err)] ;;;
      ret (false, None)
  | Ok matches =>
      let exists_ := 0 <? llen matches in
      log DebugLevel "Document existence check complete"
          [("exists", VBool exists_)] ;;;
      ret (exists_, None)
  end.

End Client.

(** *** Vocabulary for the statements *)

(** The request [CheckDocumentExists] sends for a hash. *)
Definition exists_request (config : PineconeConfig) (fileHash : string)
  : QueryRequest :=
  {| QueryVector := repeat 0 (Z.to_nat (Dimension config));
     TopK := 1;
     IncludeMetadata := true;
     Filter := Some [("file_hash", [("$eq", VString fileHash)])];
     QueryNamespace := if UseNamespaces config then "default" else "" |}.

(** The write calls recorded in a trace, in order: the batch sent, and
    whether the write succeeded. *)
Fixpoint writes (tr : list event) : list (list Vector * bool) :=
  match tr with
  | [] => []
  | Called (PineconeUpsert req) ok :: rest => (Vectors req, ok) :: writes rest
  | _ :: rest => writes rest
  end.

(** The [k]-th run of 100 consecutive vectors, and the partition of the
    input into such runs, the last one possibly shorter. *)
Definition batch_at (vectors : list Vector) (k : nat) : list Vector :=
  firstn 100 (skipn (100 * k) vectors).

Definition batch_count (vectors : list Vector) : nat :=
  Z.to_nat (ceil_div (llen vectors) 100).

Definition batches (vectors : list Vector) : list (list Vector) :=
  map (batch_at vectors) (seq 0 (batch_count vectors)).

(** The state the outside is left in once the batches of [bs] have been
    sent one after the other. *)
Definition committed {W : Type} (config : PineconeConfig)
           (upsert : W -> UpsertRequest -> option error * W)
           (bs : list (list Vector)) (w : W) : W :=
  fold_left
    (fun w b =>
       snd (upsert w {| Vectors := b;
                        Namespace := if UseNamespaces config then "default"
                                     else "" |}))
    bs w.

End PineconeClient.

(** ** The orchestrator: [processFile], [ProcessDirectory] *)

Module Orchestrator.
Import GoInt Pinecone Effects.

(** [strings.Contains(s, substr)] *)
Fixpoint Contains (s substr : string) : bool :=
  prefix substr s
  || match s with
     | EmptyString => false
     | String _ s' => Contains s' substr
     end.

(** The fields of [config.Config] this code reads. *)
Record Config : Type := {
  SkipExistingDocuments : bool;
  ChunkSize : Z;
  ChunkOverlap : Z;
  PineconeCfg : PineconeConfig
}.

(** The numeric constraints that [validate] enforces when [Load] reads the
    configuration. *)
Definition validated (c : Config) : Prop :=
  0 < ChunkSize c /\
  0 <= ChunkOverlap c /\
  ChunkOverlap c < ChunkSize c /\
  0 < Dimension (PineconeCfg c).

Section Processor.
Context {W : Type}.

(** [processors.ProcessorInterface] *)
Record ProcessorInterface : Type := {
  CanProcess : string -> bool;
  Extract : W -> string -> result string * W
}.

(** The [DocumentProcessor] with all it reaches.
    - [config]: the loaded configuration;
    - [tree]: what [filepath.Walk] finds at a directory path, namely the
      base name of the root and the tree below it;
    - [files]: what [os.Open] and the reads that follow yield;
    - [Base], [Ext], [ToLower]: [filepath.Base], [filepath.Ext] and
      [strings.ToLower];
    - [processors]: the content processors, in the order they are tried;
    - [visionClient]: [AnalyzeImage] of the Vision client, [None] when
      the client is not configured; it is code of this process, and a
      panic in it is a panic of [processFile];
    - [azureSummary], [azureEmbedding]: [GenerateSummary] and
      [GenerateEmbedding] of the Azure client;
    - [pineconeQuery], [pineconeUpsert]: the two exchanges of the Pinecone
      client;
    - [uuidNew], [timeNowUnix]: [uuid.New().String()] and
      [time.Now().Unix()].
    Whatever talks to the outside takes the state outside and gives the new
    one back. *)
Record DocumentProcessor : Type := {
  config : Config;
  tree : W -> string -> string * Scanner.node;
  files : W -> Hasher.filesystem;
  Base : string -> string;
  Ext : string -> string;
  ToLower : string -> string;
  processors : list ProcessorInterface;
  visionClient : option (W -> string -> outcome (result string * W));
  azureSummary : W -> string -> result string * W;
  azureEmbedding : W -> string -> result (list float32) * W;
  pineconeQuery : W -> QueryRequest -> result (list Match) * W;
  pineconeUpsert : W -> UpsertRequest -> option error * W;
  uuidNew : W -> string * W;
  timeNowUnix : W -> Z * W
}.

Variable dp : DocumentProcessor.

Definition calculateFileHash (filePath : string) : M (result string) :=
  observe (OpenFile filePath) is_ok
          (fun w => Hasher.calculateFileHash (files dp w) filePath).

Definition scanDirectory (directory : string)
  : M (list string * option error) :=
  observe (WalkTree directory) (fun r => is_nil (snd r))
          (fun w => let '(name, root) := tree dp w directory in
                    Scanner.scanDirectory directory name root).

Fixpoint extractWith (ps : list ProcessorInterface) (ext filePath : string)
  : M (result string) :=
  match ps with
  | [] => ret (Fail (Errorf ("no processor found for file type: " ++ ext)))
  | processor :: rest =>
      if CanProcess processor ext
      then ask (ExtractFile filePath) is_ok
               (fun w => Extract processor w filePath)
      else extractWith rest ext filePath
  end.

Definition extractContent (filePath : string) : M (result string) :=
  extractWith (processors dp) (Ext dp filePath) filePath.

Definition isImageFile (filePath : string) : bool :=
  let ext := ToLower dp (Ext dp filePath) in
  existsb (String.eqb ext) [".png"; ".jpg"; ".jpeg"; ".gif"; ".bmp"; ".svg"].

(** [fmt.Sprintf("%d", i)] for [i >= 0]. *)
Definition decimal (i : Z) : string :=
  NilZero.string_of_uint (N.to_uint (Z.to_N i)).

(** Lines 157-165: the check against the index.  [true] means: skip. *)
Definition alreadyIndexed (fileHash : string) : M bool :=
  if SkipExistingDocuments (config dp) then
    r <- PineconeClient.CheckDocumentExists
           (PineconeCfg (config dp)) (pineconeQuery dp) fileHash ;;
    match r with
    | (_, Some existsErr) =>
        log WarnLevel "Failed to check document existence"
            [("error", VError existsErr)] ;;;
        ret false
    | (exists_, None) => ret exists_
    end
  else ret false.

(** Lines 178-186: the optional look at an image.  [AnalyzeImage] returns
    the empty string along with every error. *)
Definition analyzeVisual (filePath : string) : M string :=
  match visionClient dp with
  | Some analyze =>
      if isImageFile filePath then
        r <- attempt (AnalyzeImage filePath) is_ok
                     (fun w => analyze w filePath) ;;
        match r with
        | Fail visionErr =>
            log WarnLevel "Failed to analyze image"
                [("error", VError visionErr)] ;;;
            ret ""
        | Ok visualContent => ret visualContent
        end
      else ret ""
  | None => ret ""
  end.

(** Lines 194-199. *)
Definition summarize (combinedContent : string) : M string :=
  r <- ask (GenerateSummary combinedContent) is_ok
           (fun w => azureSummary dp w combinedContent) ;;
  match r with
  | Fail err =>
      log WarnLevel "Failed to generate summary" [("error", VError err)] ;;;
      ret "Summary generation failed"
  | Ok summary => ret summary
  end.

Definition newVector (docID filePath fileHash summary chunk : string)
           (i total : Z) (chunkEmbedding : list float32) (now : Z) : Vector :=
  {| ID := docID ++ "-chunk-" ++ decimal i;
     Values := chunkEmbedding;
     Metadata :=
       [("document_id", VString docID);
        ("file_name", VString (Base dp filePath));
        ("file_path", VString filePath);
        ("file_type", VString (Ext dp filePath));
        ("file_hash", VString fileHash);
        ("chunk_index", VInt i);
        ("chunk_total", VInt total);
        ("content", VString chunk);
        ("summary", VString summary);
        ("indexed_at", VInt now)] |}.

(** Lines 209-239: [for i, chunk := range chunks]. *)
Fixpoint embedChunks (docID filePath fileHash summary : string) (total : Z)
         (i : Z) (chunks : list string) (vectors : list Vector)
  : M (list Vector) :=
  match chunks with
  | [] => ret vectors
  | chunk :: rest =>
      r <- ask (GenerateEmbedding chunk) is_ok
               (fun w => azureEmbedding dp w chunk) ;;
      match r with
      | Fail embErr =>
          log ErrorLevel "Failed to generate embedding"
              [("chunk", VInt i); ("error", VError embErr)] ;;;
          embedChunks docID filePath fileHash summary total (i + 1) rest vectors
      | Ok chunkEmbedding =>
          now <- ask TimeNow (fun _ => true) (timeNowUnix dp) ;;
          let vector := newVector docID filePath fileHash summary chunk
                                  i total chunkEmbedding now in
          embedChunks docID filePath fileHash summary total (i + 1) rest
                      (vectors ++ [vector])
      end
  end.

(** Lines 241-253. *)
Definition store (filePath : string) (vectors : list Vector)
  : M (option error) :=
  if 0 <? PineconeClient.llen vectors then
    err <- PineconeClient.UpsertVectors
             (PineconeCfg (config dp)) (pineconeUpsert dp) vectors ;;
    match err with
    | Some err => ret (Some (wrapf "failed to store in Pinecone" err))
    | None =>
        log InfoLevel "Successfully indexed file"
            [("file", VString (Base dp filePath));
             ("chunks", VInt (PineconeClient.llen vectors))] ;;;
        ret None
    end
  else ret None.

(** Lines 207-253: embed every chunk, then store what was embedded. *)
Definition embedAndStore (filePath fileHash summary docID : string)
           (chunks : list string) : M (option error) :=
  vectors <- embedChunks docID filePath fileHash summary
                         (PineconeClient.llen chunks) 0 chunks [] ;;
  store filePath vectors.

Definition LF : ascii := ascii_of_nat 10.

(** Lines 167-253: what [processFile] does with a file it does not skip. *)
Definition indexFile (filePath fileHash : string) : M (option error) :=
  r <- extractContent filePath ;;
  match r with
  | Fail err => ret (Some (wrapf "failed to extract content" err))
  | Ok content =>
      if String.eqb content "" then
        log WarnLevel "No content extracted" [("file", VString filePath)] ;;;
        ret None
      else
        visualContent <- analyzeVisual filePath ;;
        let combinedContent :=
          if String.eqb visualContent "" then content
          else (content ++ String LF (String LF "") ++ visualContent)%string in
        summary <- summarize combinedContent ;;
        chunks <- lift (Chunker.chunkText combinedContent
                          (ChunkSize (config dp)) (ChunkOverlap (config dp))) ;;
        docID <- ask NewUUID (fun _ => true) (uuidNew dp) ;;
        embedAndStore filePath fileHash summary docID chunks
  end.

Definition processFile (filePath : string) : M (option error) :=
  r <- calculateFileHash filePath ;;
  match r with
  | Fail err => ret (Some (wrapf "failed to calculate hash" err))
  | Ok fileHash =>
      skip <- alreadyIndexed fileHash ;;
      if skip then ret (Some (Errorf "file already indexed"))
      else indexFile filePath fileHash
  end.

(** The three counters of a run. *)
Record counters : Type := {
  successCount : Z;
  skipCount : Z;
  errorCount : Z
}.

(** Lines 94-115: [for i, file := range files]. *)
Fixpoint processFiles (total : Z) (i : Z) (files : list string) (c : counters)
  : M counters :=
  match files with
  | [] => ret c
  | file :: rest =>
      log InfoLevel "Processing file"
          [("index", VInt (add i 1)); ("total", VInt total);
           ("file", VString file)] ;;;
      err <- processFile file ;;
      match err with
      | Some err =>
          if Contains (Error err) "already indexed" then
            log InfoLevel "Skipped already-indexed file"
                [("file", VString file)] ;;;
            processFiles total (i + 1) rest
              {| successCount := successCount c;
                 skipCount := add (skipCount c) 1;
                 errorCount := errorCount c |}
          else
            log ErrorLevel "Failed to process file"
                [("file", VString file); ("error", VError err)] ;;;
            processFiles total (i + 1) rest
              {| successCount := successCount c;
                 skipCount := skipCount c;
                 errorCount := add (errorCount c) 1 |}
      | None =>
          processFiles total (i + 1) rest
            {| successCount := add (successCount c) 1;
               skipCount := skipCount c;
               errorCount := errorCount c |}
      end
  end.

Definition ProcessDirectory (directory : string) : M (option error) :=
  log InfoLevel "Starting directory processing"
      [("directory", VString directory)] ;;;
  r <- scanDirectory directory ;;
  match r with
  | (_, Some err) => ret (Some (wrapf "failed to scan directory" err))
  | (files, None) =>
      log InfoLevel "Found files"
          [("count", VInt (PineconeClient.llen files))] ;;;
      c <- processFiles (PineconeClient.llen files) 0 files
                        {| successCount := 0; skipCount := 0;
                           errorCount := 0 |} ;;
      log InfoLevel "Directory processing complete"
          [("total_files", VInt (PineconeClient.llen files));
           ("processed", VInt (successCount c));
           ("skipped", VInt (skipCount c));
           ("errors", VInt (errorCount c))] ;;;
      ret None
  end.

End Processor.

(** *** Vocabulary for the statements *)

(** The calls recorded in a trace, in order. *)
Fixpoint calls (t : list event) : list call :=
  match t with
  | [] => []
  | Called c _ :: rest => c :: calls rest
  | Log _ _ _ :: rest => calls rest
  end.

(** The embedding requests recorded in a trace, in order: the chunk sent,
    and whether an embedding came back. *)
Fixpoint embeds (t : list event) : list (string * bool) :=
  match t with
  | [] => []
  | Called (GenerateEmbedding chunk) ok :: rest => (chunk, ok) :: embeds rest
  | _ :: rest => embeds rest
  end.

(** Of the requests [rs], numbered from [i] on, those that succeeded. *)
Fixpoint kept (i : Z) (rs : list (string * bool)) : list (Z * string) :=
  match rs with
  | [] => []
  | (chunk, true) :: rest => (i, chunk) :: kept (i + 1) rest
  | (_, false) :: rest => kept (i + 1) rest
  end.

Fixpoint field (key : string) (fields : list (string * value)) : option value :=
  match fields with
  | [] => None
  | (k, v) :: rest => if String.eqb key k then Some v else field key rest
  end.

(** The chunk a vector stands for: its index and its text. *)
Definition described (v : Vector) : option (Z * string) :=
  match field "chunk_index" (Metadata v), field "content" (Metadata v) with
  | Some (VInt i), Some (VString chunk) => Some (i, chunk)
  | _, _ => None
  end.

(** How the loop of [ProcessDirectory] counts what [processFile] returned. *)
Inductive verdict : Type := Processed | Skipped | Errored.

Definition verdict_of (r : option error) : verdict :=
  match r with
  | None => Processed
  | Some err =>
      if Contains (Error err) "already indexed" then Skipped else Errored
  end.

Definition count (v : verdict) (c : counters) : counters :=
  match v with
  | Processed => {| successCount := GoInt.add (successCount c) 1;
                    skipCount := skipCount c;
                    errorCount := errorCount c |}
  | Skipped => {| successCount := successCount c;
                  skipCount := GoInt.add (skipCount c) 1;
                  errorCount := errorCount c |}
  | Errored => {| successCount := successCount c;
                  skipCount := skipCount c;
                  errorCount := GoInt.add (errorCount c) 1 |}
  end.

(** The log entry that opens the work on a file, and the one that closes
    it, if any. *)
Definition opening (total i : Z) (file : string) : event :=
  Log InfoLevel "Processing file"
      [("index", VInt (GoInt.add i 1)); ("total", VInt total);
       ("file", VString file)].

Definition closing (file : string) (r : option error) : list event :=
  match r with
  | None => []
  | Some err =>
      if Contains (Error err) "already indexed"
      then [Log InfoLevel "Skipped already-indexed file"
                [("file", VString file)]]
      else [Log ErrorLevel "Failed to process file"
                [("file", VString file); ("error", VError err)]]
  end.

(** [iterates dp total i files w c t c' w']: starting outside in [w] with
    the counters [c], [processFile] is run on every file of [files] in turn;
    each run returns, whatever it returns is counted, and the next file is
    taken up; [t] is what is logged and called on the way, [c'] and [w']
    are the counters and the state outside at the end. *)
Inductive iterates {W : Type} (dp : @DocumentProcessor W) (total : Z)
  : Z -> list string -> W -> counters -> list event -> counters -> W -> Prop :=
| iterates_done i w c : iterates dp total i [] w c [] c w
| iterates_next i file rest w c r w1 t1 t2 c' w2 :
    processFile dp file w = Done (r, w1, t1) ->
    iterates dp total (i + 1) rest w1 (count (verdict_of r) c) t2 c' w2 ->
    iterates dp total i (file :: rest) w c
             (opening total i file :: t1 ++ closing file r ++ t2) c' w2.

(** The texts that extractors and the image analysis hand back fit in
    memory twice over, so that joining two of them still does. *)
Definition small (s : string) : Prop := GoInt.len s < 2 ^ 61.

Definition texts_small {W : Type} (dp : @DocumentProcessor W) : Prop :=
  (forall p w path text w',
     In p (processors dp) -> Extract p w path = (Ok text, w') -> small text) /\
  (forall analyze w path text w',
     visionClient dp = Some analyze -> analyze w path = Done (Ok text, w') ->
     small text).

(** The image analysis returns on every image it is given: it neither
    panics nor runs for ever. *)
Definition analysis_returns {W : Type} (dp : @DocumentProcessor W) : Prop :=
  forall analyze w path,
    visionClient dp = Some analyze -> isImageFile dp path = true ->
    exists r w', analyze w path = Done (r, w').

(** Lines 188-192: the content with the description of the image, when
    there is one, two line feeds after it. *)
Definition combined (content visualContent : string) : string :=
  if String.eqb visualContent "" then content
  else (content ++ String LF (String LF "") ++ visualContent)%string.

(** [processFile] on [filePath], started outside in [w], gets past the
    extraction: the file is hashed to [fileHash], it is not skipped, and
    [content], which is not empty, is extracted from it; [t] is what is
    logged and called up to there, [w2] the state outside then. *)
Definition extracted {W : Type} (dp : @DocumentProcessor W)
           (filePath : string) (w : W) (fileHash content : string)
           (w2 : W) (t : list event) : Prop :=
  exists w1 t1 t2,
    Hasher.calculateFileHash (files dp w) filePath = Ok fileHash /\
    alreadyIndexed dp fileHash w = Done (false, w1, t1) /\
    extractContent dp filePath w1 = Done (Ok content, w2, t2) /\
    content <> "" /\
    t = Called (OpenFile filePath) true :: t1 ++ t2.


(** What the embedder answers when it is asked for each chunk in turn,
    from the state [w] on: the embedding, or nothing for a request that
    fails.  The clock is read after every answer that is an embedding. *)
Fixpoint answers {W : Type} (dp : @DocumentProcessor W)
         (chunks : list string) (w : W) : list (option (list float32)) :=
  match chunks with
  | [] => []
  | chunk :: rest =>
      match azureEmbedding dp w chunk with
      | (Ok chunkEmbedding, w1) =>
          Some chunkEmbedding :: answers dp rest (snd (timeNowUnix dp w1))
      | (Fail _, w1) => None :: answers dp rest w1
      end
  end.





End Orchestrator.

(** ** A small world to run the pipeline in *)

Module Demo.
Import Pinecone Effects Orchestrator.

(** The index holds the hashes stored so far and cannot be queried while
    it is [down]; embedding requests are counted, and those whose number is
    listed in [failing] fail. *)
Record world : Type := {
  indexed : list string;
  down : bool;
  embeddings : nat;
  failing : list nat;
  clock : Z
}.

Definition disk : list (string * string) :=
  [("data/a.txt", "alpha beta gamma");
   ("data/a_copy.txt", "alpha beta gamma");
   ("data/b.txt", "0123456789abcdefghij");
   ("data/notes.xyz", "no extractor takes this")].

Fixpoint lookup (k : string) (l : list (string * string)) : option string :=
  match l with
  | [] => None
  | (k', v) :: rest => if String.eqb k k' then Some v else lookup k rest
  end.

Definition demo_files : Hasher.filesystem :=
  fun path =>
    match lookup path disk with
    | Some bytes => Ok (Hasher.Block bytes Hasher.EOF)
    | None => Fail (Errorf "no such file or directory")
    end.

Definition demo_tree (names : list string) : string * Scanner.node :=
  ("data", Scanner.Dir None (map (fun n => (n, Scanner.File Scanner.Regular)) names)).

(** The extension: from the last dot on, for names without a slash after
    it. *)
Fixpoint ext_of (s : string) : string :=
  match s with
  | EmptyString => ""
  | String c rest =>
      match ext_of rest with
      | EmptyString =>
          if Ascii.eqb c "."%char
             && negb (Contains rest "/") && negb (Contains rest ".")
          then s else ""
      | e => e
      end
  end.

(** The last element of a path. *)
Fixpoint base_of (s : string) : string :=
  match s with
  | EmptyString => ""
  | String c rest =>
      if Contains rest "/" then base_of rest
      else if Ascii.eqb c "/"%char then rest else s
  end.

Definition textProcessor : @ProcessorInterface world := {|
  CanProcess := fun ext => String.eqb ext ".txt";
  Extract := fun w path =>
    match lookup path disk with
    | Some bytes => (Ok bytes, w)
    | None => (Fail (Errorf "no such file or directory"), w)
    end
|}.

Definition hash_of_filter (req : QueryRequest) : string :=
  match Filter req with
  | Some [(_, [(_, VString h)])] => h
  | _ => ""
  end.

Definition hash_of_vector (v : Vector) : list string :=
  match Metadata v with
  | _ :: _ :: _ :: _ :: (_, VString h) :: _ => [h]
  | _ => []
  end.

Definition demo (names : list string) (skip : bool) (chunkSize overlap : Z)
  : @DocumentProcessor world := {|
  config := {| SkipExistingDocuments := skip;
               ChunkSize := chunkSize;
               ChunkOverlap := overlap;
               PineconeCfg := {| Dimension := 2; UseNamespaces := false |} |};
  tree := fun _ _ => demo_tree names;
  files := fun _ => demo_files;
  Base := base_of;
  Ext := ext_of;
  ToLower := fun e => e;
  processors := [textProcessor];
  visionClient := None;
  azureSummary := fun w _ => (Ok "a summary", w);
  azureEmbedding := fun w _ =>
    let w' := {| indexed := indexed w; down := down w;
                 embeddings := S (embeddings w);
                 failing := failing w; clock := clock w |} in
    if existsb (Nat.eqb (embeddings w)) (failing w)
    then (Fail (Errorf "rate limited"), w')
    else (Ok [1; 2], w');
  pineconeQuery := fun w req =>
    if down w then (Fail (Errorf "connection refused"), w)
    else if existsb (String.eqb (hash_of_filter req)) (indexed w)
    then (Ok [{| MatchID := "m"; Score := 0; MatchMetadata := [] |}], w)
    else (Ok [], w);
  pineconeUpsert := fun w req =>
    (None, {| indexed := flat_map hash_of_vector (Vectors req) ++ indexed w;
              down := down w;
              embeddings := embeddings w; failing := failing w;
              clock := clock w |});
  uuidNew := fun w => ("doc", w);
  timeNowUnix := fun w => (clock w, w)
|}.

Definition start (failing : list nat) : world :=
  {| indexed := []; down := false; embeddings := 0; failing := failing;
     clock := 1700000000 |}.

Definition hash_a : string :=
  "sha256:64989ccbf3efa9c84e2afe7cee9bc5828bf0fcb91e44f8c1e591638a2c2e90e3".



(** The index cannot be reached. *)
Definition outage : world :=
  {| indexed := [hash_a]; down := true; embeddings := 0; failing := [];
     clock := 1700000000 |}.

(** What to look at after a run: the result, the fields of the last log
    entry, and the batches written with their success. *)
Definition report {A : Type} (o : outcome (A * world * list event))
  : option (A * list (string * value) * list (list (option (Z * string)) * bool)) :=
  match o with
  | Done (a, _, t) =>
      Some (a,
            match last t (Log DebugLevel "" []) with
            | Log _ _ fields => fields
            | Called _ _ => []
            end,
            map (fun b => (map described (fst b), snd b))
                (PineconeClient.writes t))
  | _ => None
  end.

End Demo.

(** ** More vocabulary for the chunker *)

Module Rejoin.

(** The text back from its chunks: of every chunk but the last, the bytes
    before the next window starts; the last chunk whole. *)
Fixpoint rejoin (stride : Z) (chunks : list string) : string :=
  match chunks with
  | [] => ""
  | c :: rest =>
      match rest with
      | [] => c
      | _ :: _ => substring 0 (Z.to_nat stride) c ++ rejoin stride rest
      end
  end.

End Rejoin.

(** ** The configuration: [validate] (package [config]) *)

Module ConfigPkg.

Record AzureConfig : Type := {
  OpenAIAPIKey : string;
  OpenAIEndpoint : string;
  OpenAIEmbeddingsDeployment : string;
  OpenAIAPIVersion : string;
  OpenAIChatDeployment : string
}.

Record GoogleConfig : Type := {
  VisionAPIKey : string;
  ApplicationCredentials : string
}.

Record PineconeConfig : Type := {
  APIKey : string;
  Host : string;
  IndexName : string;
  Dimension : Z;
  UseNamespaces : bool
}.

Record AppConfig : Type := {
  DataDirectory : string;
  ChunkSize : Z;
  ChunkOverlap : Z;
  SkipExistingDocuments : bool
}.

(** The sections of [Config] that the pipeline and its clients read. *)
Record Config : Type := {
  Azure : AzureConfig;
  Google : GoogleConfig;
  Pinecone : PineconeConfig;
  App : AppConfig
}.

Definition validate (config : Config) : option error :=
  if String.eqb (OpenAIAPIKey (Azure config)) "" then
    Some (Errorf "AZURE_OPENAI_API_KEY is required")
  else if String.eqb (OpenAIEndpoint (Azure config)) "" then
    Some (Errorf "AZURE_OPENAI_ENDPOINT is required")
  else if String.eqb (APIKey (Pinecone config)) "" then
    Some (Errorf "PINECONE_API_KEY is required")
  else if String.eqb (IndexName (Pinecone config)) "" then
    Some (Errorf "PINECONE_INDEX_NAME is required")
  else if String.eqb (DataDirectory (App config)) "" then
    Some (Errorf "DATA_DIRECTORY is required")
  else if ChunkSize (App config) <=? 0 then
    Some (Errorf "chunk_size must be positive")
  else if ChunkOverlap (App config) <? 0 then
    Some (Errorf "chunk_overlap cannot be negative")
  else if ChunkOverlap (App config) >=? ChunkSize (App config) then
    Some (Errorf "chunk_overlap must be less than chunk_size")
  else if Dimension (Pinecone config) <=? 0 then
    Some (Errorf "pinecone dimension must be positive")
  else None.

(** What the orchestrator and the Pinecone client keep of it. *)
Definition pinecone_view (config : Config) : Pinecone.PineconeConfig :=
  {| Pinecone.Dimension := Dimension (Pinecone config);
     Pinecone.UseNamespaces := UseNamespaces (Pinecone config) |}.

Definition orchestrator_view (config : Config) : Orchestrator.Config :=
  {| Orchestrator.SkipExistingDocuments := SkipExistingDocuments (App config);
     Orchestrator.ChunkSize := ChunkSize (App config);
     Orchestrator.ChunkOverlap := ChunkOverlap (App config);
     Orchestrator.PineconeCfg := pinecone_view config |}.

End ConfigPkg.

(** ** Building the clients: [NewOpenAIClient], [NewVisionClient],
    [NewPineconeClient], [NewDocumentProcessor] *)

Module Startup.
Import Effects ConfigPkg.

Record OpenAIClient : Type := {
  azure_apiKey : string;
  azure_endpoint : string;
  embeddingDeployment : string;
  chatDeployment : string;
  apiVersion : string
}.

Definition NewOpenAIClient (cfg : Config) : result OpenAIClient :=
  if String.eqb (OpenAIAPIKey (Azure cfg)) "" then
    Fail (Errorf "azure OpenAI API key is required")
  else if String.eqb (OpenAIEndpoint (Azure cfg)) "" then
    Fail (Errorf "azure OpenAI endpoint is required")
  else
    Ok {| azure_apiKey := OpenAIAPIKey (Azure cfg);
          azure_endpoint := OpenAIEndpoint (Azure cfg);
          embeddingDeployment := OpenAIEmbeddingsDeployment (Azure cfg);
          chatDeployment := OpenAIChatDeployment (Azure cfg);
          apiVersion := OpenAIAPIVersion (Azure cfg) |}.

Record VisionClient : Type := { vision_apiKey : string }.

Record PineconeClient : Type := {
  pinecone_apiKey : string;
  host : string;
  pinecone_config : ConfigPkg.PineconeConfig
}.

(** [if !strings.HasPrefix(host, "https://") { host = "https://" + host }] *)
Definition with_scheme (host : string) : string :=
  if prefix "https://" host then host else ("https://" ++ host)%string.

Section Clients.
Context {W : Type}.

(** The exchange with the control plane in [fetchIndexHost]: building the
    request, sending it, checking the status and decoding the answer; it
    yields the [host] field of the answer, or the error [fetchIndexHost]
    returns at that point.  The trace of this module holds log entries
    only. *)
Variable describeIndex : W -> string -> string -> result string * W.

(** [http.NewRequestWithContext] for a GET of the address: the error it
    returns for an address it cannot parse. *)
Variable newRequest : string -> option error.

Definition NewVisionClient (cfg : Config) : M (result VisionClient) :=
  (if String.eqb (VisionAPIKey (Google cfg)) "" then
     log WarnLevel
         "Google Vision API key not configured, image analysis will be limited"
         []
   else ret tt) ;;;
  @ret W _ (Ok {| vision_apiKey := VisionAPIKey (Google cfg) |}).

Definition fetchIndexHost (apiKey indexName : string) : M (result string) :=
  let url := ("https://api.pinecone.io/indexes/" ++ indexName)%string in
  match newRequest url with
  | Some err => ret (Fail (wrapf "failed to create request" err))
  | None =>
      log DebugLevel "Fetching Pinecone index info" [("url", VString url)] ;;;
      r <- (fun w => let '(r, w') := describeIndex w apiKey indexName in
                     Done (r, w', [])) ;;
      match r with
      | Fail err => ret (Fail err)
      | Ok h =>
          if String.eqb h "" then
            ret (Fail (Errorf "no host returned from Pinecone API"))
          else
            log InfoLevel "Fetched Pinecone index host"
                [("host", VString (with_scheme h))] ;;;
            ret (Ok (with_scheme h))
      end
  end.

Definition NewPineconeClient (cfg : Config) : M (result PineconeClient) :=
  if String.eqb (APIKey (Pinecone cfg)) "" then
    ret (Fail (Errorf "pinecone API key is required"))
  else if String.eqb (IndexName (Pinecone cfg)) "" then
    ret (Fail (Errorf "pinecone index name is required"))
  else
    r <- (if negb (String.eqb (Host (Pinecone cfg)) "") then
            log InfoLevel "Using provided Pinecone host"
                [("host", VString (with_scheme (Host (Pinecone cfg))))] ;;;
            ret (Ok (with_scheme (Host (Pinecone cfg))))
          else
            f <- fetchIndexHost (APIKey (Pinecone cfg))
                                (IndexName (Pinecone cfg)) ;;
            match f with
            | Fail err =>
                ret (Fail (wrapf "failed to fetch Pinecone index host" err))
            | Ok fetchedHost => ret (Ok fetchedHost)
            end) ;;
    match r with
    | Fail err => ret (Fail err)
    | Ok h =>
        log InfoLevel "Connecting to Pinecone"
            [("index", VString (IndexName (Pinecone cfg)));
             ("host", VString h)] ;;;
        ret (Ok {| pinecone_apiKey := APIKey (Pinecone cfg);
                   host := h;
                   pinecone_config := Pinecone cfg |})
    end.

(** What [NewDocumentProcessor] puts together; the content processors it
    adds are always the same five. *)
Record Clients : Type := {
  azureClient : OpenAIClient;
  visionClient : option VisionClient;
  pineconeClient : PineconeClient
}.

Definition NewDocumentProcessor (cfg : Config) : M (result Clients) :=
  match NewOpenAIClient cfg with
  | Fail err => ret (Fail (wrapf "failed to create Azure client" err))
  | Ok azure =>
      vision <-
        (if negb (String.eqb (VisionAPIKey (Google cfg)) "")
            || negb (String.eqb (ApplicationCredentials (Google cfg)) "")
         then
           v <- NewVisionClient cfg ;;
           match v with
           | Fail err =>
               log WarnLevel "Failed to create Vision client"
                   [("error", VError err)] ;;;
               ret None
           | Ok client => ret (Some client)
           end
         else ret None) ;;
      p <- NewPineconeClient cfg ;;
      match p with
      | Fail err => ret (Fail (wrapf "failed to create Pinecone client" err))
      | Ok pinecone =>
          ret (Ok {| azureClient := azure;
                     visionClient := vision;
                     pineconeClient := pinecone |})
      end
  end.

End Clients.

End Startup.

(** A configuration with the defaults of [setDefaults] and the required
    keys filled in. *)
Module Settings.
Import ConfigPkg.

Definition sample (hostName : string) : Config :=
  {| Azure := {| OpenAIAPIKey := "key";
                 OpenAIEndpoint := "https://example.openai.azure.com";
                 OpenAIEmbeddingsDeployment := "text-embedding-ada-002";
                 OpenAIAPIVersion := "2024-02-01";
                 OpenAIChatDeployment := "gpt-4" |};
     Google := {| VisionAPIKey := ""; ApplicationCredentials := "" |};
     Pinecone := {| APIKey := "key"; Host := hostName;
                    IndexName := "repograph"; Dimension := 1536;
                    UseNamespaces := true |};
     App := {| DataDirectory := "./data"; ChunkSize := 1000;
               ChunkOverlap := 200; SkipExistingDocuments := true |} |}.

End Settings.
(** ** The Azure OpenAI adapter: [GenerateEmbedding], [GenerateSummary] *)

Module Azure.
Import GoInt Pinecone Effects Startup.

Record ChatMessage : Type := {
  Role : string;
  Content : string
}.

(** [Temperature] is a constant of the source; it is kept as the fraction
    its literal denotes. *)
Record ChatRequest : Type := {
  Messages : list ChatMessage;
  MaxTokens : Z;
  Temperature : Z * Z
}.

Section Client.
Context {W : Type}.
Variable c : OpenAIClient.

(** One exchange with the service: the request is marshalled and posted to
    the address, the status is checked and the answer decoded.  What comes
    back is the decoded answer (the embeddings of [data], the contents of
    [choices]) or the error returned at the step that failed. *)
Variable postEmbeddings :
  W -> string -> list string -> result (list (list float32)) * W.
Variable postChat : W -> string -> ChatRequest -> result (list string) * W.

Definition embeddingsURL : string :=
  azure_endpoint c ++ "/openai/deployments/" ++ embeddingDeployment c
  ++ "/embeddings?api-version=" ++ apiVersion c.

Definition chatURL : string :=
  azure_endpoint c ++ "/openai/deployments/" ++ chatDeployment c
  ++ "/chat/completions?api-version=" ++ apiVersion c.

(** The exchange is recorded as the call [GenerateEmbedding] with the text
    of the request. *)
Definition GenerateEmbedding (text : string) : M (result (list float32)) :=
  if String.eqb text "" then ret (Fail (Errorf "text cannot be empty"))
  else
    log DebugLevel "Generating embedding" [("text_length", VInt (len text))] ;;;
    r <- ask (Effects.GenerateEmbedding text) is_ok
             (fun w => postEmbeddings w embeddingsURL [text]) ;;
    match r with
    | Fail err => ret (Fail err)
    | Ok [] => ret (Fail (Errorf "no embeddings returned"))
    | Ok (embedding :: _) =>
        log DebugLevel "Embedding generated successfully"
            [("dimensions", VInt (Z.of_nat (List.length embedding)))] ;;;
        ret (Ok embedding)
    end.

Definition systemPrompt : string :=
  "You are a helpful assistant that creates concise, informative summaries. Focus on key points and main ideas.".

Definition userPrompt : string :=
  "Please provide a comprehensive summary of the following content:"
  ++ String "010" (String "010" "").

(** The exchange is recorded as the call [GenerateSummary] with the content
    of the user message. *)
Definition GenerateSummary (text : string) : M (result string) :=
  if String.eqb text "" then ret (Fail (Errorf "text cannot be empty"))
  else
    text <- (if len text >? 10000 then
               head <- lift (Chunker.slice text 0 10000) ;;
               ret (head ++ "...")%string
             else ret text) ;;
    log DebugLevel "Generating summary" [("text_length", VInt (len text))] ;;;
    let reqBody :=
      {| Messages := [ {| Role := "system"; Content := systemPrompt |};
                       {| Role := "user";
                          Content := (userPrompt ++ text)%string |} ];
         MaxTokens := 500;
         Temperature := (3, 10) |} in
    r <- ask (Effects.GenerateSummary (userPrompt ++ text)) is_ok
             (fun w => postChat w chatURL reqBody) ;;
    match r with
    | Fail err => ret (Fail err)
    | Ok [] => ret (Fail (Errorf "no summary generated"))
    | Ok (summary :: _) =>
        log DebugLevel "Summary generated successfully"
            [("summary_length", VInt (len summary))] ;;;
        ret (Ok summary)
    end.

End Client.

End Azure.
(** ** [base64.StdEncoding.EncodeToString] *)

Module Base64.

Definition alphabet : string :=
  "ABCDEFGHIJKLMNOPQRSTUVWXYZabcdefghijklmnopqrstuvwxyz0123456789+/".

(** The character of a six-bit value. *)
Definition digit (n : N) : ascii :=
  match String.get (N.to_nat n) alphabet with
  | Some ch => ch
  | None => "="%char
  end.

(** Three bytes give four characters; a last group of one or two bytes is
    padded with [=]. *)
Fixpoint EncodeToString (data : string) : string :=
  match data with
  | EmptyString => EmptyString
  | String a EmptyString =>
      let x := N_of_ascii a in
      String (digit (x / 4))
        (String (digit (x mod 4 * 16)) "==")
  | String a (String b EmptyString) =>
      let x := N_of_ascii a in
      let y := N_of_ascii b in
      String (digit (x / 4))
        (String (digit (x mod 4 * 16 + y / 16))
           (String (digit (y mod 16 * 4)) "="))
  | String a (String b (String c rest)) =>
      let x := N_of_ascii a in
      let y := N_of_ascii b in
      let z := N_of_ascii c in
      String (digit (x / 4))
        (String (digit (x mod 4 * 16 + y / 16))
           (String (digit (y mod 16 * 4 + z / 64))
              (String (digit (z mod 64)) (EncodeToString rest))))
  end.

End Base64.

(** ** The Vision adapter: [AnalyzeImage] *)

Module Vision.
Import GoInt Effects Startup.

(** [strings.Split(s, sep)] for a separator of one byte. *)
Fixpoint Split (s : string) (sep : ascii) : list string :=
  match s with
  | EmptyString => [EmptyString]
  | String ch rest =>
      if Ascii.eqb ch sep then EmptyString :: Split rest sep
      else match Split rest sep with
           | [] => [String ch EmptyString]
           | part :: parts => String ch part :: parts
           end
  end.

(** [strings.Index(s, substr)] *)
Definition Index (s substr : string) : Z :=
  match String.index 0 substr s with
  | Some n => Z.of_nat n
  | None => -1
  end.

Definition newline : string := String Orchestrator.LF EmptyString.

Section Client.
Context {W : Type}.

(** [filepath.Base], [filepath.Ext], [strings.ToLower] and
    [strings.TrimSpace] of the Go library, and [os.ReadFile]. *)
Variable Base : string -> string.
Variable Ext : string -> string.
Variable ToLower : string -> string.
Variable TrimSpace : string -> string.
Variable readFile : W -> string -> result string * W.

Variable c : VisionClient.

Definition parseSVG (data : string) : string :=
  let content := data in
  let parts := Split content ">" in
  let texts :=
    fold_left
      (fun texts part =>
         let idx := Index part "<" in
         if idx >? 0 then
           let text := TrimSpace (substring 0 (Z.to_nat idx) part) in
           if negb (String.eqb text "") && negb (prefix "<?" text)
              && negb (prefix "<!" text)
           then texts ++ [text]
           else texts
         else texts)
      parts [] in
  if (0 <? Z.of_nat (List.length texts)) then
    ("SVG Diagram Content:" ++ newline ++ String.concat newline texts)%string
  else "SVG Diagram (no text content extracted)".

Definition getBasicImageInfo (path data : string) : outcome string :=
  let ext := ToLower (Ext path) in
  let fileName := Base path in
  let info :=
    ("Image: " ++ fileName ++ newline ++ "Type: " ++ ext ++ newline
     ++ "Size: " ++ Orchestrator.decimal (len data) ++ " bytes")%string in
  if len data <? 1000 then
    match Chunker.slice (Base64.EncodeToString data) 0 100 with
    | Done preview =>
        Done (info ++ newline ++ "Base64: " ++ preview ++ "...")%string
    | Panics => Panics
    | Diverges => Diverges
    end
  else Done info.

(** The read is recorded as the call [OpenFile]. *)
Definition AnalyzeImage (imagePath : string) : M (result string) :=
  log DebugLevel "Analyzing image" [("path", VString imagePath)] ;;;
  r <- ask (OpenFile imagePath) is_ok (fun w => readFile w imagePath) ;;
  match r with
  | Fail err => ret (Fail (wrapf "failed to read image" err))
  | Ok imageData =>
      let ext := ToLower (Ext imagePath) in
      if String.eqb ext ".svg" then ret (Ok (parseSVG imageData))
      else if String.eqb (vision_apiKey c) "" then
        info <- lift (getBasicImageInfo imagePath imageData) ;;
        ret (Ok info)
      else
        info <- lift (getBasicImageInfo imagePath imageData) ;;
        ret (Ok info)
  end.

(** [AnalyzeImage] as the orchestrator calls it: what it returns and the
    state outside after it, or the panic. *)
Definition analyze (w : W) (imagePath : string)
  : outcome (result string * W) :=
  match AnalyzeImage imagePath w with
  | Done (r, w', _) => Done (r, w')
  | Panics => Panics
  | Diverges => Diverges
  end.

End Client.

End Vision.

(** ** A directory of images, with the Vision client configured *)

Module Gallery.
Import Pinecone Effects Orchestrator.

(** A GIF of one pixel: 35 bytes. *)
Definition pixel : string :=
  string_of_list_ascii
    (map ascii_of_nat
         [71; 73; 70; 56; 57; 97; 1; 0; 1; 0; 128; 0; 0; 255; 255; 255;
          0; 0; 0; 44; 0; 0; 0; 0; 1; 0; 1; 0; 0; 2; 2; 68; 1; 0; 59]%nat).

Definition drawing : string :=
  "<svg><text>Gateway</text><text>Index</text></svg>".

Definition read (disk : list (string * string)) (path : string)
  : result string :=
  match Demo.lookup path disk with
  | Some bytes => Ok bytes
  | None => Fail (Errorf "no such file or directory")
  end.

(** The processor of images says what file it was given. *)
Definition imageProcessor (disk : list (string * string))
  : @ProcessorInterface Demo.world := {|
  CanProcess := fun ext => existsb (String.eqb ext) [".gif"; ".svg"];
  Extract := fun w path =>
    match read disk path with
    | Ok _ => (Ok ("Image file: " ++ Demo.base_of path)%string, w)
    | Fail err => (Fail err, w)
    end
|}.

(** The pipeline over the files of [disk], which are the entries [names]
    of the directory [data]; the vision client is the one of this
    repository. *)
Definition processor (disk : list (string * string)) (names : list string)
  : @DocumentProcessor Demo.world :=
  let d := Demo.demo names false 1000 200 in
  {| config := config d;
     tree := tree d;
     files := fun _ path =>
       match read disk path with
       | Ok bytes => Ok (Hasher.Block bytes Hasher.EOF)
       | Fail err => Fail err
       end;
     Base := Base d;
     Ext := Ext d;
     ToLower := ToLower d;
     processors := [imageProcessor disk];
     visionClient :=
       Some (Vision.analyze Demo.base_of Demo.ext_of (fun e => e)
               (fun s => s) (fun w path => (read disk path, w))
               {| Startup.vision_apiKey := "key" |});
     azureSummary := azureSummary d;
     azureEmbedding := azureEmbedding d;
     pineconeQuery := pineconeQuery d;
     pineconeUpsert := pineconeUpsert d;
     uuidNew := uuidNew d;
     timeNowUnix := timeNowUnix d |}.

Definition drawings : list (string * string) :=
  [("data/flow.svg", drawing)].

Definition pixels : list (string * string) :=
  [("data/flow.svg", drawing); ("data/pixel.gif", pixel)].

End Gallery.
(** ** What a run may call *)

Module Trace.
Import GoInt Pinecone Effects Orchestrator.

(** Every run of [m] that returns has made only calls that satisfy [P],
    and returns a result that satisfies [Q]. *)
Definition emits {W A : Type} (P : call -> Prop) (Q : A -> Prop) (m : @M W A)
  : Prop :=
  forall w a w' t,
    m w = Done (a, w', t) -> Forall P (Orchestrator.calls t) /\ Q a.

(** The vector says it stands for a chunk of the file at [filePath]. *)
Definition owned (filePath : string) (v : Vector) : Prop :=
  field "file_path" (Metadata v) = Some (VString filePath).

(** The calls [processFile] may make for the file at [filePath]. *)
Definition permitted {W : Type} (dp : @DocumentProcessor W)
           (filePath : string) (c : call) : Prop :=
  match c with
  | WalkTree _ => False
  | OpenFile path => path = filePath
  | ExtractFile path => path = filePath
  | AnalyzeImage path =>
      path = filePath /\ isImageFile dp filePath = true /\
      visionClient dp <> None
  | PineconeQuery req =>
      SkipExistingDocuments (config dp) = true /\
      exists fileHash,
        req = PineconeClient.exists_request (PineconeCfg (config dp)) fileHash
  | PineconeUpsert req =>
      Forall (owned filePath) (Vectors req)
  | GenerateSummary text => text <> ""
  | GenerateEmbedding chunk =>
      chunk <> "" /\ len chunk <= ChunkSize (config dp)
  | NewUUID => True
  | TimeNow => True
  end.

(** The vector is the one of chunk [i] of the document [docID], for some
    [i] from [0] up to [total], and carries the document's hash, summary
    and number of chunks. *)
Definition labelled (docID fileHash summary : string) (total : Z)
           (v : Vector) : Prop :=
  field "document_id" (Metadata v) = Some (VString docID) /\
  field "file_hash" (Metadata v) = Some (VString fileHash) /\
  field "summary" (Metadata v) = Some (VString summary) /\
  field "chunk_total" (Metadata v) = Some (VInt total) /\
  exists i, 0 <= i < total /\
    ID v = (docID ++ "-chunk-" ++ decimal i)%string /\
    field "chunk_index" (Metadata v) = Some (VInt i).

(** What [processFile] can return: [nil], the notice that the file is
    already indexed, or the error of one of three stages, wrapped. *)
Definition reported (r : option error) : Prop :=
  r = None \/
  r = Some (Errorf "file already indexed") \/
  (exists e, r = Some (wrapf "failed to calculate hash" e)) \/
  (exists e, r = Some (wrapf "failed to extract content" e)) \/
  (exists e, r = Some (wrapf "failed to store in Pinecone"
                             (wrapf "failed to upsert batch" e))).

(** The vectors that the write calls of a trace carried, in order. *)
Definition written (t : list event) : list Vector :=
  List.concat (map fst (PineconeClient.writes t)).

End Trace.

(** A processor whose files cannot be opened, with a message that happens
    to hold the words the loop of [ProcessDirectory] looks for. *)
Module Unreadable.
Import Pinecone Effects Orchestrator.

Definition message : string :=
  "open data/already indexed/a.txt: permission denied".

Definition processor : @DocumentProcessor Demo.world :=
  let d := Demo.demo ["a.txt"] true 1000 200 in
  {| config := config d;
     tree := tree d;
     files := fun _ _ => Fail (Errorf message);
     Base := Base d;
     Ext := Ext d;
     ToLower := ToLower d;
     processors := processors d;
     visionClient := visionClient d;
     azureSummary := azureSummary d;
     azureEmbedding := azureEmbedding d;
     pineconeQuery := pineconeQuery d;
     pineconeUpsert := pineconeUpsert d;
     uuidNew := uuidNew d;
     timeNowUnix := timeNowUnix d |}.

End Unreadable.
(** ** Package [utils]: [ComputeFileHash], [SanitizeFileName],
    [TruncateString] *)

Module Utils.
Import GoInt.

(** [hex.EncodeToString]: two lower-case hexadecimal digits a byte. *)
Definition EncodeToString (bytes : list Z) : string := Hasher.hex bytes.

Definition ComputeFileHash (fs : Hasher.filesystem) (filePath : string)
  : result string :=
  match fs filePath with
  | Fail err => Fail (wrapf "failed to open file" err)
  | Ok file =>
      match Hasher.Copy Hasher.New file with
      | (_, Some err) => Fail (wrapf "failed to compute hash" err)
      | (hash, None) => Ok (EncodeToString (Hasher.Sum hash))
      end
  end.

(** [strings.ReplaceAll(s, old, new)] for an [old] that is not empty: the
    occurrences of [old] that do not overlap, taken from the left.  [skip]
    counts the bytes of an occurrence that are still to be passed over. *)
Fixpoint replaceFrom (old new : string) (skip : nat) (s : string) : string :=
  match s with
  | EmptyString => EmptyString
  | String ch rest =>
      match skip with
      | S k => replaceFrom old new k rest
      | O =>
          if prefix old s
          then (new ++ replaceFrom old new (String.length old - 1) rest)%string
          else String ch (replaceFrom old new 0 rest)
      end
  end.

Definition ReplaceAll (s old new : string) : string := replaceFrom old new 0 s.

Definition invalidChars : list string :=
  ["/"; "\"; ":"; "*"; "?"; String (ascii_of_nat 34) EmptyString;
   "<"; ">"; "|"].

Definition SanitizeFileName (name : string) : string :=
  fold_left (fun sanitized char => ReplaceAll sanitized char "_")
            invalidChars name.

Definition TruncateString (s : string) (maxLen : Z) : outcome string :=
  if len s <=? maxLen then Done s
  else if maxLen <? 3 then Chunker.slice s 0 maxLen
  else
    match Chunker.slice s 0 (sub maxLen 3) with
    | Done head => Done (head ++ "...")%string
    | Panics => Panics
    | Diverges => Diverges
    end.

(** *** Vocabulary for the statements *)

Definition invalid (ch : ascii) : bool :=
  existsb (fun s => String.eqb s (String ch EmptyString)) invalidChars.

(** [s] with [f] applied to each of its bytes. *)
Fixpoint each (f : ascii -> ascii) (s : string) : string :=
  match s with
  | EmptyString => EmptyString
  | String ch rest => String (f ch) (each f rest)
  end.

(** [s] with every invalid character turned into an underscore. *)
Definition underscored (s : string) : string :=
  each (fun ch => if invalid ch then "_"%char else ch) s.

End Utils.

(* ===================================================================== *)
(** * Part II: properties                                                 *)
(* ===================================================================== *)

(** ** Machine integers *)

Section GoIntFacts.
Import GoInt.

Lemma wrap_small z : min_int <= z <= max_int -> wrap z = z.
Proof.
  unfold wrap, min_int, max_int. intros H.
  rewrite Z.mod_small by lia. lia.
Qed.

Lemma len_nonneg s : 0 <= len s.
Proof. unfold len. lia. Qed.

End GoIntFacts.

(** ** The chunker *)

Section ChunkerFacts.
Import GoInt Chunker.

Lemma substring_length s : forall n m,
  (n + m <= String.length s)%nat -> String.length (substring n m s) = m.
Proof.
  induction s as [|c s IH]; intros n m H; simpl in *.
  - destruct n, m; simpl; lia.
  - destruct n as [|n].
    + destruct m as [|m]; simpl; [reflexivity|].
      rewrite IH by lia. reflexivity.
    + apply IH. lia.
Qed.

Lemma lt_ceil_div a b k : 0 < b -> (k < ceil_div a b <-> k * b < a).
Proof.
  intros Hb. unfold ceil_div. split; intros H.
  - assert (Hq : k + 1 <= (a + b - 1) / b) by lia.
    assert (Hm : b * ((a + b - 1) / b) <= a + b - 1)
      by (apply Z.mul_div_le; lia).
    nia.
  - assert (Hq : k + 1 <= (a + b - 1) / b)
      by (apply Z.div_le_lower_bound; lia).
    lia.
Qed.

Lemma ceil_div_nonneg a b : 0 <= a -> 0 < b -> 0 <= ceil_div a b.
Proof. intros. unfold ceil_div. apply Z.div_pos; lia. Qed.

Lemma ceil_div_le_self a b : 0 <= a -> 0 < b -> ceil_div a b <= a.
Proof.
  intros Ha Hb.
  destruct (Z_lt_le_dec a (ceil_div a b)) as [H|H]; [|exact H].
  apply lt_ceil_div in H; [nia | exact Hb].
Qed.

Lemma win_start_succ chunkSize overlap (i : nat) :
  win_start chunkSize overlap (S i)
  = win_start chunkSize overlap i + (chunkSize - overlap).
Proof. unfold win_start. lia. Qed.

Lemma win_start_nonneg chunkSize overlap (i : nat) :
  0 <= overlap < chunkSize -> 0 <= win_start chunkSize overlap i.
Proof. intros H. unfold win_start. nia. Qed.

Section Loop.
Variables (text : string) (chunkSize overlap : Z).
Hypothesis Hmem : in_memory text.
Hypothesis Hpre : 0 <= overlap < chunkSize.
Hypothesis Hlong : chunkSize < len text.

Let stride := chunkSize - overlap.
Let count := Z.to_nat (ceil_div (len text) stride).

Lemma window_end_clip start :
  0 <= start < len text ->
  window_end text chunkSize start = Z.min (start + chunkSize) (len text).
Proof.
  intros Hs. unfold window_end, add. unfold in_memory, max_len in Hmem.
  rewrite wrap_small by (unfold min_int, max_int; lia).
  destruct (Z.gtb_spec (start + chunkSize) (len text)); lia.
Qed.

Lemma next_start_advance start :
  0 <= start < len text ->
  next_start chunkSize overlap start = start + (chunkSize - overlap).
Proof.
  intros Hs. unfold next_start, add, sub.
  unfold in_memory, max_len in Hmem.
  rewrite (wrap_small (chunkSize - overlap))
    by (unfold min_int, max_int; lia).
  apply wrap_small. unfold min_int, max_int. lia.
Qed.

Lemma slice_window start :
  0 <= start < len text ->
  slice text start (window_end text chunkSize start)
  = Done (bytes_of text start (Z.min (start + chunkSize) (len text))).
Proof.
  intros Hs. rewrite window_end_clip by exact Hs. unfold slice.
  replace ((0 <=? start) && (start <=? Z.min (start + chunkSize) (len text))
           && (Z.min (start + chunkSize) (len text) <=? len text))
    with true; [reflexivity|].
  symmetry. rewrite !andb_true_iff, !Z.leb_le. lia.
Qed.

Lemma in_range_iff (k : nat) :
  (k < count)%nat <-> win_start chunkSize overlap k < len text.
Proof.
  unfold count, win_start. fold stride.
  pose proof (len_nonneg text) as Hl.
  assert (Hst : 0 < stride) by (unfold stride; lia).
  pose proof (ceil_div_nonneg (len text) stride Hl Hst) as Hc.
  rewrite <- (lt_ceil_div (len text) stride (Z.of_nat k) Hst). lia.
Qed.

Lemma chunkLoop_windows : forall fuel k acc,
  (k <= count)%nat -> (count - k <= fuel)%nat ->
  chunkLoop fuel text chunkSize overlap (win_start chunkSize overlap k) acc
  = Done (acc ++ map (piece text chunkSize overlap) (seq k (count - k))).
Proof.
  induction fuel as [|fuel IH]; intros k acc Hk Hf.
  - assert (k = count) by lia. subst k.
    assert (Hge : ~ win_start chunkSize overlap count < len text)
      by (rewrite <- in_range_iff; lia).
    simpl. destruct (Z.ltb_spec (win_start chunkSize overlap count) (len text));
      [contradiction|].
    rewrite Nat.sub_diag. simpl. rewrite app_nil_r. reflexivity.
  - simpl.
    destruct (Z.ltb_spec (win_start chunkSize overlap k) (len text)) as [Hlt|Hge].
    + assert (Hkc : (k < count)%nat) by (apply in_range_iff; exact Hlt).
      assert (H0 : 0 <= win_start chunkSize overlap k)
        by (unfold win_start; nia).
      rewrite slice_window by lia.
      rewrite next_start_advance by lia.
      replace (win_start chunkSize overlap k + (chunkSize - overlap))
        with (win_start chunkSize overlap (S k))
        by (unfold win_start; lia).
      rewrite IH by lia.
      replace (count - k)%nat with (S (count - S k)) by lia.
      simpl. rewrite <- app_assoc. reflexivity.
    + assert (Hkc : ~ (k < count)%nat) by (rewrite in_range_iff; lia).
      replace (count - k)%nat with 0%nat by lia.
      simpl. rewrite app_nil_r. reflexivity.
Qed.

Lemma count_le_length : (count <= String.length text)%nat.
Proof.
  unfold count. pose proof (len_nonneg text) as Hl.
  assert (Hst : 0 < stride) by (unfold stride; lia).
  pose proof (ceil_div_le_self (len text) stride Hl Hst) as H.
  unfold len in *. lia.
Qed.

Lemma chunkText_long :
  chunkText text chunkSize overlap
  = Done (map (piece text chunkSize overlap) (seq 0 count)).
Proof.
  unfold chunkText.
  destruct (Z.leb_spec (len text) chunkSize) as [H|_]; [lia|].
  change 0 with (win_start chunkSize overlap 0) at 1.
  pose proof count_le_length.
  rewrite chunkLoop_windows by lia.
  rewrite Nat.sub_0_r. reflexivity.
Qed.

Lemma chunkLoop_exit fuel start acc :
  len text <= start ->
  chunkLoop fuel text chunkSize overlap start acc = Done acc.
Proof.
  intros Hge.
  destruct fuel; simpl; destruct (Z.ltb_spec start (len text));
    try lia; reflexivity.
Qed.

(** Induction on the measure [len(text) - start]: the result does not
    depend on the fuel, once there is enough of it. *)
Lemma chunkLoop_total : forall (n : nat) (start : Z) (acc : list string),
  0 <= start -> (Z.to_nat (len text - start) <= n)%nat ->
  exists chunks, forall fuel,
    (Z.to_nat (len text - start) <= fuel)%nat ->
    chunkLoop fuel text chunkSize overlap start acc = Done chunks.
Proof.
  induction n as [|n IH]; intros start acc H0 Hn.
  - exists acc. intros fuel _. apply chunkLoop_exit. lia.
  - destruct (Z_lt_le_dec start (len text)) as [Hlt|Hge].
    + destruct (IH (start + (chunkSize - overlap))
                  (acc ++ [bytes_of text start
                             (Z.min (start + chunkSize) (len text))])
                  ltac:(lia) ltac:(lia)) as [chunks Hchunks].
      exists chunks. intros fuel Hf.
      destruct fuel as [|fuel]; [lia|].
      simpl. destruct (Z.ltb_spec start (len text)); [|lia].
      rewrite slice_window by lia.
      rewrite next_start_advance by lia.
      apply Hchunks. lia.
    + exists acc. intros fuel _. apply chunkLoop_exit. exact Hge.
Qed.

Lemma covered p :
  0 <= p < len text ->
  exists i, (i < count)%nat /\
    win_start chunkSize overlap i <= p < win_end text chunkSize overlap i.
Proof.
  intros Hp. assert (Hst : 0 < stride) by (unfold stride; lia).
  exists (Z.to_nat (p / stride)).
  assert (Hq : 0 <= p / stride) by (apply Z.div_pos; lia).
  assert (Hw : win_start chunkSize overlap (Z.to_nat (p / stride))
               = stride * (p / stride))
    by (unfold win_start; fold stride; lia).
  pose proof (Z.mul_div_le p stride Hst) as Hle.
  pose proof (Z.mul_succ_div_gt p stride Hst) as Hgt.
  split.
  - apply in_range_iff. lia.
  - unfold win_end. rewrite Hw. unfold stride in *. lia.
Qed.

End Loop.

End ChunkerFacts.

Section ChunkerClaims.
Import GoInt Chunker.

(** C10. Under [0 <= overlap < chunkSize], [chunkText] returns on every
    text: no panic, no endless loop.  Each iteration of the loop moves
    [start] forward by the positive stride [chunkSize - overlap], so that
    [len(text) - start] strictly decreases, and from any [start >= 0] the
    loop is over after at most [len(text) - start] iterations, with a
    result that no longer depends on the fuel. *)
Theorem chunkText_terminates (text : string) (chunkSize overlap : Z) :
  in_memory text ->
  0 <= overlap < chunkSize ->
  (exists chunks, chunkText text chunkSize overlap = Done chunks) /\
  (chunkSize < len text ->
   (forall start, 0 <= start < len text ->
      next_start chunkSize overlap start = start + (chunkSize - overlap) /\
      (Z.to_nat (len text - next_start chunkSize overlap start)
       < Z.to_nat (len text - start))%nat) /\
   (forall start acc,
      0 <= start ->
      exists chunks, forall fuel,
        (Z.to_nat (len text - start) <= fuel)%nat ->
        chunkLoop fuel text chunkSize overlap start acc = Done chunks)).
Proof.
  intros Hmem Hpre. split.
  - destruct (Z_le_gt_dec (len text) chunkSize) as [Hs|Hl].
    + exists [text]. unfold chunkText.
      destruct (Z.leb_spec (len text) chunkSize); [reflexivity | lia].
    + eexists. apply chunkText_long; [assumption | assumption | lia].
  - intros Hlong. split.
    + intros start Hs.
      rewrite (next_start_advance text chunkSize overlap Hmem Hpre Hlong start Hs).
      split; [reflexivity | lia].
    + intros start acc H0.
      apply (chunkLoop_total text chunkSize overlap Hmem Hpre Hlong
               (Z.to_nat (len text - start))); [exact H0 | lia].
Qed.

Lemma chunkText_terminates_witness :
  in_memory "hello world" /\ 0 <= 2 < 5 /\
  exists chunks, chunkText "hello world" 5 2 = Done chunks.
Proof.
  assert (Hm : in_memory "hello world") by (vm_compute; discriminate).
  assert (Hp : 0 <= 2 < 5) by lia.
  split; [exact Hm | split; [exact Hp |]].
  exact (proj1 (chunkText_terminates "hello world" 5 2 Hm Hp)).
Defined.

(** C1, as the code has it.  [chunkText] returns exactly one chunk when
    [len(text) <= chunkSize] and exactly
    [ceil(len(text) / (chunkSize - overlap))] chunks otherwise, the [i]-th
    one cut by the window starting at [i * (chunkSize - overlap)]; a text of
    2500 bytes with [chunkSize = 1000] and [overlap = 200] yields the four
    chunks [[0,1000)], [[800,1800)], [[1600,2500)] and [[2400,2500)]. *)
Theorem chunkText_count :
  (forall (text : string) (chunkSize overlap : Z),
     in_memory text ->
     0 <= overlap < chunkSize ->
     exists chunks,
       chunkText text chunkSize overlap = Done chunks /\
       Z.of_nat (List.length chunks)
       = (if len text <=? chunkSize then 1
          else ceil_div (len text) (chunkSize - overlap)) /\
       (chunkSize < len text ->
        forall i, (i < List.length chunks)%nat ->
          nth i chunks EmptyString = piece text chunkSize overlap i)) /\
  (forall text : string,
     len text = 2500 ->
     chunkText text 1000 200
     = Done [bytes_of text 0 1000; bytes_of text 800 1800;
             bytes_of text 1600 2500; bytes_of text 2400 2500]).
Proof.
  split.
  - intros text chunkSize overlap Hmem Hpre.
    destruct (Z.leb_spec (len text) chunkSize) as [Hs|Hl].
    + exists [text]. unfold chunkText.
      destruct (Z.leb_spec (len text) chunkSize); [|lia].
      repeat split. intros; lia.
    + eexists. split; [apply chunkText_long; assumption|].
      rewrite length_map, length_seq.
      pose proof (len_nonneg text).
      split.
      * rewrite Z2Nat.id; [reflexivity|].
        apply ceil_div_nonneg; lia.
      * intros _ i Hi.
        rewrite (nth_indep _ EmptyString (piece text chunkSize overlap 0%nat))
          by (rewrite length_map, length_seq; exact Hi).
        rewrite (map_nth (piece text chunkSize overlap)).
        rewrite seq_nth by exact Hi. reflexivity.
  - intros text Hlen.
    rewrite chunkText_long; unfold in_memory, max_len; try lia.
    unfold piece, win_start, win_end. rewrite Hlen. reflexivity.
Qed.

Lemma chunkText_count_witness :
  in_memory "hello world" /\ 0 <= 2 < 5 /\
  exists chunks,
    chunkText "hello world" 5 2 = Done chunks /\
    Z.of_nat (List.length chunks) = 4.
Proof.
  assert (Hm : in_memory "hello world") by (vm_compute; discriminate).
  assert (Hp : 0 <= 2 < 5) by lia.
  split; [exact Hm | split; [exact Hp |]].
  destruct (proj1 chunkText_count "hello world" 5 2 Hm Hp)
    as [chunks [Hrun [Hcount _]]].
  exists chunks. split; [exact Hrun | exact Hcount].
Defined.

(** C1 as stated fails on the code: for 2500 bytes, [chunkSize = 1000] and
    [overlap = 200] the formula [ceil((L - overlap) / (chunkSize - overlap))]
    gives 3, while the loop, which runs as long as [start < len(text)],
    also emits the window [[2400,2500)] and returns 4 chunks. *)
Lemma chunkText_count_counterexample :
  let text := replicate 2500 "a"%char in
  len text = 2500 /\
  ceil_div (len text - 200) (1000 - 200) = 3 /\
  chunkText text 1000 200
  = Done [bytes_of text 0 1000; bytes_of text 800 1800;
          bytes_of text 1600 2500; bytes_of text 2400 2500] /\
  ~ (exists chunks,
       chunkText text 1000 200 = Done chunks /\
       Z.of_nat (List.length chunks) = ceil_div (len text - 200) (1000 - 200)).
Proof.
  cbv zeta.
  assert (Hrun : chunkText (replicate 2500 "a"%char) 1000 200
                 = Done [bytes_of (replicate 2500 "a"%char) 0 1000;
                         bytes_of (replicate 2500 "a"%char) 800 1800;
                         bytes_of (replicate 2500 "a"%char) 1600 2500;
                         bytes_of (replicate 2500 "a"%char) 2400 2500])
    by (vm_compute; reflexivity).
  split; [vm_compute; reflexivity|].
  split; [vm_compute; reflexivity|].
  split; [exact Hrun|].
  intros [chunks [Hc Hn]]. rewrite Hrun in Hc.
  injection Hc as <-. vm_compute in Hn. discriminate.
Qed.

(** C2, as the code has it.  A text no longer than [chunkSize] comes back as
    one chunk, the text itself.  A longer text is cut into the windows
    [[i * stride, min(i * stride + chunkSize, len))]: none is empty, each
    chunk is as long as its window, every byte position lies in one of the
    windows (and the chunk holds that byte), and
    two consecutive windows share [min(overlap, len - start)] bytes, where
    [start] is the start of the later one; that is exactly [overlap] bytes
    whenever the earlier window is not clipped at the end of the text. *)
Theorem chunkText_coverage (text : string) (chunkSize overlap : Z) :
  in_memory text ->
  0 <= overlap < chunkSize ->
  (len text <= chunkSize -> chunkText text chunkSize overlap = Done [text]) /\
  (chunkSize < len text ->
   exists chunks,
     chunkText text chunkSize overlap = Done chunks /\
     (forall i, (i < List.length chunks)%nat ->
        nth i chunks EmptyString = piece text chunkSize overlap i /\
        0 <= win_start chunkSize overlap i < win_end text chunkSize overlap i /\
        win_end text chunkSize overlap i <= len text /\
        len (nth i chunks EmptyString)
        = win_end text chunkSize overlap i - win_start chunkSize overlap i) /\
     (forall p, 0 <= p < len text ->
        exists i, (i < List.length chunks)%nat /\
          win_start chunkSize overlap i <= p < win_end text chunkSize overlap i /\
          get (Z.to_nat (p - win_start chunkSize overlap i))
              (nth i chunks EmptyString)
          = get (Z.to_nat p) text) /\
     (forall i, (S i < List.length chunks)%nat ->
        common (win_start chunkSize overlap i) (win_end text chunkSize overlap i)
               (win_start chunkSize overlap (S i))
               (win_end text chunkSize overlap (S i))
        = Z.min overlap (len text - win_start chunkSize overlap (S i)) /\
        (win_start chunkSize overlap i + chunkSize <= len text ->
         common (win_start chunkSize overlap i) (win_end text chunkSize overlap i)
                (win_start chunkSize overlap (S i))
                (win_end text chunkSize overlap (S i))
         = overlap))).
Proof.
  intros Hmem Hpre. split.
  - intros Hs. unfold chunkText.
    destruct (Z.leb_spec (len text) chunkSize); [reflexivity | lia].
  - intros Hlong.
    pose proof (chunkText_long text chunkSize overlap Hmem Hpre Hlong) as Hrun.
    set (count := Z.to_nat (ceil_div (len text) (chunkSize - overlap))) in *.
    exists (map (piece text chunkSize overlap) (seq 0 count)).
    assert (Hlen : List.length (map (piece text chunkSize overlap) (seq 0 count))
                   = count) by (rewrite length_map, length_seq; reflexivity).
    assert (Hnth : forall i, (i < count)%nat ->
              nth i (map (piece text chunkSize overlap) (seq 0 count)) EmptyString
              = piece text chunkSize overlap i).
    { intros i Hi.
      rewrite (nth_indep _ EmptyString (piece text chunkSize overlap 0%nat))
        by (rewrite Hlen; exact Hi).
      rewrite (map_nth (piece text chunkSize overlap)).
      rewrite seq_nth by exact Hi. reflexivity. }
    assert (Hin : forall i, (i < count)%nat ->
              win_start chunkSize overlap i < len text)
      by (intros i Hi; apply (in_range_iff text chunkSize overlap Hpre i); exact Hi).
    rewrite Hlen. split; [exact Hrun|]. split; [|split].
    + intros i Hi.
      pose proof (Hin i Hi). pose proof (win_start_nonneg chunkSize overlap i Hpre).
      split; [apply Hnth; exact Hi|].
      split; [unfold win_end; lia|]. split; [unfold win_end; lia|].
      rewrite Hnth by exact Hi. unfold piece, bytes_of, len.
      rewrite substring_length; unfold win_end, len in *; lia.
    + intros p Hp.
      destruct (covered text chunkSize overlap Hpre p Hp) as [i [Hi Hw]].
      fold count in Hi. exists i. split; [exact Hi|]. split; [exact Hw|].
      rewrite Hnth by exact Hi. unfold piece, bytes_of.
      pose proof (win_start_nonneg chunkSize overlap i Hpre).
      rewrite substring_correct1 by lia.
      f_equal. lia.
    + intros i Hi.
      pose proof (Hin (S i) Hi) as Hnext.
      pose proof (win_start_nonneg chunkSize overlap i Hpre).
      rewrite (win_start_succ chunkSize overlap i) in *.
      unfold common, win_end.
      rewrite (win_start_succ chunkSize overlap i).
      split; [lia | intros; lia].
Qed.

Lemma chunkText_coverage_witness :
  in_memory "hello world" /\ 0 <= 2 < 5 /\
  exists chunks,
    chunkText "hello world" 5 2 = Done chunks /\
    forall p, 0 <= p < len "hello world" ->
      exists i, (i < List.length chunks)%nat /\
        win_start 5 2 i <= p < win_end "hello world" 5 2 i.
Proof.
  assert (Hm : in_memory "hello world") by (vm_compute; discriminate).
  assert (Hp : 0 <= 2 < 5) by lia.
  assert (Hl : 5 < len "hello world") by (vm_compute; reflexivity).
  split; [exact Hm | split; [exact Hp |]].
  destruct (proj2 (chunkText_coverage "hello world" 5 2 Hm Hp) Hl)
    as [chunks [Hrun [_ [Hcov _]]]].
  exists chunks. split; [exact Hrun|].
  intros p Hpos. destruct (Hcov p Hpos) as [i [Hi [Hw _]]].
  exists i. split; [exact Hi | exact Hw].
Defined.

(** C2 as stated fails on the code: with 2500 bytes, [chunkSize = 1000] and
    [overlap = 200], the last two chunks are cut by [[1600,2500)] and
    [[2400,2500)]; they share 100 bytes, not 200, and the last chunk is
    itself only 100 bytes long. *)
Lemma chunkText_overlap_counterexample :
  let text := replicate 2500 "a"%char in
  exists c0 c1 c2 c3,
    chunkText text 1000 200 = Done [c0; c1; c2; c3] /\
    c2 = bytes_of text 1600 2500 /\
    c3 = bytes_of text 2400 2500 /\
    common 1600 2500 2400 2500 = 100 /\
    len c3 = 100 /\
    common (win_start 1000 200 2) (win_end text 1000 200 2)
           (win_start 1000 200 3) (win_end text 1000 200 3) <> 200.
Proof.
  cbv zeta.
  exists (bytes_of (replicate 2500 "a"%char) 0 1000),
         (bytes_of (replicate 2500 "a"%char) 800 1800),
         (bytes_of (replicate 2500 "a"%char) 1600 2500),
         (bytes_of (replicate 2500 "a"%char) 2400 2500).
  repeat split; try (vm_compute; reflexivity).
  vm_compute. discriminate.
Qed.

End ChunkerClaims.

(** ** The scanner *)

Section ScannerFacts.
Import Scanner.

Lemma walk_scanVisit n : forall path name files,
  walk scanVisit path name n files
  = (files ++ gathered path name n, option_map Errorf (first_failure n)).
Proof.
  induction n as [msg | m | readdir entries IH] using node_induction;
    intros path name files.
  - simpl. rewrite app_nil_r. reflexivity.
  - simpl. destruct (prefix "." name); simpl;
      [rewrite app_nil_r|]; reflexivity.
  - destruct readdir as [msg|].
    + simpl. rewrite app_nil_r. reflexivity.
    + cbn [walk scanVisit IsDir orb option_map]. 
      cbn [gathered first_failure].
      revert files.
      induction IH as [|[nm child] rest Hchild _ IHrest]; intros files.
      * rewrite app_nil_r. reflexivity.
      * simpl in Hchild.
        destruct child as [msg | m | rd es].
        -- simpl. rewrite app_nil_r. reflexivity.
        -- rewrite Hchild. cbn [first_failure option_map].
           rewrite IHrest, app_assoc. reflexivity.
        -- rewrite Hchild.
           destruct (first_failure (Dir rd es)) as [msg|];
             cbn [option_map is_dir negb is_SkipDir orb].
           ++ rewrite app_nil_r. reflexivity.
           ++ rewrite IHrest, app_assoc. reflexivity.
Qed.

Lemma scanDirectory_run directory name root :
  scanDirectory directory name root
  = (gathered directory name root, option_map Errorf (first_failure root)).
Proof.
  unfold scanDirectory, Walk. rewrite walk_scanVisit. simpl.
  destruct (first_failure root); reflexivity.
Qed.

Lemma gathered_located n : forall dir name p,
  In p (gathered dir name n) ->
  exists nm m, located dir name n p nm (File m) /\ prefix "." nm = false.
Proof.
  induction n as [msg | m | readdir entries IH] using node_induction;
    intros dir name p Hin.
  - destruct Hin.
  - simpl in Hin. destruct (prefix "." name) eqn:Hp; [destruct Hin|].
    destruct Hin as [<-|[]]. exists name, m. split; [constructor | exact Hp].
  - destruct readdir as [msg|]; [destruct Hin|].
    cbn [gathered] in Hin.
    induction IH as [|[nm child] rest Hchild _ IHrest]; [destruct Hin|].
    apply in_app_or in Hin. destruct Hin as [Hin|Hin].
    + destruct (Hchild _ _ _ Hin) as [nm' [m [Hloc Hp]]].
      exists nm', m. split; [|exact Hp].
      eapply located_below; [left; reflexivity | exact Hloc].
    + destruct (first_failure child); [destruct Hin|].
      destruct (IHrest Hin) as [nm' [m [Hloc Hp]]].
      exists nm', m. split; [|exact Hp].
      inversion Hloc; subst.
      eapply located_below; [right; eassumption | eassumption].
Qed.

Lemma located_gathered n : forall dir name p nm m,
  first_failure n = None ->
  located dir name n p nm (File m) -> prefix "." nm = false ->
  In p (gathered dir name n).
Proof.
  induction n as [msg | m0 | readdir entries IH] using node_induction;
    intros dir name p nm m Hff Hloc Hp.
  - discriminate.
  - inversion Hloc; subst. simpl. rewrite Hp. left. reflexivity.
  - inversion Hloc as [| ? ? ? nm0 child ? ? ? Hin Hsub]; subst.
    cbn [gathered first_failure] in *.
    clear Hloc.
    induction IH as [|[nm1 child1] rest Hchild _ IHrest]; [destruct Hin|].
    destruct (first_failure child1) eqn:Hc; [discriminate|].
    apply in_or_app. destruct Hin as [Heq|Hin].
    + inversion Heq; subst. left. eapply Hchild; eassumption.
    + right. apply IHrest; assumption.
Qed.

(** C4, as the code has it.  [scanDirectory] returns only paths of entries
    that are not directories and whose name does not begin with a dot.  It
    fails exactly when some entry of the tree, the root or any entry below
    it, cannot be read, with that entry's error; the walk stops there.  On a
    tree that can be read throughout it returns every such path. *)
Theorem scanDirectory_spec (directory name : string) (root : node) :
  let '(files, err) := scanDirectory directory name root in
  (forall p, In p files ->
     exists nm m, located directory name root p nm (File m) /\
                  prefix "." nm = false) /\
  err = option_map Errorf (first_failure root) /\
  (first_failure root = None ->
   forall p nm m,
     located directory name root p nm (File m) -> prefix "." nm = false ->
     In p files).
Proof.
  rewrite scanDirectory_run. split; [|split].
  - intros p Hin. eapply gathered_located; exact Hin.
  - reflexivity.
  - intros Hff p nm m Hloc Hp. eapply located_gathered; eassumption.
Qed.

(** C4 as stated fails on the code.  A directory that cannot be listed,
    below a root that can, makes the whole scan fail, and the entries after
    it are never visited; and a symbolic link, which is not a regular file,
    is returned. *)
Lemma scanDirectory_counterexample :
  scanDirectory "data" "data"
    (Dir None [("a.txt", File Regular);
               ("locked", Dir (Some "permission denied") []);
               ("b.txt", File Regular)])
  = (["data/a.txt"], Some (Errorf "permission denied")) /\
  scanDirectory "data" "data" (Dir None [("link", File Symlink)])
  = (["data/link"], None).
Proof. split; reflexivity. Qed.

End ScannerFacts.

(** ** The hasher *)

Section HasherFacts.
Import Hasher.

Lemma append_empty_r (s : string) : (s ++ "")%string = s.
Proof. induction s as [|c s IH]; simpl; [|rewrite IH]; reflexivity. Qed.

Lemma append_assoc (s t u : string) :
  ((s ++ t) ++ u)%string = (s ++ (t ++ u))%string.
Proof. induction s as [|c s IH]; simpl; [|rewrite IH]; reflexivity. Qed.

Lemma Copy_content (r : reads) : forall (h : digest) (c : string),
  content r = Some c ->
  Copy h r = ({| written := written h ++ c |}, None).
Proof.
  induction r as [|msg|data rest IH]; intros h c Hc; simpl in *.
  - injection Hc as <-. rewrite append_empty_r. destruct h; reflexivity.
  - discriminate.
  - destruct (content rest) as [c'|]; [|discriminate].
    injection Hc as <-. rewrite (IH _ c' eq_refl). simpl.
    rewrite append_assoc. reflexivity.
Qed.

Lemma hex_length (bytes : list Z) :
  String.length (hex bytes) = (2 * List.length bytes)%nat.
Proof. induction bytes as [|b rest IH]; simpl; [|rewrite IH]; lia. Qed.

Lemma hex_digit_lower (d : Z) : 0 <= d < 16 -> is_lower_hex (hex_digit d) = true.
Proof.
  intros H.
  assert (Hd : exists n, (n < 16)%nat /\ d = Z.of_nat n)
    by (exists (Z.to_nat d); lia).
  destruct Hd as [n [Hn ->]].
  do 16 (destruct n as [|n]; [reflexivity|]). lia.
Qed.

Lemma hex_lower (bytes : list Z) :
  Forall (fun b => 0 <= b < 256) bytes ->
  forallb is_lower_hex (list_ascii_of_string (hex bytes)) = true.
Proof.
  induction 1 as [|b rest Hb _ IH]; [reflexivity|].
  cbn [hex list_ascii_of_string forallb].
  rewrite IH, !hex_digit_lower; [reflexivity | |].
  - apply Z.mod_pos_bound. lia.
  - split; [apply Z.div_pos; lia | apply Z.div_lt_upper_bound; lia].
Qed.

Lemma be32_bytes (x : Z) : Forall (fun b => 0 <= b < 256) (SHA256.be32 x).
Proof.
  unfold SHA256.be32. repeat constructor; apply Z.mod_pos_bound; lia.
Qed.

Lemma Sum256_bytes (msg : string) :
  List.length (SHA256.Sum256 msg) = 32%nat /\
  Forall (fun b => 0 <= b < 256) (SHA256.Sum256 msg).
Proof.
  unfold SHA256.Sum256, SHA256.output. split; [reflexivity|].
  repeat (apply Forall_app; split); apply be32_bytes.
Qed.

(** C8. When the file can be read to its end, [calculateFileHash] returns
    the tag [sha256:] followed by 64 lower-case hexadecimal digits, the
    SHA-256 digest of the file's whole content, however the reads cut that
    content into blocks; two paths holding the same bytes get the same
    hash. *)
Theorem calculateFileHash_content (fs : filesystem) :
  (forall path file bytes,
     fs path = Ok file -> content file = Some bytes ->
     calculateFileHash fs path
     = Ok ("sha256:" ++ hex (SHA256.Sum256 bytes))%string /\
     String.length (hex (SHA256.Sum256 bytes)) = 64%nat /\
     forallb is_lower_hex (list_ascii_of_string (hex (SHA256.Sum256 bytes)))
     = true) /\
  (forall path1 path2 file1 file2 bytes,
     fs path1 = Ok file1 -> fs path2 = Ok file2 ->
     content file1 = Some bytes -> content file2 = Some bytes ->
     calculateFileHash fs path1 = calculateFileHash fs path2).
Proof.
  assert (Hrun : forall path file bytes,
            fs path = Ok file -> content file = Some bytes ->
            calculateFileHash fs path
            = Ok ("sha256:" ++ hex (SHA256.Sum256 bytes))%string).
  { intros path file bytes Hopen Hc. unfold calculateFileHash.
    rewrite Hopen, (Copy_content file New bytes Hc). reflexivity. }
  split.
  - intros path file bytes Hopen Hc.
    destruct (Sum256_bytes bytes) as [Hlen Hb].
    split; [eapply Hrun; eassumption|]. split.
    + rewrite hex_length, Hlen. reflexivity.
    + apply hex_lower. exact Hb.
  - intros path1 path2 file1 file2 bytes H1 H2 Hc1 Hc2.
    rewrite (Hrun _ _ _ H1 Hc1), (Hrun _ _ _ H2 Hc2). reflexivity.
Qed.

(** The derived constants are the published ones. *)
Example K_published :
  List.length SHA256.K = 64%nat /\
  firstn 4 SHA256.K = [0x428a2f98; 0x71374491; 0xb5c0fbcf; 0xe9b5dba5] /\
  nth 63 SHA256.K 0 = 0xc67178f2 /\
  SHA256.sa SHA256.init = 0x6a09e667 /\ SHA256.sh SHA256.init = 0x5be0cd19.
Proof. repeat split. Qed.

(** The digests of two standard test messages. *)
Example Sum256_abc :
  hex (SHA256.Sum256 "abc")
  = "ba7816bf8f01cfea414140de5dae2223b00361a396177a9cb410ff61f20015ad".
Proof. vm_compute. reflexivity. Qed.

Example Sum256_two_blocks :
  hex (SHA256.Sum256
         "abcdbcdecdefdefgefghfghighijhijkijkljklmklmnlmnomnopnopq")
  = "248d6a61d20638b8e5c026930c3e6039a33ce45964ff2167f6ecedd419db06c1".
Proof. vm_compute. reflexivity. Qed.

End HasherFacts.

(** ** Computations *)

Section MonadFacts.
Import Effects.
Context {W : Type}.

Lemma bind_after {A B : Type} (m : @M W A) (f : A -> M B) w a w1 t1 :
  m w = Done (a, w1, t1) -> bind m f w = after t1 (f a w1).
Proof. intros H. unfold bind, after. rewrite H. reflexivity. Qed.

Lemma bind_Done {A B : Type} (m : @M W A) (f : A -> M B) w a w1 t1 b w2 t2 :
  m w = Done (a, w1, t1) -> f a w1 = Done (b, w2, t2) ->
  bind m f w = Done (b, w2, t1 ++ t2).
Proof. intros H1 H2. rewrite (bind_after _ _ _ _ _ _ H1), H2. reflexivity. Qed.

End MonadFacts.

(** ** The Pinecone adapter *)

Section PineconeFacts.
Import GoInt Pinecone Effects PineconeClient.

Lemma writes_app t1 t2 : writes (t1 ++ t2) = writes t1 ++ writes t2.
Proof.
  induction t1 as [|e t1 IH]; [reflexivity|].
  destruct e as [lvl msg fields | c ok]; simpl; [exact IH|].
  destruct c; simpl; rewrite ?IH; reflexivity.
Qed.

Lemma firstn_plus {A : Type} (a b : nat) : forall l : list A,
  firstn (a + b) l = firstn a l ++ firstn b (skipn a l).
Proof.
  induction a as [|a IH]; intros l; [reflexivity|].
  destruct l as [|x l]; simpl; [destruct b; reflexivity|].
  rewrite IH. reflexivity.
Qed.

Lemma firstn_seq_le (j : nat) : forall a n : nat,
  (j <= n)%nat -> firstn j (seq a n) = seq a j.
Proof.
  induction j as [|j IH]; intros a n Hle; [reflexivity|].
  destruct n as [|n]; [lia|]. simpl. rewrite IH by lia. reflexivity.
Qed.

Lemma llen_nonneg {A : Type} (l : list A) : 0 <= llen l.
Proof. unfold llen. lia. Qed.

Section Partition.
Variable vectors : list Vector.

Lemma batch_in_range (k : nat) :
  (k < batch_count vectors)%nat <-> 100 * Z.of_nat k < llen vectors.
Proof.
  unfold batch_count.
  pose proof (llen_nonneg vectors) as Hn.
  pose proof (ceil_div_nonneg (llen vectors) 100 Hn ltac:(lia)) as Hc.
  pose proof (lt_ceil_div (llen vectors) 100 (Z.of_nat k) ltac:(lia)) as H.
  lia.
Qed.

Lemma concat_batches_from (m : nat) : forall k : nat,
  List.concat (map (batch_at vectors) (seq k m))
  = firstn (100 * m) (skipn (100 * k) vectors).
Proof.
  induction m as [|m IH]; intros k.
  - simpl. reflexivity.
  - cbn [seq map List.concat]. rewrite IH. unfold batch_at.
    replace (100 * S m)%nat with (100 + 100 * m)%nat by lia.
    rewrite firstn_plus, skipn_skipn.
    replace (100 + 100 * k)%nat with (100 * S k)%nat by lia.
    reflexivity.
Qed.

Lemma batches_partition :
  List.concat (batches vectors) = vectors /\
  Forall (fun b => (1 <= List.length b <= 100)%nat) (batches vectors) /\
  Z.of_nat (List.length (batches vectors)) = ceil_div (llen vectors) 100.
Proof.
  unfold batches. split; [|split].
  - rewrite concat_batches_from. simpl skipn.
    apply firstn_all2.
    assert (H : ~ (batch_count vectors < batch_count vectors)%nat) by lia.
    rewrite batch_in_range in H. unfold llen in H. lia.
  - apply Forall_forall. intros b Hb.
    apply in_map_iff in Hb. destruct Hb as [k [<- Hk]].
    apply in_seq in Hk. assert (Hlt : (k < batch_count vectors)%nat) by lia.
    apply batch_in_range in Hlt. unfold llen in Hlt.
    unfold batch_at. rewrite length_firstn, length_skipn. lia.
  - rewrite length_map, length_seq. unfold batch_count.
    rewrite Z2Nat.id; [reflexivity|].
    apply ceil_div_nonneg; [apply llen_nonneg | lia].
Qed.

End Partition.

Section Upsert.
Context {W : Type}.
Variable config : PineconeConfig.
Variable upsert : W -> UpsertRequest -> option error * W.
Variable vectors : list Vector.
Hypothesis Hmem : llen vectors <= max_len.

Lemma slice_batch (k : nat) :
  100 * Z.of_nat k < llen vectors ->
  let i := 100 * Z.of_nat k in
  let e := add i batchSize in
  slice vectors i (if e >? llen vectors then llen vectors else e)
  = Done (batch_at vectors k).
Proof.
  intros Hlt i e. unfold max_len in Hmem.
  assert (He : e = i + 100).
  { unfold e, add, batchSize. apply wrap_small.
    unfold min_int, max_int. lia. }
  rewrite He. unfold slice.
  set (hi := if i + 100 >? llen vectors then llen vectors else i + 100).
  assert (Hhi : hi = Z.min (i + 100) (llen vectors))
    by (unfold hi; destruct (Z.gtb_spec (i + 100) (llen vectors)); lia).
  replace ((0 <=? i) && (i <=? hi) && (hi <=? llen vectors)) with true
    by (symmetry; rewrite !andb_true_iff, !Z.leb_le; lia).
  f_equal. unfold batch_at.
  replace (Z.to_nat i) with (100 * k)%nat by lia.
  set (l := skipn (100 * k) vectors).
  assert (Hl : List.length l = (List.length vectors - 100 * k)%nat)
    by (unfold l; apply length_skipn).
  replace (Z.to_nat (hi - i)) with (Nat.min 100 (List.length l))
    by (unfold llen in *; lia).
  rewrite <- firstn_firstn, firstn_all. reflexivity.
Qed.

Lemma upsertLoop_exit (fuel : nat) (i : Z) (w : W) :
  llen vectors <= i ->
  upsertLoop config upsert fuel vectors i w
  = Done (None, w, [Log InfoLevel "Successfully upserted vectors"
                        [("total", VInt (llen vectors))]]).
Proof.
  intros Hge.
  destruct fuel; cbn [upsertLoop];
    destruct (Z.ltb_spec i (llen vectors)); try lia; reflexivity.
Qed.

Lemma upsertLoop_run : forall (fuel k : nat) (w : W),
  (k <= batch_count vectors)%nat ->
  (batch_count vectors - k <= fuel)%nat ->
  exists r w' t flags,
    upsertLoop config upsert fuel vectors (100 * Z.of_nat k) w = Done (r, w', t) /\
    writes t = combine (map (batch_at vectors) (seq k (List.length flags))) flags /\
    w' = committed config upsert (map (batch_at vectors) (seq k (List.length flags))) w /\
    (k + List.length flags <= batch_count vectors)%nat /\
    match r with
    | None => flags = repeat true (batch_count vectors - k)
    | Some e => exists m e0,
        flags = repeat true m ++ [false] /\
        e = wrapf "failed to upsert batch" e0
    end.
Proof.
  induction fuel as [|fuel IH]; intros k w Hk Hf.
  - assert (k = batch_count vectors) by lia. subst k.
    assert (Hge : ~ 100 * Z.of_nat (batch_count vectors) < llen vectors)
      by (rewrite <- batch_in_range; lia).
    exists None, w, [Log InfoLevel "Successfully upserted vectors"
                         [("total", VInt (llen vectors))]], [].
    rewrite upsertLoop_exit by lia.
    rewrite Nat.sub_diag. repeat split. simpl. lia.
  - destruct (Z_lt_le_dec (100 * Z.of_nat k) (llen vectors)) as [Hlt|Hge].
    + assert (Hkc : (k < batch_count vectors)%nat) by (apply batch_in_range; exact Hlt).
      pose proof (slice_batch k Hlt) as Hs. cbv zeta in Hs.
      cbn [upsertLoop].
      destruct (Z.ltb_spec (100 * Z.of_nat k) (llen vectors)); [|lia].
      unfold bind at 1. rewrite Hs. cbn [lift].
      unfold bind at 1. unfold upsertBatch, ask.
      set (req := {| Vectors := batch_at vectors k;
                     Namespace := if UseNamespaces config then "default" else "" |}).
      destruct (upsert w req) as [[e0|] w1] eqn:Hup.
      * exists (Some (wrapf "failed to upsert batch" e0)), w1,
          [Called (PineconeUpsert req) false], [false].
        repeat split.
        -- unfold committed. simpl. fold req. rewrite Hup. reflexivity.
        -- simpl. lia.
        -- exists 0%nat, e0. split; reflexivity.
      * unfold max_len in Hmem.
        assert (Hnext : add (100 * Z.of_nat k) batchSize = 100 * Z.of_nat (S k)).
        { unfold add, batchSize. rewrite wrap_small; [lia|].
          unfold min_int, max_int. lia. }
        rewrite Hnext.
        destruct (IH (S k) w1 ltac:(lia) ltac:(lia))
          as [r [w' [t [flags [Hrun [Hw [Hc [Hlen Hr]]]]]]]].
        exists r, w', ([] ++ [Called (PineconeUpsert req) true]
                         ++ Log DebugLevel "Upserted batch"
                              [("from", VInt (100 * Z.of_nat k));
                               ("to", VInt (if 100 * Z.of_nat (S k) >? llen vectors
                                            then llen vectors
                                            else 100 * Z.of_nat (S k)))] :: t),
          (true :: flags).
        split; [|split; [|split; [|split]]].
        -- cbn [is_nil]. unfold bind, log. rewrite Hrun. reflexivity.
        -- cbn [app writes]. fold req. cbn [List.length seq map combine].
           rewrite Hw. reflexivity.
        -- cbn [List.length seq map]. unfold committed in *. cbn [fold_left].
           fold req. rewrite Hup. exact Hc.
        -- simpl. lia.
        -- destruct r as [e|].
           ++ destruct Hr as [m [e1 [-> ->]]].
              exists (S m), e1. split; reflexivity.
           ++ rewrite Hr. replace (batch_count vectors - k)%nat
                with (S (batch_count vectors - S k)) by lia. reflexivity.
    + assert (Hkc : ~ (k < batch_count vectors)%nat) by (rewrite batch_in_range; lia).
      exists None, w, [Log InfoLevel "Successfully upserted vectors"
                           [("total", VInt (llen vectors))]], [].
      rewrite upsertLoop_exit by lia.
      replace (batch_count vectors - k)%nat with 0%nat by lia.
      repeat split. simpl. lia.
Qed.

End Upsert.

Lemma UpsertVectors_run {W : Type} (config : PineconeConfig)
      (upsert : W -> UpsertRequest -> option error * W)
      (vectors : list Vector) (w : W) :
  llen vectors <= max_len ->
  exists r w' t flags,
    UpsertVectors config upsert vectors w = Done (r, w', t) /\
    writes t = combine (batches vectors) flags /\
    (List.length flags <= List.length (batches vectors))%nat /\
    w' = committed config upsert
                   (firstn (List.length flags) (batches vectors)) w /\
    match r with
    | None => flags = repeat true (List.length (batches vectors))
    | Some e => exists m e0,
        flags = repeat true m ++ [false] /\
        e = wrapf "failed to upsert batch" e0
    end.
Proof.
  intros Hmem.
  assert (Hcount : List.length (batches vectors) = batch_count vectors)
    by (unfold batches; rewrite length_map, length_seq; reflexivity).
  assert (Hle : (batch_count vectors <= List.length vectors)%nat).
  { unfold batch_count.
    pose proof (ceil_div_le_self (llen vectors) 100
                  (llen_nonneg vectors) ltac:(lia)) as H.
    unfold llen in *. lia. }
  destruct (upsertLoop_run config upsert vectors Hmem
              (S (List.length vectors)) 0 w ltac:(lia) ltac:(lia))
    as [r [w' [t [flags [Hrun [Hw [Hc [Hlen Hr]]]]]]]].
  change (100 * Z.of_nat 0) with 0 in Hrun.
  assert (Hpre : map (batch_at vectors) (seq 0 (List.length flags))
                 = firstn (List.length flags) (batches vectors)).
  { unfold batches. rewrite firstn_map, firstn_seq_le by lia. reflexivity. }
  rewrite Hpre in Hw, Hc. rewrite <- combine_firstn_r in Hw.
  rewrite Nat.sub_0_r, <- Hcount in Hr.
  unfold UpsertVectors.
  destruct (Z.eqb_spec (llen vectors) 0) as [Hz|Hnz].
  - exists None, w, [], [].
    assert (Hb : batches vectors = []).
    { unfold batches, batch_count. rewrite Hz. reflexivity. }
    rewrite Hb. repeat split. simpl. lia.
  - exists r, w', (Log DebugLevel "Upserting vectors"
                       [("count", VInt (llen vectors))] :: t), flags.
    split; [|split; [|split; [|split]]].
    + unfold bind at 1. cbn [log]. rewrite Hrun. reflexivity.
    + cbn [writes]. exact Hw.
    + lia.
    + exact Hc.
    + exact Hr.
Qed.

(** C9. [UpsertVectors] cuts its input into consecutive runs of at most 100
    vectors, in order, none of them empty, [ceil(n / 100)] of them, and
    sends them one write each, in order; nothing is sent for an empty
    input.  When a write fails, that write is the last one sent and the
    error comes back wrapped; the writes before it all succeeded and what
    they changed outside stays. *)
Theorem UpsertVectors_batches {W : Type} (config : PineconeConfig)
        (upsert : W -> UpsertRequest -> option error * W)
        (vectors : list Vector) (w : W) :
  llen vectors <= max_len ->
  (List.concat (batches vectors) = vectors /\
   Forall (fun b => (1 <= List.length b <= 100)%nat) (batches vectors) /\
   Z.of_nat (List.length (batches vectors)) = ceil_div (llen vectors) 100) /\
  exists r w' t flags,
    UpsertVectors config upsert vectors w = Done (r, w', t) /\
    writes t = combine (batches vectors) flags /\
    (List.length flags <= List.length (batches vectors))%nat /\
    w' = committed config upsert
                   (firstn (List.length flags) (batches vectors)) w /\
    match r with
    | None => flags = repeat true (List.length (batches vectors))
    | Some e => exists m e0,
        flags = repeat true m ++ [false] /\
        e = wrapf "failed to upsert batch" e0
    end.
Proof.
  intros Hmem. split; [apply batches_partition|].
  apply UpsertVectors_run. exact Hmem.
Qed.

Lemma UpsertVectors_batches_witness :
  let v := {| ID := "v"; Values := []; Metadata := [] |} in
  let config := {| Dimension := 2; UseNamespaces := false |} in
  let upsert := fun (w : unit) (_ : UpsertRequest) => (@None error, w) in
  llen (repeat v 250) <= max_len /\
  List.length (batches (repeat v 250)) = 3%nat /\
  exists r w' t flags,
    UpsertVectors config upsert (repeat v 250) tt = Done (r, w', t) /\
    writes t = combine (batches (repeat v 250)) flags.
Proof.
  intros v config upsert.
  assert (Hm : llen (repeat v 250) <= max_len) by (vm_compute; discriminate).
  split; [exact Hm | split; [vm_compute; reflexivity|]].
  destruct (proj2 (UpsertVectors_batches config upsert (repeat v 250) tt Hm))
    as [r [w' [t [flags [Hrun [Hw _]]]]]].
  exists r, w', t, flags. split; [exact Hrun | exact Hw].
Defined.

End PineconeFacts.

(** ** The orchestrator *)

Section OrchestratorFacts.
Import GoInt Pinecone Effects PineconeClient Orchestrator.
Context {W : Type}.

Lemma CheckDocumentExists_run (config : PineconeConfig)
      (query : W -> QueryRequest -> result (list Match) * W)
      (fileHash : string) (w w1 : W) (r : result (list Match)) :
  0 <= Dimension config ->
  query w (exists_request config fileHash) = (r, w1) ->
  exists t,
    CheckDocumentExists config query fileHash w
    = Done ((match r with Ok (_ :: _) => true | _ => false end, None), w1, t) /\
    Orchestrator.calls t = [PineconeQuery (exists_request config fileHash)] /\
    (forall e, r = Fail e ->
       In (Log WarnLevel "Failed to check document existence"
               [("error", VError e)]) t).
Proof.
  intros Hdim Hq.
  unfold CheckDocumentExists, QueryVectors, make.
  destruct (Z.ltb_spec (Dimension config) 0) as [|_]; [lia|].
  unfold bind, log, lift, ask. fold (exists_request config fileHash).
  rewrite Hq.
  destruct r as [matches|e].
  - eexists. split; [|split].
    + cbn. destruct matches; reflexivity.
    + reflexivity.
    + intros e He. discriminate.
  - eexists. split; [|split].
    + cbn. reflexivity.
    + reflexivity.
    + intros e' He. injection He as <-. cbn. auto.
Qed.

Variable dp : @DocumentProcessor W.

Lemma alreadyIndexed_run (fileHash : string) (w w1 : W)
      (r : result (list Match)) :
  SkipExistingDocuments (config dp) = true ->
  0 <= Dimension (PineconeCfg (config dp)) ->
  pineconeQuery dp w (exists_request (PineconeCfg (config dp)) fileHash)
  = (r, w1) ->
  exists t,
    alreadyIndexed dp fileHash w
    = Done (match r with Ok (_ :: _) => true | _ => false end, w1, t) /\
    Orchestrator.calls t
    = [PineconeQuery (exists_request (PineconeCfg (config dp)) fileHash)] /\
    (forall e, r = Fail e ->
       In (Log WarnLevel "Failed to check document existence"
               [("error", VError e)]) t).
Proof.
  intros Hskip Hdim Hq.
  destruct (CheckDocumentExists_run _ _ fileHash w w1 r Hdim Hq)
    as [t [Hrun [Hcalls Hwarn]]].
  exists t. unfold alreadyIndexed. rewrite Hskip.
  unfold bind. rewrite Hrun. cbn. rewrite app_nil_r. auto.
Qed.

Example Contains_wrapped :
  Contains "failed to run: file already indexed" "already indexed" = true /\
  Contains "failed to calculate hash: permission denied" "already indexed"
  = false.
Proof. split; reflexivity. Qed.

Lemma processFiles_step (total i : Z) (file : string) (rest : list string)
      (c : counters) (w w1 : W) (r : option error) (t : list event) :
  processFile dp file w = Done (r, w1, t) ->
  processFiles dp total i (file :: rest) c w
  = after (opening total i file :: t ++ closing file r)
          (processFiles dp total (i + 1) rest (count (verdict_of r) c) w1).
Proof.
  intros Hrun. cbn [processFiles]. unfold bind at 1. cbn [log].
  unfold bind at 1. rewrite Hrun.
  unfold verdict_of, closing, count.
  destruct r as [err|].
  - destruct (Contains (Error err) "already indexed"); unfold bind, log;
      destruct (processFiles dp total (i + 1) rest _ w1) as [[[c' w'] t']| |];
      cbn; try reflexivity;
      rewrite <- !app_assoc; reflexivity.
  - destruct (processFiles dp total (i + 1) rest _ w1) as [[[c' w'] t']| |];
      cbn; try reflexivity.
    rewrite app_nil_r. reflexivity.
Qed.


(** C6. With the skip flag set, when the query behind the existence check
    fails, a warning is logged and [processFile] goes on with extraction and
    all that follows; it does so from the same point, and returns the same
    result, as when the query answers that nothing matches.  In both cases
    the only calls made before are the read of the file and the query. *)
Theorem existence_check_failure (filePath fileHash : string) (w w1 : W) :
  SkipExistingDocuments (config dp) = true ->
  0 <= Dimension (PineconeCfg (config dp)) ->
  Hasher.calculateFileHash (files dp w) filePath = Ok fileHash ->
  (forall e,
     pineconeQuery dp w (exists_request (PineconeCfg (config dp)) fileHash)
     = (Fail e, w1) ->
     exists t,
       processFile dp filePath w = after t (indexFile dp filePath fileHash w1) /\
       Orchestrator.calls t
       = [OpenFile filePath;
          PineconeQuery (exists_request (PineconeCfg (config dp)) fileHash)] /\
       In (Log WarnLevel "Failed to check document existence"
               [("error", VError e)]) t) /\
  (pineconeQuery dp w (exists_request (PineconeCfg (config dp)) fileHash)
   = (Ok [], w1) ->
   exists t,
     processFile dp filePath w = after t (indexFile dp filePath fileHash w1) /\
     Orchestrator.calls t
     = [OpenFile filePath;
        PineconeQuery (exists_request (PineconeCfg (config dp)) fileHash)]).
Proof.
  intros Hskip Hdim Hhash.
  assert (Hgo : forall t,
            alreadyIndexed dp fileHash w = Done (false, w1, t) ->
            processFile dp filePath w
            = after (Called (OpenFile filePath) true :: t)
                    (indexFile dp filePath fileHash w1)).
  { intros t Hrun.
    unfold processFile, calculateFileHash, observe, ask.
    unfold bind at 1. rewrite Hhash. unfold bind at 1. rewrite Hrun.
    destruct (indexFile dp filePath fileHash w1) as [[[r' w'] t']| |];
      reflexivity. }
  split.
  - intros e Hq.
    destruct (alreadyIndexed_run fileHash w w1 _ Hskip Hdim Hq)
      as [t [Hrun [Hcalls Hwarn]]].
    exists (Called (OpenFile filePath) true :: t).
    split; [apply Hgo; exact Hrun|].
    split; [cbn; rewrite Hcalls; reflexivity|].
    right. apply Hwarn. reflexivity.
  - intros Hq.
    destruct (alreadyIndexed_run fileHash w w1 _ Hskip Hdim Hq)
      as [t [Hrun [Hcalls _]]].
    exists (Called (OpenFile filePath) true :: t).
    split; [apply Hgo; exact Hrun|].
    cbn. rewrite Hcalls. reflexivity.
Qed.

Lemma embedChunks_run (docID filePath fileHash summary : string) (total : Z) :
  forall (chunks : list string) (i : Z) (vectors : list Vector) (w : W),
  exists vs w1 t,
    embedChunks dp docID filePath fileHash summary total i chunks vectors w
    = Done (vectors ++ vs, w1, t) /\
    map fst (embeds t) = chunks /\
    map described vs = map Some (kept i (embeds t)) /\
    writes t = [] /\
    (List.length vs <= List.length chunks)%nat.
Proof.
  induction chunks as [|chunk rest IH]; intros i vectors w.
  - exists [], w, []. cbn. rewrite app_nil_r. repeat split. lia.
  - cbn [embedChunks]. unfold bind at 1. unfold ask at 1.
    destruct (azureEmbedding dp w chunk) as [[emb|embErr] w1].
    + unfold bind at 1. unfold ask at 1.
      destruct (timeNowUnix dp w1) as [now w2].
      destruct (IH (i + 1)
                  (vectors ++ [newVector dp docID filePath fileHash summary
                                         chunk i total emb now]) w2)
        as [vs [w3 [t [Hrun [Hsent [Hkept [Hwr Hlen]]]]]]].
      rewrite Hrun.
      exists (newVector dp docID filePath fileHash summary chunk i total emb now
                :: vs), w3,
        ([Called (GenerateEmbedding chunk) (is_ok (Ok emb))]
           ++ [Called TimeNow true] ++ t).
      split; [rewrite <- app_assoc; reflexivity|].
      cbn. rewrite Hsent, Hkept, Hwr. repeat split. lia.
    + unfold bind at 1. cbn [log].
      destruct (IH (i + 1) vectors w1)
        as [vs [w3 [t [Hrun [Hsent [Hkept [Hwr Hlen]]]]]]].
      rewrite Hrun.
      exists vs, w3,
        ([Called (GenerateEmbedding chunk) (is_ok (@Fail (list float32) embErr))]
           ++ [Log ErrorLevel "Failed to generate embedding"
                   [("chunk", VInt i); ("error", VError embErr)]] ++ t).
      split; [reflexivity|].
      cbn. rewrite Hsent, Hkept, Hwr. repeat split. lia.
Qed.

Lemma store_run (filePath : string) (vectors : list Vector) (w : W) :
  llen vectors <= max_len ->
  exists r w' t flags,
    store dp filePath vectors w = Done (r, w', t) /\
    writes t = combine (batches vectors) flags /\
    (r = None -> flags = repeat true (List.length (batches vectors))) /\
    (forall e, r = Some e ->
       exists e0, e = wrapf "failed to store in Pinecone"
                            (wrapf "failed to upsert batch" e0)) /\
    (vectors = [] -> r = None /\ t = []).
Proof.
  intros Hmem. unfold store.
  destruct (Z.ltb_spec 0 (llen vectors)) as [Hpos|Hzero].
  - destruct (UpsertVectors_run (PineconeCfg (config dp))
                (pineconeUpsert dp) vectors w Hmem)
      as [r [w' [t [flags [Hrun [Hw [_ [_ Hr]]]]]]]].
    unfold bind. rewrite Hrun.
    assert (Hne : vectors <> [])
      by (intros ->; unfold llen in Hpos; simpl in Hpos; lia).
    destruct r as [e|].
    + exists (Some (wrapf "failed to store in Pinecone" e)), w', (t ++ []), flags.
      split; [reflexivity|]. rewrite app_nil_r. split; [exact Hw|].
      split; [discriminate|]. split; [|contradiction].
      intros e' He'. injection He' as <-.
      destruct Hr as [m [e0 [_ ->]]]. exists e0. reflexivity.
    + eexists None, w', _, flags. split; [reflexivity|].
      split; [rewrite writes_app, Hw; cbn; rewrite app_nil_r; reflexivity|].
      split; [intros _; exact Hr|]. split; [discriminate | contradiction].
  - assert (vectors = []) as ->
      by (destruct vectors; [reflexivity | unfold llen in Hzero; simpl in Hzero; lia]).
    exists None, w, [], []. repeat split. discriminate.
Qed.

(** *** Every stage returns *)

Lemma returns_ret {A : Type} (a : A) (Q : A -> Prop) :
  Q a -> returns (@ret W A a) Q.
Proof. intros H w. exists a, w, []. split; [reflexivity | exact H]. Qed.

Lemma returns_bind {A B : Type} (m : @M W A) (f : A -> M B)
      (Q : A -> Prop) (R : B -> Prop) :
  returns m Q -> (forall a, Q a -> returns (f a) R) -> returns (bind m f) R.
Proof.
  intros Hm Hf w.
  destruct (Hm w) as [a [w1 [t1 [Hrun Ha]]]].
  destruct (Hf a Ha w1) as [b [w2 [t2 [Hrun2 Hb]]]].
  exists b, w2, (t1 ++ t2). split; [|exact Hb].
  eapply bind_Done; eassumption.
Qed.

Lemma returns_log lvl msg fields :
  returns (@log W lvl msg fields) (fun _ => True).
Proof. intros w. exists tt, w, [Log lvl msg fields]. split; reflexivity. Qed.

Lemma returns_ask {A : Type} (c : call) (ok : A -> bool) (f : W -> A * W)
      (Q : A -> Prop) :
  (forall w, Q (fst (f w))) -> returns (ask c ok f) Q.
Proof.
  intros H w. unfold ask. specialize (H w).
  destruct (f w) as [a w']. exists a, w', [Called c (ok a)].
  split; [reflexivity | exact H].
Qed.

Lemma length_append (s t : string) :
  String.length (s ++ t) = (String.length s + String.length t)%nat.
Proof. induction s as [|c s IH]; simpl; [|rewrite IH]; reflexivity. Qed.

Lemma chunkText_returns (text : string) (chunkSize overlap : Z) :
  in_memory text -> 0 <= overlap < chunkSize ->
  exists chunks,
    Chunker.chunkText text chunkSize overlap = Done chunks /\
    llen chunks <= max_len.
Proof.
  intros Hmem Hpre.
  destruct (Z_le_gt_dec (len text) chunkSize) as [Hs|Hl].
  - exists [text]. unfold Chunker.chunkText.
    destruct (Z.leb_spec (len text) chunkSize); [|lia].
    split; [reflexivity | vm_compute; discriminate].
  - eexists. split; [apply chunkText_long; [assumption | assumption | lia]|].
    unfold llen. rewrite length_map, length_seq.
    pose proof (count_le_length text chunkSize overlap Hpre).
    unfold in_memory, len in *. lia.
Qed.

Hypothesis Hvalid : validated (config dp).
Hypothesis Hsmall : texts_small dp.
Hypothesis Hvision : analysis_returns dp.

Lemma alreadyIndexed_returns (fileHash : string) :
  returns (alreadyIndexed dp fileHash) (fun _ => True).
Proof.
  intros w. destruct Hvalid as [_ [_ [_ Hdim]]].
  destruct (SkipExistingDocuments (config dp)) eqn:Hskip.
  - destruct (pineconeQuery dp w
                (exists_request (PineconeCfg (config dp)) fileHash))
      as [r w1] eqn:Hq.
    destruct (alreadyIndexed_run fileHash w w1 r Hskip ltac:(lia) Hq)
      as [t [Hrun _]].
    eauto.
  - unfold alreadyIndexed. rewrite Hskip. exists false, w, []. auto.
Qed.

Lemma extractWith_returns (ext filePath : string) :
  forall ps, (forall p, In p ps -> In p (processors dp)) ->
  returns (extractWith ps ext filePath)
          (fun r => forall text, r = Ok text -> small text).
Proof.
  induction ps as [|p ps IH]; intros Hin.
  - apply returns_ret. discriminate.
  - cbn [extractWith]. destruct (CanProcess p ext).
    + intros w. unfold ask.
      destruct (Extract p w filePath) as [r w'] eqn:He.
      exists r, w', [Called (ExtractFile filePath) (is_ok r)].
      split; [reflexivity|]. intros text ->.
      eapply (proj1 Hsmall); [apply Hin; left; reflexivity | exact He].
    + apply IH. intros q Hq. apply Hin. right. exact Hq.
Qed.

Lemma analyzeVisual_returns (filePath : string) :
  returns (analyzeVisual dp filePath) small.
Proof.
  assert (Hempty : small "") by (vm_compute; reflexivity).
  unfold analyzeVisual.
  destruct (visionClient dp) as [analyze|] eqn:Hv;
    [|apply returns_ret; exact Hempty].
  destruct (isImageFile dp filePath) eqn:Himg;
    [|apply returns_ret; exact Hempty].
  intros w. unfold bind, attempt.
  destruct (Hvision analyze w filePath Hv Himg) as [r [w' Ha]]. rewrite Ha.
  destruct r as [text|err].
  - exists text, w', ([Called (AnalyzeImage filePath) true] ++ []).
    split; [reflexivity|].
    eapply (proj2 Hsmall); eassumption.
  - eexists "", w', _. split; [reflexivity | exact Hempty].
Qed.

Lemma summarize_returns (text : string) :
  returns (summarize dp text) (fun _ => True).
Proof.
  intros w. unfold summarize, bind, ask.
  destruct (azureSummary dp w text) as [[summary|err] w']; cbn; eauto.
Qed.

Lemma embedAndStore_returns (filePath fileHash summary docID : string)
      (chunks : list string) :
  llen chunks <= max_len ->
  returns (embedAndStore dp filePath fileHash summary docID chunks)
          (fun _ => True).
Proof.
  intros Hmem w.
  destruct (embedChunks_run docID filePath fileHash summary (llen chunks)
              chunks 0 [] w)
    as [vectors [w1 [t1 [Hrun [_ [_ [_ Hlen]]]]]]].
  cbn [app] in Hrun.
  assert (Hvm : llen vectors <= max_len) by (unfold llen in *; lia).
  destruct (store_run filePath vectors w1 Hvm)
    as [r [w2 [t2 [flags [Hstore _]]]]].
  exists r, w2, (t1 ++ t2). split; [|exact I].
  unfold embedAndStore. eapply bind_Done; eassumption.
Qed.

Lemma indexFile_returns (filePath fileHash : string) :
  returns (indexFile dp filePath fileHash) (fun _ => True).
Proof.
  unfold indexFile.
  eapply returns_bind.
  { apply extractWith_returns. auto. }
  intros [content|err] Hcontent; [|apply returns_ret; exact I].
  specialize (Hcontent content eq_refl).
  destruct (String.eqb content "").
  { eapply returns_bind; [apply returns_log|].
    intros _ _. apply returns_ret. exact I. }
  eapply returns_bind; [apply analyzeVisual_returns|].
  intros visualContent Hvisual. cbv zeta.
  set (combinedContent :=
         if String.eqb visualContent "" then content
         else (content ++ String LF (String LF "") ++ visualContent)%string).
  assert (Hmem : in_memory combinedContent).
  { unfold combinedContent, in_memory, max_len, small, len in *.
    destruct (String.eqb visualContent ""); [lia|].
    rewrite !length_append. cbn [String.length]. lia. }
  eapply returns_bind; [apply summarize_returns|].
  intros summary _.
  destruct Hvalid as [Hsize [Hov [Hlt _]]].
  destruct (chunkText_returns combinedContent (ChunkSize (config dp))
              (ChunkOverlap (config dp)) Hmem ltac:(lia))
    as [chunks [Hchunks Hcount]].
  eapply returns_bind with (Q := fun cs => cs = chunks).
  { intros w. rewrite Hchunks. exists chunks, w, []. auto. }
  intros ? ->.
  eapply returns_bind; [apply returns_ask with (Q := fun _ => True); auto|].
  intros docID _.
  apply embedAndStore_returns. exact Hcount.
Qed.

Lemma processFile_returns (filePath : string) :
  returns (processFile dp filePath) (fun _ => True).
Proof.
  unfold processFile.
  eapply returns_bind with (Q := fun _ => True).
  { unfold calculateFileHash, observe. apply returns_ask. auto. }
  intros [fileHash|err] _; [|apply returns_ret; exact I].
  eapply returns_bind; [apply alreadyIndexed_returns|].
  intros [|] _; [apply returns_ret; exact I | apply indexFile_returns].
Qed.

Lemma processFiles_iterates (total : Z) : forall paths i c w,
  exists t c' w',
    iterates dp total i paths w c t c' w' /\
    processFiles dp total i paths c w = Done (c', w', t).
Proof.
  induction paths as [|file rest IH]; intros i c w.
  - exists [], c, w. split; [constructor | reflexivity].
  - destruct (processFile_returns file w) as [r [w1 [t1 [Hrun _]]]].
    destruct (IH (i + 1) (count (verdict_of r) c) w1)
      as [t2 [c' [w2 [Hit Hrest]]]].
    exists (opening total i file :: t1 ++ closing file r ++ t2), c', w2.
    split; [econstructor; eassumption|].
    rewrite (processFiles_step total i file rest c w w1 r t1 Hrun), Hrest.
    cbn. rewrite <- app_assoc. reflexivity.
Qed.

(** When the image analysis returns on every image, [ProcessDirectory]
    returns an error exactly when the scan of the directory fails, and then
    before any file is touched.  When the scan succeeds, [processFile] is
    run on every file found, in order; each run returns, what it returns is
    only counted (processed, skipped or errored) and logged, and the run
    ends with [nil]. *)
Theorem ProcessDirectory_isolation (directory : string) (w : W) :
  let '(paths, scanErr) :=
    let '(name, root) := tree dp w directory in
    Scanner.scanDirectory directory name root in
  match scanErr with
  | Some err =>
      ProcessDirectory dp directory w
      = Done (Some (wrapf "failed to scan directory" err), w,
              [Log InfoLevel "Starting directory processing"
                   [("directory", VString directory)];
               Called (WalkTree directory) false])
  | None =>
      exists t c w',
        iterates dp (llen paths) 0 paths w
                 {| successCount := 0; skipCount := 0; errorCount := 0 |}
                 t c w' /\
        ProcessDirectory dp directory w
        = Done (None, w',
                [Log InfoLevel "Starting directory processing"
                     [("directory", VString directory)];
                 Called (WalkTree directory) true;
                 Log InfoLevel "Found files" [("count", VInt (llen paths))]]
                ++ t
                ++ [Log InfoLevel "Directory processing complete"
                        [("total_files", VInt (llen paths));
                         ("processed", VInt (successCount c));
                         ("skipped", VInt (skipCount c));
                         ("errors", VInt (errorCount c))]])
  end.
Proof.
  unfold ProcessDirectory, scanDirectory, observe, ask, bind, log.
  destruct (tree dp w directory) as [name root].
  destruct (Scanner.scanDirectory directory name root) as [paths [err|]].
  - reflexivity.
  - destruct (processFiles_iterates (llen paths) paths 0
                {| successCount := 0; skipCount := 0; errorCount := 0 |} w)
      as [t [c [w' [Hit Hrun]]]].
    exists t, c, w'. split; [exact Hit|].
    rewrite Hrun. cbn. reflexivity.
Qed.

End OrchestratorFacts.

(** ** The pipeline at work *)

Section Examples.
Import GoInt Pinecone Effects PineconeClient Orchestrator Demo.

Lemma demo_validated names skip :
  validated (config (demo names skip 1000 200)).
Proof. unfold validated. cbn. lia. Qed.

Lemma demo_texts_small names skip chunkSize overlap :
  texts_small (demo names skip chunkSize overlap).
Proof.
  split.
  - intros p w path text w' [<-|[]] Hx. cbn in Hx.
    repeat match type of Hx with
           | context [if ?b then _ else _] => destruct b
           end;
      inversion Hx; subst; vm_compute; reflexivity.
  - intros analyze w path text w' Hv. discriminate.
Qed.

Lemma demo_analysis_returns names skip chunkSize overlap :
  analysis_returns (demo names skip chunkSize overlap).
Proof. intros analyze w path Hv. discriminate. Qed.

Lemma ProcessDirectory_isolation_witness :
  let dp := demo ["a.txt"; "a_copy.txt"; "notes.md"] true 1000 200 in
  validated (config dp) /\ texts_small dp /\ analysis_returns dp /\
  exists w' t, ProcessDirectory dp "data" (start []) = Done (None, w', t).
Proof.
  intros dp.
  assert (Hv : validated (config dp)) by apply demo_validated.
  assert (Hs : texts_small dp) by apply demo_texts_small.
  assert (Ha : analysis_returns dp) by apply demo_analysis_returns.
  split; [exact Hv | split; [exact Hs | split; [exact Ha |]]].
  pose proof (ProcessDirectory_isolation dp Hv Hs Ha "data" (start [])) as H.
  change (let '(name, root) := tree dp (start []) "data" in
          Scanner.scanDirectory "data" name root)
    with (["data/a.txt"; "data/a_copy.txt"; "data/notes.md"], @None error) in H.
  cbv beta iota in H.
  destruct H as [t [c [w' [_ Hrun]]]].
  exists w'. eexists. exact Hrun.
Defined.


Lemma existence_check_failure_witness :
  let dp := demo ["a.txt"] true 1000 200 in
  SkipExistingDocuments (config dp) = true /\
  0 <= Dimension (PineconeCfg (config dp)) /\
  Hasher.calculateFileHash (files dp outage) "data/a.txt" = Ok hash_a /\
  pineconeQuery dp outage (exists_request (PineconeCfg (config dp)) hash_a)
  = (Fail (Errorf "connection refused"), outage) /\
  exists t,
    processFile dp "data/a.txt" outage
    = after t (indexFile dp "data/a.txt" hash_a outage) /\
    In (Log WarnLevel "Failed to check document existence"
            [("error", VError (Errorf "connection refused"))]) t.
Proof.
  intros dp.
  assert (Hskip : SkipExistingDocuments (config dp) = true) by reflexivity.
  assert (Hdim : 0 <= Dimension (PineconeCfg (config dp))) by (cbn; lia).
  assert (Hhash : Hasher.calculateFileHash (files dp outage) "data/a.txt"
                  = Ok hash_a) by (vm_compute; reflexivity).
  assert (Hq : pineconeQuery dp outage
                 (exists_request (PineconeCfg (config dp)) hash_a)
               = (Fail (Errorf "connection refused"), outage))
    by (vm_compute; reflexivity).
  split; [exact Hskip | split; [exact Hdim | split; [exact Hhash |]]].
  split; [exact Hq|].
  destruct (proj1 (existence_check_failure dp "data/a.txt" hash_a outage outage
                     Hskip Hdim Hhash) _ Hq) as [t [Hrun [_ Hwarn]]].
  exists t. split; [exact Hrun | exact Hwarn].
Defined.

Lemma calculateFileHash_content_witness :
  let fs : Hasher.filesystem := fun path =>
    if String.eqb path "a.txt"
    then Ok (Hasher.Block "ab" (Hasher.Block "c" Hasher.EOF))
    else if String.eqb path "copy/b.txt"
    then Ok (Hasher.Block "abc" Hasher.EOF)
    else Fail (Errorf "no such file or directory") in
  Hasher.calculateFileHash fs "a.txt"
  = Ok "sha256:ba7816bf8f01cfea414140de5dae2223b00361a396177a9cb410ff61f20015ad" /\
  Hasher.calculateFileHash fs "a.txt" = Hasher.calculateFileHash fs "copy/b.txt".
Proof.
  intros fs. split.
  - rewrite (proj1 (proj1 (calculateFileHash_content fs) "a.txt"
                     (Hasher.Block "ab" (Hasher.Block "c" Hasher.EOF)) "abc"
                     eq_refl eq_refl)).
    vm_compute. reflexivity.
  - apply (proj2 (calculateFileHash_content fs) "a.txt" "copy/b.txt"
             (Hasher.Block "ab" (Hasher.Block "c" Hasher.EOF))
             (Hasher.Block "abc" Hasher.EOF) "abc"); reflexivity.
Defined.

(** Two files with the same bytes: the first is indexed, the second is
    skipped, and one batch is written. *)
Example run_deduplicates :
  report (ProcessDirectory (demo ["a.txt"; "a_copy.txt"] true 1000 200)
                           "data" (start []))
  = Some (None,
          [("total_files", VInt 2); ("processed", VInt 1);
           ("skipped", VInt 1); ("errors", VInt 0)],
          [([Some (0, "alpha beta gamma")], true)]).
Proof. vm_compute. reflexivity. Qed.

(** A file no extractor takes is counted as an error and the run goes on. *)
Example run_isolates_failures :
  report (ProcessDirectory (demo ["notes.xyz"; "a.txt"] true 1000 200)
                           "data" (start []))
  = Some (None,
          [("total_files", VInt 2); ("processed", VInt 1);
           ("skipped", VInt 0); ("errors", VInt 1)],
          [([Some (0, "alpha beta gamma")], true)]).
Proof. vm_compute. reflexivity. Qed.

(** Three chunks, the embedding of the second fails: the other two are
    written, under their own indices, and the file counts as processed. *)
Example run_drops_failed_chunk :
  report (ProcessDirectory (demo ["b.txt"] false 8 0) "data" (start [1%nat]))
  = Some (None,
          [("total_files", VInt 1); ("processed", VInt 1);
           ("skipped", VInt 0); ("errors", VInt 0)],
          [([Some (0, "01234567"); Some (2, "ghij")], true)]).
Proof. vm_compute. reflexivity. Qed.

(** No embedding comes back: nothing is written, the file still counts as
    processed. *)
Example run_without_vectors :
  report (ProcessDirectory (demo ["b.txt"] false 8 0) "data"
                           (start [0%nat; 1%nat; 2%nat]))
  = Some (None,
          [("total_files", VInt 1); ("processed", VInt 1);
           ("skipped", VInt 0); ("errors", VInt 0)],
          []).
Proof. vm_compute. reflexivity. Qed.

End Examples.

(** ** The chunker, further *)

Section ChunkerMore.
Import GoInt Chunker Rejoin.

Lemma substring_zero (s : string) (a : nat) : substring a 0 s = "".
Proof.
  revert a. induction s as [|c s IH]; intros [|a]; simpl; auto.
Qed.

Lemma substring_whole (s : string) : substring 0 (String.length s) s = s.
Proof. induction s as [|c s IH]; simpl; [|rewrite IH]; reflexivity. Qed.

Lemma substring_past (s : string) : forall a m,
  (String.length s <= a)%nat -> substring a m s = "".
Proof.
  induction s as [|c s IH]; intros a m H; simpl in *.
  - destruct a, m; reflexivity.
  - destruct a as [|a]; [lia|]. apply IH. lia.
Qed.

Lemma substring_split (s : string) : forall a m1 m2,
  substring a (m1 + m2) s
  = (substring a m1 s ++ substring (a + m1) m2 s)%string.
Proof.
  induction s as [|c s IH]; intros a m1 m2.
  - simpl. destruct a, m1, m2; reflexivity.
  - destruct a as [|a].
    + destruct m1 as [|m1].
      * simpl. reflexivity.
      * cbn [Nat.add substring append]. rewrite (IH 0%nat m1 m2).
        reflexivity.
    + cbn [Nat.add substring]. apply IH.
Qed.

Lemma substring_prefix (s : string) : forall a k m,
  substring 0 m (substring a k s) = substring a (Nat.min m k) s.
Proof.
  induction s as [|c s IH]; intros a k m.
  - simpl. destruct a, k, m; reflexivity.
  - destruct a as [|a].
    + destruct k as [|k]; [rewrite Nat.min_0_r; destruct m; reflexivity|].
      destruct m as [|m]; [reflexivity|].
      cbn [substring Nat.min]. rewrite (IH 0%nat k m). reflexivity.
    + cbn [substring]. apply IH.
Qed.

Section Windows.
Variables (text : string) (chunkSize overlap : Z).
Hypothesis Hpre : 0 <= overlap < chunkSize.

Lemma rejoin_from (m : nat) : forall k : nat,
  (String.length text
   <= (k + m) * Z.to_nat (chunkSize - overlap))%nat ->
  rejoin (chunkSize - overlap)
         (map (piece text chunkSize overlap) (seq k m))
  = substring (k * Z.to_nat (chunkSize - overlap))
              (String.length text - k * Z.to_nat (chunkSize - overlap)) text.
Proof.
  set (st := Z.to_nat (chunkSize - overlap)).
  assert (Hst : (0 < st)%nat) by (unfold st; lia).
  induction m as [|m IH]; intros k Hk.
  - simpl. replace (String.length text - k * st)%nat with 0%nat by lia.
    rewrite substring_zero. reflexivity.
  - cbn [seq map rejoin].
    assert (Hks : Z.to_nat (Z.of_nat k * (chunkSize - overlap)) = (k * st)%nat)
      by (unfold st; nia).
    destruct m as [|m].
    + cbn [seq map]. unfold piece, bytes_of, win_end, win_start, len.
      rewrite Hks.
      destruct (Nat.le_gt_cases (String.length text) (k * st)) as [Hout|Hin].
      * rewrite !substring_past by lia. reflexivity.
      * f_equal. unfold st in *. nia.
    + specialize (IH (S k) ltac:(lia)).
      change (map (piece text chunkSize overlap) (seq (S k) (S m)))
        with (piece text chunkSize overlap (S k)
                :: map (piece text chunkSize overlap) (seq (S (S k)) m)) in *.
      fold st. rewrite IH.
      unfold piece, bytes_of, win_end, win_start, len.
      rewrite substring_prefix, Hks.
      destruct (Nat.le_gt_cases (String.length text) (k * st)) as [Hout|Hin].
      * rewrite !substring_past by lia. reflexivity.
      * set (w := Nat.min st
               (Z.to_nat (Z.min (Z.of_nat k * (chunkSize - overlap) + chunkSize)
                                (Z.of_nat (String.length text))
                          - Z.of_nat k * (chunkSize - overlap)))).
        assert (Hw : w = Nat.min st (String.length text - k * st)).
        { unfold w, st in *. nia. }
        rewrite Hw.
        destruct (Nat.le_gt_cases st (String.length text - k * st))
          as [Hfull|Hclip].
        -- rewrite Nat.min_l by exact Hfull.
           replace (S k * st)%nat with (k * st + st)%nat by lia.
           rewrite <- substring_split. f_equal. lia.
        -- rewrite Nat.min_r by lia.
           rewrite (substring_past text (S k * st)) by lia.
           rewrite append_empty_r. reflexivity.
Qed.

Lemma piece_length (i : nat) :
  win_start chunkSize overlap i < len text ->
  len (piece text chunkSize overlap i)
  = win_end text chunkSize overlap i - win_start chunkSize overlap i.
Proof.
  intros Hin. pose proof (win_start_nonneg chunkSize overlap i Hpre).
  unfold piece, bytes_of, len.
  rewrite substring_length; unfold win_end, len in *; lia.
Qed.

End Windows.

(** X1.  Taking, of every chunk but the last, the bytes before the next window
    starts, and the last chunk whole, gives the text back. *)
Theorem chunkText_rejoin (text : string) (chunkSize overlap : Z) :
  in_memory text ->
  0 <= overlap < chunkSize ->
  exists chunks,
    chunkText text chunkSize overlap = Done chunks /\
    rejoin (chunkSize - overlap) chunks = text.
Proof.
  intros Hmem Hpre.
  destruct (Z_le_gt_dec (len text) chunkSize) as [Hs|Hl].
  - exists [text]. unfold chunkText.
    destruct (Z.leb_spec (len text) chunkSize); [|lia]. split; reflexivity.
  - eexists. split; [apply chunkText_long; [assumption | assumption | lia]|].
    rewrite rejoin_from.
    + simpl. rewrite Nat.sub_0_r. apply substring_whole.
    + exact Hpre.
    + set (n := Z.to_nat (ceil_div (len text) (chunkSize - overlap))).
      destruct (Z_lt_le_dec (win_start chunkSize overlap n) (len text))
        as [Hlt|Hge].
      * apply (in_range_iff text chunkSize overlap Hpre) in Hlt.
        fold n in Hlt. lia.
      * unfold win_start, len in Hge. nia.
Qed.

Lemma chunkText_rejoin_witness :
  in_memory "hello world" /\ 0 <= 2 < 5 /\
  exists chunks,
    chunkText "hello world" 5 2 = Done chunks /\
    rejoin (5 - 2) chunks = "hello world".
Proof.
  assert (Hm : in_memory "hello world") by (vm_compute; discriminate).
  assert (Hp : 0 <= 2 < 5) by lia.
  split; [exact Hm | split; [exact Hp |]].
  exact (chunkText_rejoin "hello world" 5 2 Hm Hp).
Defined.

Lemma chunkText_sized (text : string) (chunkSize overlap : Z) :
  in_memory text ->
  0 <= overlap < chunkSize ->
  exists chunks,
    chunkText text chunkSize overlap = Done chunks /\
    Forall (fun c => len c <= chunkSize /\ (text <> "" -> 0 < len c)) chunks.
Proof.
  intros Hmem Hpre.
  destruct (Z_le_gt_dec (len text) chunkSize) as [Hs|Hl].
  - exists [text]. unfold chunkText.
    destruct (Z.leb_spec (len text) chunkSize); [|lia].
    split; [reflexivity|]. repeat constructor; [exact Hs|].
    intros Hne. destruct text; [contradiction | unfold len; simpl; lia].
  - eexists. split; [apply chunkText_long; [assumption | assumption | lia]|].
    apply Forall_forall. intros c Hc. apply in_map_iff in Hc.
    destruct Hc as [i [<- Hi]]. apply in_seq in Hi.
    assert (Hin : win_start chunkSize overlap i < len text)
      by (apply (in_range_iff text chunkSize overlap Hpre); lia).
    rewrite (piece_length text chunkSize overlap Hpre i Hin).
    pose proof (win_start_nonneg chunkSize overlap i Hpre).
    unfold win_end. lia.
Qed.

(** X2.  No chunk is longer than [chunkSize], and a text that is not empty
    has no empty chunk. *)
Theorem chunkText_chunk_sizes (text : string) (chunkSize overlap : Z) :
  in_memory text ->
  0 <= overlap < chunkSize ->
  exists chunks,
    chunkText text chunkSize overlap = Done chunks /\
    Forall (fun c => len c <= chunkSize) chunks /\
    (text <> "" -> Forall (fun c => 0 < len c) chunks).
Proof.
  intros Hmem Hpre.
  destruct (chunkText_sized text chunkSize overlap Hmem Hpre)
    as [chunks [Hrun Hall]].
  exists chunks. split; [exact Hrun|]. split.
  - eapply Forall_impl; [|exact Hall]. cbv beta. intros c [Hle _]. exact Hle.
  - intros Hne. eapply Forall_impl; [|exact Hall]. cbv beta.
    intros c [_ Hpos]. apply Hpos. exact Hne.
Qed.

Lemma chunkText_chunk_sizes_witness :
  in_memory "hello world" /\ 0 <= 2 < 5 /\
  exists chunks,
    chunkText "hello world" 5 2 = Done chunks /\
    Forall (fun c => len c <= 5) chunks.
Proof.
  assert (Hm : in_memory "hello world") by (vm_compute; discriminate).
  assert (Hp : 0 <= 2 < 5) by lia.
  split; [exact Hm | split; [exact Hp |]].
  destruct (chunkText_chunk_sizes "hello world" 5 2 Hm Hp)
    as [chunks [Hrun [Hle _]]].
  exists chunks. split; [exact Hrun | exact Hle].
Defined.

(** X3.  Outside the precondition, on a text longer than [chunkSize]: with
    [overlap = chunkSize] the window never moves and the loop does not end,
    whatever the fuel; with [overlap > chunkSize] the window moves backwards
    and the second slice panics. *)
Theorem chunkText_unvalidated (text : string) (chunkSize overlap : Z) :
  in_memory text ->
  0 < chunkSize < len text ->
  (overlap = chunkSize ->
   chunkText text chunkSize overlap = Diverges /\
   forall fuel acc, chunkLoop fuel text chunkSize overlap 0 acc = Diverges) /\
  (chunkSize < overlap <= max_int ->
   chunkText text chunkSize overlap = Panics).
Proof.
  intros Hmem Hsize. unfold in_memory, max_len in Hmem.
  assert (Hend : window_end text chunkSize 0 = chunkSize).
  { unfold window_end, add. rewrite wrap_small
      by (unfold min_int, max_int; lia).
    destruct (Z.gtb_spec (0 + chunkSize) (len text)); lia. }
  assert (Hslice : slice text 0 (window_end text chunkSize 0)
                   = Done (bytes_of text 0 chunkSize)).
  { rewrite Hend. unfold slice.
    replace ((0 <=? 0) && (0 <=? chunkSize) && (chunkSize <=? len text))
      with true; [reflexivity|].
    symmetry. rewrite !andb_true_iff, !Z.leb_le. lia. }
  split.
  - intros ->.
    assert (Hstay : next_start chunkSize chunkSize 0 = 0).
    { unfold next_start, add, sub. rewrite Z.sub_diag. reflexivity. }
    assert (Hloop : forall fuel acc,
              chunkLoop fuel text chunkSize chunkSize 0 acc = Diverges).
    { induction fuel as [|fuel IH]; intros acc; simpl;
        destruct (Z.ltb_spec 0 (len text)); try lia; [reflexivity|].
      rewrite Hslice, Hstay. apply IH. }
    split; [|exact Hloop].
    unfold chunkText. destruct (Z.leb_spec (len text) chunkSize); [lia|].
    apply Hloop.
  - intros Hov.
    assert (Hback : next_start chunkSize overlap 0 = chunkSize - overlap).
    { unfold next_start, add, sub.
      rewrite (wrap_small (chunkSize - overlap))
        by (unfold min_int, max_int in *; lia).
      apply wrap_small. unfold min_int, max_int in *. lia. }
    unfold chunkText. destruct (Z.leb_spec (len text) chunkSize); [lia|].
    assert (Hlen : exists n, String.length text = S (S n)).
    { unfold len in Hsize. destruct (String.length text) as [|[|n]]; [lia|lia|].
      eauto. }
    destruct Hlen as [n Hn]. rewrite Hn.
    cbn [chunkLoop]. destruct (Z.ltb_spec 0 (len text)); [|lia].
    rewrite Hslice, Hback.
    destruct (Z.ltb_spec (chunkSize - overlap) (len text)); [|lia].
    unfold slice.
    destruct (Z.leb_spec 0 (chunkSize - overlap)); [lia|]. reflexivity.
Qed.

Lemma chunkText_unvalidated_witness :
  in_memory "hello world" /\ 0 < 5 < len "hello world" /\
  chunkText "hello world" 5 5 = Diverges /\
  chunkText "hello world" 5 7 = Panics.
Proof.
  assert (Hm : in_memory "hello world") by (vm_compute; discriminate).
  assert (Hs : 0 < 5 < len "hello world") by (vm_compute; split; reflexivity).
  split; [exact Hm | split; [exact Hs |]].
  destruct (chunkText_unvalidated "hello world" 5 5 Hm Hs) as [Hd _].
  destruct (chunkText_unvalidated "hello world" 5 7 Hm Hs) as [_ Hp].
  split; [exact (proj1 (Hd eq_refl))|].
  apply Hp. unfold max_int. lia.
Defined.

End ChunkerMore.

(** ** The configuration and the clients *)

Section ConfigFacts.
Import GoInt Effects ConfigPkg Startup.

Lemma validate_accepts (c : Config) :
  validate c = None <->
  OpenAIAPIKey (Azure c) <> "" /\ OpenAIEndpoint (Azure c) <> "" /\
  APIKey (Pinecone c) <> "" /\ IndexName (Pinecone c) <> "" /\
  DataDirectory (App c) <> "" /\
  0 < ChunkSize (App c) /\
  0 <= ChunkOverlap (App c) < ChunkSize (App c) /\
  0 < Dimension (Pinecone c).
Proof.
  unfold validate.
  destruct (String.eqb_spec (OpenAIAPIKey (Azure c)) "");
    [split; [discriminate | tauto]|].
  destruct (String.eqb_spec (OpenAIEndpoint (Azure c)) "");
    [split; [discriminate | tauto]|].
  destruct (String.eqb_spec (APIKey (Pinecone c)) "");
    [split; [discriminate | tauto]|].
  destruct (String.eqb_spec (IndexName (Pinecone c)) "");
    [split; [discriminate | tauto]|].
  destruct (String.eqb_spec (DataDirectory (App c)) "");
    [split; [discriminate | tauto]|].
  destruct (Z.leb_spec (ChunkSize (App c)) 0);
    [split; [discriminate | intros; lia]|].
  destruct (Z.ltb_spec (ChunkOverlap (App c)) 0);
    [split; [discriminate | intros; lia]|].
  destruct (Z.geb_spec (ChunkOverlap (App c)) (ChunkSize (App c)));
    [split; [discriminate | intros; lia]|].
  destruct (Z.leb_spec (Dimension (Pinecone c)) 0);
    [split; [discriminate | intros; lia]|].
  split; [intros _; repeat split; (assumption || lia) | reflexivity].
Qed.

Lemma prefix_app (p s : string) : prefix p (p ++ s) = true.
Proof.
  induction p as [|a p IH]; cbn; [destruct s; reflexivity|].
  destruct (Ascii.ascii_dec a a); [exact IH | congruence].
Qed.

Lemma with_scheme_prefix (h : string) : prefix "https://" (with_scheme h) = true.
Proof.
  unfold with_scheme. destruct (prefix "https://" h) eqn:E; [exact E|].
  apply prefix_app.
Qed.

Lemma with_scheme_fixed (h : string) :
  prefix "https://" h = true -> with_scheme h = h.
Proof. unfold with_scheme. intros ->. reflexivity. Qed.

(** X4.  A configuration that [validate] accepts has what the pipeline
    needs: the constraints under which a run over a directory returns, and
    a chunk size and overlap with which [chunkText] returns on every text
    that fits in memory. *)
Theorem validate_guards_chunker (c : Config) (text : string) :
  validate c = None ->
  in_memory text ->
  Orchestrator.validated (orchestrator_view c) /\
  exists chunks,
    Chunker.chunkText text (ChunkSize (App c)) (ChunkOverlap (App c))
    = Done chunks /\
    PineconeClient.llen chunks <= max_len.
Proof.
  intros Hv Hmem. apply validate_accepts in Hv.
  destruct Hv as [_ [_ [_ [_ [_ [Hs [Ho Hd]]]]]]].
  split; [unfold Orchestrator.validated; cbn; lia|].
  apply chunkText_returns; assumption.
Qed.

Lemma validate_guards_chunker_witness :
  Orchestrator.validated (orchestrator_view (Settings.sample "")) /\
  exists chunks,
    Chunker.chunkText "some text" 1000 200 = Done chunks /\
    PineconeClient.llen chunks <= max_len.
Proof.
  apply (validate_guards_chunker (Settings.sample "") "some text").
  - reflexivity.
  - unfold in_memory, max_len. cbn. lia.
Defined.

Section ClientFacts.
Context {W : Type}.
Variable describeIndex : W -> string -> string -> result string * W.
Variable newRequest : string -> option error.

Lemma fetchIndexHost_run (apiKey indexName : string) (w : W) :
  exists r w' t,
    fetchIndexHost describeIndex newRequest apiKey indexName w
    = Done (r, w', t) /\
    (forall h, r = Ok h -> prefix "https://" h = true) /\
    (forall h, r = Ok h -> h <> "").
Proof.
  unfold fetchIndexHost.
  destruct (newRequest _) as [err|].
  { do 3 eexists. split; [reflexivity|]. split; intros h Hh; discriminate. }
  unfold bind at 1, log at 1. unfold bind at 1.
  destruct (describeIndex w apiKey indexName) as [r w1] eqn:Hd.
  destruct r as [h|err].
  - destruct (String.eqb_spec h "").
    + do 3 eexists. split; [reflexivity|]. split; intros h' Hh; discriminate.
    + do 3 eexists. split; [reflexivity|].
      split; intros h' Hh; inversion Hh; subst.
      * apply with_scheme_prefix.
      * intros E. pose proof (with_scheme_prefix h) as P. rewrite E in P.
        discriminate.
  - do 3 eexists. split; [reflexivity|]. split; intros h' Hh; discriminate.
Qed.

(** X5.  [NewPineconeClient] always returns, and the client it builds has
    a host that begins with the scheme: a configured host is completed and
    taken without a request to the control plane, and is kept as it is when
    it already has the scheme. *)
Theorem NewPineconeClient_host (cfg : Config) (w : W) :
  exists r w' t,
    NewPineconeClient describeIndex newRequest cfg w = Done (r, w', t) /\
    forall client, r = Ok client ->
      prefix "https://" (host client) = true /\
      pinecone_apiKey client <> "" /\
      pinecone_config client = Pinecone cfg /\
      (Host (Pinecone cfg) <> "" ->
         w' = w /\
         host client = with_scheme (Host (Pinecone cfg)) /\
         (prefix "https://" (Host (Pinecone cfg)) = true ->
          host client = Host (Pinecone cfg))).
Proof.
  unfold NewPineconeClient.
  destruct (String.eqb_spec (APIKey (Pinecone cfg)) "") as [|Hk].
  { do 3 eexists. split; [reflexivity|]. intros c Hc; discriminate. }
  destruct (String.eqb_spec (IndexName (Pinecone cfg)) "") as [|Hi].
  { do 3 eexists. split; [reflexivity|]. intros c Hc; discriminate. }
  destruct (String.eqb_spec (Host (Pinecone cfg)) "") as [Hh|Hh]; cbn [negb].
  - unfold bind at 1. unfold bind at 1.
    destruct (fetchIndexHost_run (APIKey (Pinecone cfg))
                (IndexName (Pinecone cfg)) w) as (r & w1 & t1 & Hrun & Hp & _).
    rewrite Hrun. destruct r as [h|err].
    + do 3 eexists. split; [reflexivity|].
      intros c Hc. inversion Hc; subst c; cbn.
      repeat split; auto. all: congruence.
    + do 3 eexists. split; [reflexivity|]. intros c Hc; discriminate.
  - do 3 eexists. split; [reflexivity|].
    intros c Hc. inversion Hc; subst c; cbn.
    repeat split; auto using with_scheme_prefix, with_scheme_fixed.
Qed.

(** X6.  Once [validate] has accepted the configuration,
    [NewDocumentProcessor] fails in one way only: no host is configured and
    looking it up fails, and the error then says so twice wrapped.  With a
    host configured it always builds the processor.  The vision client is
    there exactly when a key or credentials are configured. *)
Theorem NewDocumentProcessor_validated (cfg : Config) (w : W) :
  validate cfg = None ->
  exists r w' t,
    NewDocumentProcessor describeIndex newRequest cfg w = Done (r, w', t) /\
    (Host (Pinecone cfg) <> "" -> exists clients, r = Ok clients) /\
    (forall clients, r = Ok clients ->
       prefix "https://" (host (pineconeClient clients)) = true /\
       (visionClient clients <> None <->
        VisionAPIKey (Google cfg) <> "" \/
        ApplicationCredentials (Google cfg) <> "")) /\
    (forall err, r = Fail err ->
       Host (Pinecone cfg) = "" /\
       exists e, err = wrapf "failed to create Pinecone client"
                         (wrapf "failed to fetch Pinecone index host" e)).
Proof.
  intros Hv. apply validate_accepts in Hv.
  destruct Hv as (Hk & He & Hpk & Hpi & _).
  unfold NewDocumentProcessor, NewOpenAIClient.
  destruct (String.eqb_spec (OpenAIAPIKey (Azure cfg)) ""); [contradiction|].
  destruct (String.eqb_spec (OpenAIEndpoint (Azure cfg)) ""); [contradiction|].
  set (vis := (if negb _ || negb _ then _ else _) : M (option VisionClient)).
  assert (Hvis : exists v t, vis w = Done (v, w, t) /\
            (v <> None <-> VisionAPIKey (Google cfg) <> "" \/
                           ApplicationCredentials (Google cfg) <> "")).
  { subst vis. unfold NewVisionClient.
    destruct (String.eqb_spec (VisionAPIKey (Google cfg)) "") as [Ha|Ha];
      destruct (String.eqb_spec (ApplicationCredentials (Google cfg)) "")
        as [Hb|Hb]; cbn [negb orb].
    - do 2 eexists. split; [reflexivity|]. split; [congruence|tauto].
    - do 2 eexists. split; [reflexivity|]. split; [tauto|discriminate].
    - do 2 eexists. split; [reflexivity|]. split; [tauto|discriminate].
    - do 2 eexists. split; [reflexivity|]. split; [tauto|discriminate]. }
  destruct Hvis as (v & tv & Hvrun & Hviff).
  unfold bind at 1. rewrite Hvrun. unfold bind at 1.
  unfold NewPineconeClient.
  destruct (String.eqb_spec (APIKey (Pinecone cfg)) ""); [contradiction|].
  destruct (String.eqb_spec (IndexName (Pinecone cfg)) ""); [contradiction|].
  destruct (String.eqb_spec (Host (Pinecone cfg)) "") as [Hh|Hh]; cbn [negb].
  - unfold bind at 1. unfold bind at 1.
    destruct (fetchIndexHost_run (APIKey (Pinecone cfg))
                (IndexName (Pinecone cfg)) w) as (r & w1 & t1 & Hrun & Hp & _).
    rewrite Hrun. destruct r as [h|err].
    + do 3 eexists. split; [reflexivity|].
      split; [intros; eexists; reflexivity|].
      split; [|intros e' He'; discriminate].
      intros c Hc. inversion Hc; subst c; cbn. split; auto.
    + do 3 eexists. split; [reflexivity|].
      split; [contradiction|].
      split; [intros c Hc; discriminate|].
      intros e' He'. inversion He'; subst e'. split; [assumption|].
      eexists; reflexivity.
  - do 3 eexists. split; [reflexivity|].
    split; [intros; eexists; reflexivity|].
    split; [|intros e' He'; discriminate].
    intros c Hc. inversion Hc; subst c; cbn.
    split; auto using with_scheme_prefix.
Qed.

End ClientFacts.

Lemma NewDocumentProcessor_validated_witness :
  exists r w' t,
    NewDocumentProcessor (fun (w : unit) _ _ => (Fail (Errorf "offline"), w))
      (fun _ => None) (Settings.sample "example.pinecone.io") tt
    = Done (r, w', t) /\
    exists clients, r = Ok clients /\
      host (pineconeClient clients) = "https://example.pinecone.io".
Proof.
  destruct (NewDocumentProcessor_validated
              (fun (w : unit) _ _ => (Fail (Errorf "offline"), w))
              (fun _ => None) (Settings.sample "example.pinecone.io") tt
              eq_refl) as (r & w' & t & Hrun & Hok & _).
  exists r, w', t. split; [exact Hrun|].
  vm_compute in Hrun. inversion Hrun; subst.
  eexists; split; reflexivity.
Defined.

End ConfigFacts.
(** ** The Azure OpenAI adapter *)

Section AzureFacts.
Import GoInt Pinecone Effects Startup.
Context {W : Type}.
Variable c : OpenAIClient.
Variable postEmbeddings :
  W -> string -> list string -> result (list (list float32)) * W.
Variable postChat : W -> string -> Azure.ChatRequest -> result (list string) * W.

(** X7.  [GenerateSummary] always returns.  For an empty text it fails
    without a request.  Otherwise it builds exactly one request, whose user
    message is the prompt followed by the text, cut after its first 10000
    bytes and followed by three dots when it is longer: the text put into
    the request has at most 10003 bytes, and a text of up to 10000 bytes
    is put there whole.  The cut counts bytes, not characters.  This is
    the request as it is handed to [json.Marshal]; how many bytes the
    encoding of it has is not part of the statement. *)
Theorem GenerateSummary_request (text : string) (w : W) :
  exists r w' t,
    Azure.GenerateSummary c postChat text w = Done (r, w', t) /\
    (text = "" ->
       r = Fail (Errorf "text cannot be empty") /\ w' = w /\ t = []) /\
    (text <> "" ->
       exists sent,
         Orchestrator.calls t
         = [Effects.GenerateSummary (Azure.userPrompt ++ sent)] /\
         len sent <= 10003 /\
         (len text <= 10000 -> sent = text) /\
         (10000 < len text ->
          sent = (substring 0 (Z.to_nat 10000) text ++ "...")%string)).
Proof.
  unfold Azure.GenerateSummary.
  destruct (String.eqb_spec text "") as [->|Hne].
  { do 3 eexists. split; [reflexivity|]. split; [auto|congruence]. }
  assert (Hcut : exists sent,
    (if len text >? 10000
     then head <- lift (Chunker.slice text 0 10000) ;;
          @ret W _ (head ++ "...")%string
     else ret text) w = Done (sent, w, []) /\
    len sent <= 10003 /\
    (len text <= 10000 -> sent = text) /\
    (10000 < len text ->
     sent = (substring 0 (Z.to_nat 10000) text ++ "...")%string)).
  { destruct (Z.gtb_spec (len text) 10000) as [Hlong|Hshort].
    - exists (substring 0 (Z.to_nat 10000) text ++ "...")%string.
      unfold bind, lift, Chunker.slice.
      replace ((0 <=? 0) && (0 <=? 10000) && (10000 <=? len text)) with true
        by (symmetry; rewrite !andb_true_iff, !Z.leb_le; lia).
      cbn [ret]. split; [reflexivity|].
      split; [|split; [lia|reflexivity]].
      unfold len in *. rewrite length_append, substring_length; [cbn; lia|lia].
    - exists text. split; [reflexivity|]. split; [lia|]. split; [auto|lia]. }
  destruct Hcut as (sent & Hrun & Hlen & Hshort & Hlong).
  unfold bind at 1. rewrite Hrun.
  unfold bind at 1, log at 1. unfold bind at 1, ask at 1.
  destruct (postChat w (Azure.chatURL c) _) as [r w1] eqn:Hpost.
  destruct r as [[|summary rest]|err]; cbn [is_ok];
    (do 3 eexists; split; [reflexivity|]; split; [contradiction|];
     intros _; exists sent; repeat split; auto).
Qed.

(** X8.  [GenerateEmbedding] always returns.  For an empty text it fails
    without a request.  Otherwise it sends exactly one request, with the
    whole text as its only input, and returns the first embedding of the
    answer; an answer without an embedding is an error although the
    exchange succeeded. *)
Theorem GenerateEmbedding_request (text : string) (w : W) :
  exists r w' t,
    Azure.GenerateEmbedding c postEmbeddings text w = Done (r, w', t) /\
    (text = "" ->
       r = Fail (Errorf "text cannot be empty") /\ w' = w /\ t = []) /\
    (text <> "" ->
       Orchestrator.calls t = [Effects.GenerateEmbedding text] /\
       w' = snd (postEmbeddings w (Azure.embeddingsURL c) [text]) /\
       match fst (postEmbeddings w (Azure.embeddingsURL c) [text]) with
       | Ok (embedding :: _) => r = Ok embedding
       | Ok [] => r = Fail (Errorf "no embeddings returned")
       | Fail err => r = Fail err
       end).
Proof.
  unfold Azure.GenerateEmbedding.
  destruct (String.eqb_spec text "") as [->|Hne].
  { do 3 eexists. split; [reflexivity|]. split; [auto|congruence]. }
  unfold bind at 1, log at 1. unfold bind at 1, ask at 1.
  destruct (postEmbeddings w (Azure.embeddingsURL c) [text]) as [r w1] eqn:Hpost.
  destruct r as [[|embedding rest]|err]; cbn [is_ok];
    (do 3 eexists; split; [reflexivity|]; split; [contradiction|];
     intros _; repeat split; auto).
Qed.

End AzureFacts.
(** ** The Vision adapter *)

Section VisionFacts.
Import GoInt Effects Startup.

Lemma EncodeToString_M : Base64.EncodeToString "M" = "TQ==".
Proof. reflexivity. Qed.

Lemma EncodeToString_Ma : Base64.EncodeToString "Ma" = "TWE=".
Proof. reflexivity. Qed.

Lemma EncodeToString_pangram :
  Base64.EncodeToString "Many hands make light work."
  = "TWFueSBoYW5kcyBtYWtlIGxpZ2h0IHdvcmsu".
Proof. reflexivity. Qed.

(** The encoding has four characters for every three bytes begun. *)
Lemma EncodeToString_length (data : string) :
  len (Base64.EncodeToString data) = 4 * ((len data + 2) / 3).
Proof.
  unfold len.
  assert (H : forall n data, (String.length data < n)%nat ->
            Z.of_nat (String.length (Base64.EncodeToString data))
            = 4 * ((Z.of_nat (String.length data) + 2) / 3)).
  { induction n as [|n IH]; intros d Hn; [lia|].
    destruct d as [|a [|b [|c rest]]]; try reflexivity.
    cbn [Base64.EncodeToString String.length].
    rewrite !Nat2Z.inj_succ, IH by (cbn in Hn; lia).
    replace (Z.succ (Z.succ (Z.succ (Z.of_nat (String.length rest)))) + 2)
      with ((Z.of_nat (String.length rest) + 2) + 1 * 3) by lia.
    rewrite Z.div_add by lia. lia. }
  apply (H (S (String.length data))). lia.
Qed.

Section Client.
Context {W : Type}.
Variable Base Ext ToLower TrimSpace : string -> string.
Variable readFile : W -> string -> result string * W.
Variable c : VisionClient.

Lemma getBasicImageInfo_run (path data : string) :
  (len data <= 72 ->
   Vision.getBasicImageInfo Base Ext ToLower path data = Panics) /\
  (72 < len data ->
   exists info,
     Vision.getBasicImageInfo Base Ext ToLower path data = Done info /\
     prefix ("Image: " ++ Base path) info = true).
Proof.
  unfold Vision.getBasicImageInfo, Chunker.slice.
  rewrite EncodeToString_length.
  split; intros Hn.
  - replace (len data <? 1000) with true by (symmetry; apply Z.ltb_lt; lia).
    replace (100 <=? 4 * ((len data + 2) / 3)) with false; [reflexivity|].
    symmetry. apply Z.leb_gt.
    assert ((len data + 2) / 3 <= 74 / 3)
      by (apply Z.div_le_mono; lia).
    change (74 / 3) with 24 in H. lia.
  - assert (Hbig : (100 <=? 4 * ((len data + 2) / 3)) = true).
    { apply Z.leb_le.
      assert (75 / 3 <= (len data + 2) / 3) by (apply Z.div_le_mono; lia).
      change (75 / 3) with 25 in H. lia. }
    rewrite Hbig. cbn [Z.leb andb].
    destruct (len data <? 1000); eexists; (split; [reflexivity|]);
      rewrite ?append_assoc;
      rewrite <- (append_assoc "Image: " (Base path)); apply prefix_app.
Qed.

(** X9.  [AnalyzeImage] on a file it can read that is not an SVG: with 72 bytes
    or fewer the run ends in a panic, because the preview takes the first
    100 characters of an encoding that has at most 96; with more bytes it
    returns the description. *)
Theorem AnalyzeImage_small_image (imagePath data : string) (w w1 : W) :
  readFile w imagePath = (Ok data, w1) ->
  ToLower (Ext imagePath) <> ".svg" ->
  (len data <= 72 ->
   Vision.AnalyzeImage Base Ext ToLower TrimSpace readFile c imagePath w
   = Panics) /\
  (72 < len data ->
   exists info t,
     Vision.AnalyzeImage Base Ext ToLower TrimSpace readFile c imagePath w
     = Done (Ok info, w1, t) /\
     Vision.getBasicImageInfo Base Ext ToLower imagePath data = Done info /\
     Orchestrator.calls t = [OpenFile imagePath]).
Proof.
  intros Hread Hext.
  destruct (getBasicImageInfo_run imagePath data) as [Hsmall Hlarge].
  split; intros Hn.
  - unfold Vision.AnalyzeImage.
    unfold bind at 1, log at 1. unfold bind at 1, ask at 1. rewrite Hread.
    destruct (String.eqb_spec (ToLower (Ext imagePath)) ".svg");
      [contradiction|].
    rewrite (Hsmall Hn).
    destruct (String.eqb (vision_apiKey c) ""); reflexivity.
  - destruct (Hlarge Hn) as (info & Hinfo & _).
    exists info. unfold Vision.AnalyzeImage.
    unfold bind at 1, log at 1. unfold bind at 1, ask at 1. rewrite Hread.
    destruct (String.eqb_spec (ToLower (Ext imagePath)) ".svg");
      [contradiction|].
    rewrite Hinfo.
    destruct (String.eqb (vision_apiKey c) ""); eexists;
      (split; [reflexivity|]); split; auto.
Qed.

(** X10.  [AnalyzeImage] never panics on an SVG or on a file it cannot read: an
    SVG gets a description that is not empty, a failed read the wrapped
    error. *)
Theorem AnalyzeImage_svg (imagePath : string) (w : W) :
  (ToLower (Ext imagePath) = ".svg" \/
   Effects.is_ok (fst (readFile w imagePath)) = false) ->
  exists r t,
    Vision.AnalyzeImage Base Ext ToLower TrimSpace readFile c imagePath w
    = Done (r, snd (readFile w imagePath), t) /\
    match fst (readFile w imagePath) with
    | Ok data => exists description,
        r = Ok description /\ prefix "SVG Diagram" description = true
    | Fail err => r = Fail (wrapf "failed to read image" err)
    end.
Proof.
  intros H.
  unfold Vision.AnalyzeImage.
  unfold bind at 1, log at 1. unfold bind at 1, ask at 1.
  destruct (readFile w imagePath) as [[data|err] w1]; cbn [fst snd].
  - destruct H as [H|H]; [|discriminate]. rewrite H. cbn [String.eqb].
    do 2 eexists. split; [reflexivity|].
    eexists. split; [reflexivity|].
    unfold Vision.parseSVG.
    destruct (0 <? _); reflexivity.
  - do 2 eexists. split; reflexivity.
Qed.

End Client.

Lemma AnalyzeImage_small_image_witness :
  Vision.AnalyzeImage (fun p => p) (fun _ => ".png") (fun e => e) (fun s => s)
    (fun (w : unit) _ => (Ok "GIF89a", w)) {| vision_apiKey := "" |}
    "logo.png" tt
  = Panics.
Proof.
  apply (AnalyzeImage_small_image (fun p => p) (fun _ => ".png") (fun e => e)
           (fun s => s) (fun (w : unit) _ => (Ok "GIF89a", w))
           {| vision_apiKey := "" |} "logo.png" "GIF89a" tt tt eq_refl).
  - discriminate.
  - vm_compute. discriminate.
Defined.

Lemma AnalyzeImage_svg_witness :
  exists r t,
    Vision.AnalyzeImage (fun p => p) (fun _ => ".svg") (fun e => e) (fun s => s)
      (fun (w : unit) _ => (Ok "<svg><text>Gateway</text></svg>", w))
      {| vision_apiKey := "" |} "flow.svg" tt
    = Done (r, tt, t) /\
    r = Ok ("SVG Diagram Content:" ++ Vision.newline ++ "Gateway")%string.
Proof.
  destruct (AnalyzeImage_svg (fun p => p) (fun _ => ".svg") (fun e => e)
              (fun s => s)
              (fun (w : unit) _ => (Ok "<svg><text>Gateway</text></svg>", w))
              {| vision_apiKey := "" |} "flow.svg" tt (or_introl eq_refl))
    as (r & t & Hrun & _).
  exists r, t. split; [exact Hrun|].
  vm_compute in Hrun. inversion Hrun. reflexivity.
Defined.

End VisionFacts.
(** ** The orchestrator: what a run calls and writes *)

Section TraceFacts.
Import GoInt Pinecone Effects PineconeClient Orchestrator Trace.
Context {W : Type}.

Lemma calls_app (t1 t2 : list event) :
  Orchestrator.calls (t1 ++ t2)
  = Orchestrator.calls t1 ++ Orchestrator.calls t2.
Proof.
  induction t1 as [|e t1 IH]; [reflexivity|].
  destruct e; cbn; rewrite IH; reflexivity.
Qed.

Lemma bind_inv {A B : Type} (m : @M W A) (f : A -> M B) w b w2 t :
  bind m f w = Done (b, w2, t) ->
  exists a w1 t1 t2,
    m w = Done (a, w1, t1) /\ f a w1 = Done (b, w2, t2) /\ t = t1 ++ t2.
Proof.
  unfold bind. destruct (m w) as [[[a w1] t1]| |]; try discriminate.
  destruct (f a w1) as [[[b' w2'] t2]| |] eqn:Hf; try discriminate.
  intros H. inversion H; subst. exists a, w1, t1, t2. repeat split.
  exact Hf.
Qed.

Section Rules.
Variable P : call -> Prop.

Lemma emits_ret {A : Type} (a : A) (Q : A -> Prop) :
  Q a -> emits P Q (@ret W A a).
Proof.
  intros H w a' w' t Hrun. inversion Hrun; subst. split; [constructor | exact H].
Qed.

Lemma emits_bind {A B : Type} (m : @M W A) (f : A -> M B)
      (Q : A -> Prop) (R : B -> Prop) :
  emits P Q m -> (forall a, Q a -> emits P R (f a)) -> emits P R (bind m f).
Proof.
  intros Hm Hf w b w2 t Hrun.
  apply bind_inv in Hrun. destruct Hrun as (a & w1 & t1 & t2 & H1 & H2 & ->).
  destruct (Hm _ _ _ _ H1) as [Ht1 Ha].
  destruct (Hf a Ha _ _ _ _ H2) as [Ht2 Hb].
  split; [|exact Hb]. rewrite calls_app. apply Forall_app. auto.
Qed.

Lemma emits_log lvl msg fields :
  emits P (fun _ => True) (@log W lvl msg fields).
Proof.
  intros w a w' t Hrun. inversion Hrun; subst. split; [constructor | exact I].
Qed.

Lemma emits_ask {A : Type} (c : call) (ok : A -> bool) (f : W -> A * W)
      (Q : A -> Prop) :
  P c -> (forall w, Q (fst (f w))) -> emits P Q (ask c ok f).
Proof.
  intros Hc HQ w a w' t Hrun. unfold ask in Hrun. specialize (HQ w).
  destruct (f w) as [a0 w0]. inversion Hrun; subst.
  split; [repeat constructor; exact Hc | exact HQ].
Qed.

Lemma emits_attempt {A : Type} (c : call) (ok : A -> bool)
      (f : W -> outcome (A * W)) (Q : A -> Prop) :
  P c -> (forall w a w', f w = Done (a, w') -> Q a) ->
  emits P Q (attempt c ok f).
Proof.
  intros Hc HQ w a w' t Hrun. unfold attempt in Hrun.
  destruct (f w) as [[a0 w0]| |] eqn:Hf; inversion Hrun; subst.
  split; [repeat constructor; exact Hc | eapply HQ; exact Hf].
Qed.

Lemma emits_lift {A : Type} (o : outcome A) (Q : A -> Prop) :
  (forall a, o = Done a -> Q a) -> emits P Q (@lift W A o).
Proof.
  intros H w a w' t Hrun. unfold lift in Hrun.
  destruct o; inversion Hrun; subst. split; [constructor | auto].
Qed.

Lemma emits_weaken {A : Type} (m : @M W A) (Q Q' : A -> Prop) :
  emits P Q m -> (forall a, Q a -> Q' a) -> emits P Q' m.
Proof.
  intros Hm HQ w a w' t Hrun. destruct (Hm _ _ _ _ Hrun). auto.
Qed.

End Rules.

Variable dp : @DocumentProcessor W.

Lemma firstn_incl {A : Type} (a : nat) : forall l : list A,
  incl (firstn a l) l.
Proof.
  induction a as [|a IH]; intros [|x l] y Hy; cbn in Hy; try contradiction.
  destruct Hy as [<-|Hy]; [left; reflexivity | right; apply IH; exact Hy].
Qed.

Lemma firstn_skipn_incl {A : Type} (l : list A) (a b : nat) :
  incl (firstn a (skipn b l)) l.
Proof.
  intros x Hx. apply firstn_incl in Hx.
  rewrite <- (firstn_skipn b l). apply in_or_app. right. exact Hx.
Qed.

Lemma upsertLoop_emits (P : call -> Prop) (vectors : list Vector) :
  (forall req, incl (Vectors req) vectors -> P (PineconeUpsert req)) ->
  forall fuel i,
    emits P (fun r => r = None \/
                      exists e, r = Some (wrapf "failed to upsert batch" e))
          (upsertLoop (PineconeCfg (config dp)) (pineconeUpsert dp)
                      fuel vectors i).
Proof.
  intros HP. induction fuel as [|fuel IH]; intros i; cbn [upsertLoop].
  - destruct (i <? llen vectors).
    + intros w a w' t Hrun. discriminate.
    + eapply emits_bind; [apply emits_log|]. intros _ _. apply emits_ret.
      left. reflexivity.
  - destruct (i <? llen vectors).
    + eapply emits_bind with
        (Q := fun batch : list Vector => incl batch vectors).
      { apply emits_lift. intros batch Hb. unfold slice in Hb.
        destruct (_ && _); inversion Hb. apply firstn_skipn_incl. }
      intros batch Hincl.
      eapply emits_bind with (Q := fun _ => True).
      { apply emits_ask; [apply HP; exact Hincl | auto]. }
      intros [err|] _; [apply emits_ret; right; eexists; reflexivity|].
      eapply emits_bind; [apply emits_log|]. intros _ _. apply IH.
    + eapply emits_bind; [apply emits_log|]. intros _ _. apply emits_ret.
      left. reflexivity.
Qed.

Lemma UpsertVectors_emits (P : call -> Prop) (vectors : list Vector) :
  (forall req, incl (Vectors req) vectors -> P (PineconeUpsert req)) ->
  emits P (fun r => r = None \/
                    exists e, r = Some (wrapf "failed to upsert batch" e))
        (UpsertVectors (PineconeCfg (config dp)) (pineconeUpsert dp) vectors).
Proof.
  intros HP. unfold UpsertVectors.
  destruct (llen vectors =? 0); [apply emits_ret; left; reflexivity|].
  eapply emits_bind; [apply emits_log|]. intros _ _.
  apply upsertLoop_emits. exact HP.
Qed.

Lemma CheckDocumentExists_emits (P : call -> Prop) (fileHash : string) :
  P (PineconeQuery (exists_request (PineconeCfg (config dp)) fileHash)) ->
  emits P (fun r => snd r = None)
        (CheckDocumentExists (PineconeCfg (config dp)) (pineconeQuery dp)
                             fileHash).
Proof.
  intros HP. unfold CheckDocumentExists.
  eapply emits_bind; [apply emits_log|]. intros _ _.
  eapply emits_bind with
    (Q := fun v => v = repeat 0 (Z.to_nat (Dimension (PineconeCfg (config dp))))).
  { apply emits_lift. intros v Hv. unfold make in Hv.
    destruct (_ <? 0); inversion Hv. reflexivity. }
  intros v ->. 
  eapply emits_bind with (Q := fun _ => True).
  { unfold QueryVectors.
    eapply emits_bind; [apply emits_log|]. intros _ _.
    eapply emits_bind with (Q := fun _ => True).
    { apply emits_ask; [exact HP | auto]. }
    intros [matches|err] _; [|apply emits_ret; exact I].
    eapply emits_bind; [apply emits_log|]. intros _ _. apply emits_ret. exact I. }
  intros [matches|err] _;
    (eapply emits_bind; [apply emits_log|]); intros _ _; apply emits_ret;
    reflexivity.
Qed.

Section File.
Variable filePath : string.

Lemma calculateFileHash_emits :
  emits (permitted dp filePath) (fun _ => True) (calculateFileHash dp filePath).
Proof.
  unfold calculateFileHash, observe. apply emits_ask; [reflexivity | auto].
Qed.

Lemma alreadyIndexed_emits (fileHash : string) :
  emits (permitted dp filePath) (fun _ => True) (alreadyIndexed dp fileHash).
Proof.
  unfold alreadyIndexed.
  destruct (SkipExistingDocuments (config dp)) eqn:Hskip;
    [|apply emits_ret; exact I].
  eapply emits_bind.
  { apply CheckDocumentExists_emits. split; [exact Hskip|].
    exists fileHash. reflexivity. }
  intros [b [e|]] _; [|apply emits_ret; exact I].
  eapply emits_bind; [apply emits_log|]. intros _ _. apply emits_ret. exact I.
Qed.

Hypothesis Hvalid : validated (config dp).
Hypothesis Hsmall : texts_small dp.

Lemma extractWith_emits (ext : string) : forall ps,
  incl ps (processors dp) ->
  emits (permitted dp filePath) (fun r => forall text, r = Ok text -> small text)
        (extractWith ps ext filePath).
Proof.
  induction ps as [|p ps IH]; intros Hin; cbn [extractWith].
  - apply emits_ret. discriminate.
  - destruct (CanProcess p ext).
    + apply emits_ask; [reflexivity|].
      intros w text Htext.
      destruct (Extract p w filePath) as [r w'] eqn:Hx. cbn in Htext. subst r.
      destruct Hsmall as [Hs _]. eapply Hs; [|exact Hx].
      apply Hin. left. reflexivity.
    + apply IH. intros x Hx. apply Hin. right. exact Hx.
Qed.

Lemma analyzeVisual_emits :
  emits (permitted dp filePath) small (analyzeVisual dp filePath).
Proof.
  assert (Hempty : small "") by (vm_compute; reflexivity).
  unfold analyzeVisual.
  destruct (visionClient dp) as [analyze|] eqn:Hv; [|apply emits_ret; exact Hempty].
  destruct (isImageFile dp filePath) eqn:Himg; [|apply emits_ret; exact Hempty].
  eapply emits_bind with
    (Q := fun r => forall text, r = Ok text -> small text).
  { apply emits_attempt.
    - split; [reflexivity|]. split; [exact Himg|]. rewrite Hv. discriminate.
    - intros w r w' Hx text ->.
      destruct Hsmall as [_ Hs]. eapply Hs; [exact Hv | exact Hx]. }
  intros [text|err] Hr.
  - apply emits_ret. apply Hr. reflexivity.
  - eapply emits_bind; [apply emits_log|]. intros _ _. apply emits_ret.
    exact Hempty.
Qed.

Lemma summarize_emits (text : string) :
  text <> "" -> emits (permitted dp filePath) (fun _ => True) (summarize dp text).
Proof.
  intros Hne. unfold summarize.
  eapply emits_bind with (Q := fun _ => True).
  { apply emits_ask; [exact Hne | auto]. }
  intros [summary|err] _; [apply emits_ret; exact I|].
  eapply emits_bind; [apply emits_log|]. intros _ _. apply emits_ret. exact I.
Qed.

Lemma embedChunks_emits (docID fileHash summary : string) (total : Z) :
  forall (chunks : list string) (i : Z) (vectors : list Vector),
  Forall (fun c => c <> "" /\ len c <= ChunkSize (config dp)) chunks ->
  Forall (owned filePath) vectors ->
  emits (permitted dp filePath) (Forall (owned filePath))
        (embedChunks dp docID filePath fileHash summary total i chunks vectors).
Proof.
  induction chunks as [|chunk rest IH]; intros i vectors Hc Hv;
    cbn [embedChunks].
  - apply emits_ret. exact Hv.
  - inversion Hc as [|? ? Hchunk Hrest]; subst.
    eapply emits_bind with (Q := fun _ => True).
    { apply emits_ask; [exact Hchunk | auto]. }
    intros [emb|embErr] _.
    + eapply emits_bind with (Q := fun _ => True).
      { apply emits_ask; [exact I | auto]. }
      intros now _. apply IH; [exact Hrest|].
      apply Forall_app. split; [exact Hv|]. repeat constructor.
    + eapply emits_bind; [apply emits_log|]. intros _ _.
      apply IH; assumption.
Qed.

Lemma store_emits (vectors : list Vector) :
  Forall (owned filePath) vectors ->
  emits (permitted dp filePath) reported (store dp filePath vectors).
Proof.
  intros Hv. unfold store.
  destruct (0 <? llen vectors); [|apply emits_ret; left; reflexivity].
  eapply emits_bind.
  { apply UpsertVectors_emits. intros req Hincl.
    apply Forall_forall. intros v Hin.
    eapply Forall_forall in Hv; [exact Hv|]. apply Hincl. exact Hin. }
  intros [err|] Herr.
  - apply emits_ret. destruct Herr as [Herr|[e Herr]]; [discriminate|].
    inversion Herr; subst. do 4 right. eexists. reflexivity.
  - eapply emits_bind; [apply emits_log|]. intros _ _. apply emits_ret.
    left. reflexivity.
Qed.

Lemma nonempty_append (s t : string) : s <> "" -> (s ++ t)%string <> "".
Proof. destruct s; [contradiction | discriminate]. Qed.

Lemma indexFile_emits (fileHash : string) :
  emits (permitted dp filePath) reported (indexFile dp filePath fileHash).
Proof.
  unfold indexFile, extractContent.
  eapply emits_bind.
  { apply extractWith_emits. apply incl_refl. }
  intros [content|err] Hcontent;
    [|apply emits_ret; do 3 right; left; eexists; reflexivity].
  specialize (Hcontent content eq_refl).
  destruct (String.eqb_spec content "") as [|Hne].
  { eapply emits_bind; [apply emits_log|]. intros _ _. apply emits_ret.
    left. reflexivity. }
  eapply emits_bind; [apply analyzeVisual_emits|].
  intros visualContent Hvisual. cbv zeta.
  set (combinedContent :=
         if String.eqb visualContent "" then content
         else (content ++ String LF (String LF "") ++ visualContent)%string).
  assert (Hcne : combinedContent <> "").
  { subst combinedContent. destruct (String.eqb visualContent "");
      [exact Hne | apply nonempty_append; exact Hne]. }
  assert (Hmem : in_memory combinedContent).
  { subst combinedContent. unfold in_memory, small, max_len, len in *.
    destruct (String.eqb visualContent ""); [lia|].
    rewrite !length_append. cbn [String.length].
    change (2 ^ 62) with (2 ^ 61 + 2 ^ 61). lia. }
  eapply emits_bind; [apply summarize_emits; exact Hcne|].
  intros summary _.
  destruct Hvalid as (Hs & Ho1 & Ho2 & _).
  eapply emits_bind with
    (Q := fun chunks =>
            Forall (fun c => c <> "" /\ len c <= ChunkSize (config dp)) chunks).
  { apply emits_lift. intros chunks Hrun.
    destruct (chunkText_sized combinedContent (ChunkSize (config dp))
                (ChunkOverlap (config dp)) Hmem ltac:(lia))
      as (chunks' & Hrun' & Hall).
    rewrite Hrun in Hrun'. inversion Hrun'; subst chunks'.
    eapply Forall_impl; [|exact Hall]. cbv beta. intros c [Hle Hpos].
    split; [|exact Hle]. intros ->. specialize (Hpos Hcne).
    unfold len in Hpos. cbn in Hpos. lia. }
  intros chunks Hchunks.
  eapply emits_bind with (Q := fun _ => True).
  { apply emits_ask; [exact I | auto]. }
  intros docID _. unfold embedAndStore.
  eapply emits_bind.
  { apply embedChunks_emits; [exact Hchunks | constructor]. }
  intros vectors Hv. apply store_emits. exact Hv.
Qed.

Lemma processFile_emits :
  emits (permitted dp filePath) reported (processFile dp filePath).
Proof.
  unfold processFile.
  eapply emits_bind; [apply calculateFileHash_emits|].
  intros [fileHash|err] _;
    [|apply emits_ret; do 2 right; left; eexists; reflexivity].
  eapply emits_bind; [apply alreadyIndexed_emits|].
  intros [|] _; [apply emits_ret; right; left; reflexivity
                | apply indexFile_emits].
Qed.

End File.

(** X11.  Under a validated configuration, every run of [processFile]
    that returns has made only calls it may make for its file: it opens and
    extracts no other file, asks the index only when skipping is switched
    on, looks at the image only of an image file and only with a vision
    client, walks no directory, sends the summariser and the embedder no
    empty text and the embedder no text longer than the chunk size, and
    writes only vectors of this file.  The run does return when the image
    analysis returns. *)
Theorem processFile_confined (filePath : string) (w : W) :
  validated (config dp) -> texts_small dp ->
  (forall r w' t,
     processFile dp filePath w = Done (r, w', t) ->
     Forall (permitted dp filePath) (Orchestrator.calls t) /\
     (SkipExistingDocuments (config dp) = false ->
      forall req, ~ In (PineconeQuery req) (Orchestrator.calls t)) /\
     (visionClient dp = None \/ isImageFile dp filePath = false ->
      forall path, ~ In (AnalyzeImage path) (Orchestrator.calls t))) /\
  (analysis_returns dp ->
   exists r w' t, processFile dp filePath w = Done (r, w', t)).
Proof.
  intros Hvalid Hsmall. split.
  - intros r w' t Hrun.
    destruct (processFile_emits filePath Hvalid Hsmall _ _ _ _ Hrun)
      as [Hall _].
    split; [exact Hall|].
    rewrite Forall_forall in Hall. split.
    + intros Hoff req Hin. apply Hall in Hin.
      destruct Hin as [Hon _]. congruence.
    + intros Hno path Hin. apply Hall in Hin.
      change (path = filePath /\ isImageFile dp filePath = true /\
              visionClient dp <> None) in Hin.
      destruct Hin as (_ & Himg & Hclient). destruct Hno; congruence.
  - intros Hvision.
    destruct (processFile_returns dp Hvalid Hsmall Hvision filePath w)
      as (r & w' & t & Hrun & _).
    exists r, w', t. exact Hrun.
Qed.

(** X12.  Under a validated configuration, a run of [processFile] that
    returns, returns [nil], the notice that the file is already indexed,
    or the wrapped error of the hashing, of the extraction or of the write
    to the index, and nothing else: a failure of the check against the
    index, of the image analysis, of the summariser or of the embedder is
    never returned as an error.  The run does return when the image
    analysis returns. *)
Theorem processFile_reports (filePath : string) (w : W) :
  validated (config dp) -> texts_small dp ->
  (forall r w' t, processFile dp filePath w = Done (r, w', t) -> reported r) /\
  (analysis_returns dp ->
   exists r w' t, processFile dp filePath w = Done (r, w', t)).
Proof.
  intros Hvalid Hsmall. split.
  - intros r w' t Hrun.
    exact (proj2 (processFile_emits filePath Hvalid Hsmall _ _ _ _ Hrun)).
  - intros Hvision.
    destruct (processFile_returns dp Hvalid Hsmall Hvision filePath w)
      as (r & w' & t & Hrun & _).
    exists r, w', t. exact Hrun.
Qed.

End TraceFacts.

Lemma gallery_validated disk names :
  Orchestrator.validated (Orchestrator.config (Gallery.processor disk names)).
Proof. unfold Orchestrator.validated. cbn. lia. Qed.

Lemma gallery_texts_small names :
  Orchestrator.texts_small (Gallery.processor Gallery.drawings names).
Proof.
  split.
  - intros p w path text w' [<-|[]] Hx. cbn in Hx.
    unfold Gallery.read in Hx.
    destruct (Demo.lookup path Gallery.drawings) as [bytes|] eqn:Hl;
      [|discriminate].
    cbn in Hl. destruct (String.eqb_spec path "data/flow.svg");
      [|discriminate].
    subst path. inversion Hx; subst. vm_compute. reflexivity.
  - intros analyze w path text w' Hv Hx. cbn in Hv. inversion Hv; subst.
    unfold Vision.analyze, Vision.AnalyzeImage, Effects.bind, Effects.log,
      Effects.ask, Gallery.read in Hx.
    cbn [Demo.lookup Gallery.drawings] in Hx.
    destruct (String.eqb_spec path "data/flow.svg"); [|discriminate].
    subst path. vm_compute in Hx. inversion Hx; subst.
    vm_compute. reflexivity.
Qed.

Lemma gallery_analysis_returns names :
  Orchestrator.analysis_returns (Gallery.processor Gallery.drawings names).
Proof.
  intros analyze w path Hv _. cbn in Hv. inversion Hv; subst.
  unfold Vision.analyze, Vision.AnalyzeImage, Effects.bind, Effects.log,
    Effects.ask, Gallery.read.
  cbn [Demo.lookup Gallery.drawings].
  destruct (String.eqb_spec path "data/flow.svg").
  - subst path. vm_compute. eauto.
  - cbn. eauto.
Qed.

Lemma processFile_reports_witness :
  let dp := Gallery.processor Gallery.drawings ["flow.svg"] in
  exists r w' t,
    Orchestrator.processFile dp "data/flow.svg" (Demo.start [])
    = Done (r, w', t) /\
    Trace.reported r.
Proof.
  intros dp.
  destruct (processFile_reports dp "data/flow.svg" (Demo.start [])
              (gallery_validated _ _) (gallery_texts_small _))
    as [Hpart Htotal].
  destruct (Htotal (gallery_analysis_returns _)) as (r & w' & t & Hrun).
  exists r, w', t. split; [exact Hrun | exact (Hpart _ _ _ Hrun)].
Defined.

Lemma processFile_confined_witness :
  let dp := Gallery.processor Gallery.drawings ["flow.svg"] in
  exists r w' t,
    Orchestrator.processFile dp "data/flow.svg" (Demo.start [])
    = Done (r, w', t) /\
    Forall (Trace.permitted dp "data/flow.svg") (Orchestrator.calls t) /\
    In (Effects.AnalyzeImage "data/flow.svg") (Orchestrator.calls t).
Proof.
  intros dp.
  destruct (processFile_confined dp "data/flow.svg" (Demo.start [])
              (gallery_validated _ _) (gallery_texts_small _))
    as [Hpart Htotal].
  destruct (Htotal (gallery_analysis_returns _)) as (r & w' & t & Hrun).
  exists r, w', t. split; [exact Hrun|].
  split; [exact (proj1 (Hpart _ _ _ Hrun))|].
  vm_compute in Hrun. inversion Hrun; subst. cbn. tauto.
Defined.

(** ** The orchestrator: identifiers, counters, dispatch *)

Section OrchestratorMore.
Import GoInt Pinecone Effects PineconeClient Orchestrator Trace.
Context {W : Type}.
Variable dp : @DocumentProcessor W.

Lemma append_cancel (s a b : string) :
  (s ++ a)%string = (s ++ b)%string -> a = b.
Proof.
  induction s as [|ch s IH]; cbn; intros H; [exact H|].
  inversion H. auto.
Qed.

Lemma to_uint_nonnil (n : N) : N.to_uint n <> Decimal.Nil.
Proof.
  intros H. pose proof (DecimalN.Unsigned.of_to n) as Hn.
  rewrite H in Hn. cbn in Hn. subst n. discriminate.
Qed.

Lemma decimal_inj (i j : Z) :
  0 <= i -> 0 <= j -> decimal i = decimal j -> i = j.
Proof.
  unfold decimal. intros Hi Hj H.
  assert (Hu : N.to_uint (Z.to_N i) = N.to_uint (Z.to_N j)).
  { pose proof (NilZero.usu _ (to_uint_nonnil (Z.to_N i))) as H1.
    pose proof (NilZero.usu _ (to_uint_nonnil (Z.to_N j))) as H2.
    rewrite H in H1. rewrite H1 in H2. inversion H2. reflexivity. }
  apply (f_equal N.of_uint) in Hu.
  rewrite !DecimalN.Unsigned.of_to in Hu. lia.
Qed.

Lemma NoDup_firstn {A : Type} (n : nat) : forall l : list A,
  NoDup l -> NoDup (firstn n l).
Proof.
  induction n as [|n IH]; intros [|x l] H; cbn; try constructor.
  - inversion H; subst. intros Hin. apply firstn_incl in Hin. contradiction.
  - inversion H; subst. apply IH. assumption.
Qed.

Lemma Forall_firstn {A : Type} (P : A -> Prop) (n : nat) (l : list A) :
  Forall P l -> Forall P (firstn n l).
Proof.
  rewrite !Forall_forall. intros H x Hx. apply H.
  apply (firstn_incl n l). exact Hx.
Qed.

(** What [embedChunks] adds: vectors whose chunk indices grow, from [i]
    on. *)
Lemma embedChunks_labels (docID filePath fileHash summary : string)
      (total : Z) :
  forall (chunks : list string) (i : Z) (vectors : list Vector) (w : W),
  0 <= i ->
  i + llen chunks <= total ->
  exists vs w1 t,
    embedChunks dp docID filePath fileHash summary total i chunks vectors w
    = Done (vectors ++ vs, w1, t) /\
    writes t = [] /\
    NoDup (map ID vs) /\
    Forall (labelled docID fileHash summary total) vs /\
    Forall (fun v => exists j, i <= j /\
              ID v = (docID ++ "-chunk-" ++ decimal j)%string) vs.
Proof.
  induction chunks as [|chunk rest IH]; intros i vectors w Hi Hle.
  - exists [], w, []. cbn. rewrite app_nil_r.
    repeat split; constructor.
  - assert (Hrest : i + 1 + llen rest <= total)
      by (unfold llen in *; cbn [List.length] in Hle; lia).
    cbn [embedChunks]. unfold bind at 1. unfold ask at 1.
    destruct (azureEmbedding dp w chunk) as [[emb|embErr] w1].
    + unfold bind at 1. unfold ask at 1.
      destruct (timeNowUnix dp w1) as [now w2].
      set (v := newVector dp docID filePath fileHash summary chunk i total
                          emb now).
      destruct (IH (i + 1) (vectors ++ [v]) w2 ltac:(lia) Hrest)
        as (vs & w3 & t & Hrun & Hwr & Hnd & Hlab & Hids).
      rewrite Hrun.
      exists (v :: vs), w3,
        ([Called (GenerateEmbedding chunk) (is_ok (Ok emb))]
           ++ [Called TimeNow true] ++ t).
      split; [rewrite <- app_assoc; reflexivity|].
      split; [cbn; exact Hwr|].
      split; [|split].
      * cbn [map]. constructor; [|exact Hnd].
        intros Hin. apply in_map_iff in Hin.
        destruct Hin as (v' & Hid & Hv').
        eapply Forall_forall in Hids; [|exact Hv'].
        destruct Hids as (j & Hj & Hidj).
        rewrite Hidj in Hid. subst v. cbn [ID newVector] in Hid.
        apply append_cancel in Hid. apply append_cancel in Hid.
        apply decimal_inj in Hid; lia.
      * constructor; [|exact Hlab].
        subst v. unfold labelled. cbn.
        repeat split. exists i. repeat split; unfold llen in *; lia.
      * constructor.
        -- exists i. split; [lia | reflexivity].
        -- eapply Forall_impl; [|exact Hids].
           intros v' (j & Hj & Hidj). exists j. split; [lia | exact Hidj].
    + unfold bind at 1. cbn [log].
      destruct (IH (i + 1) vectors w1 ltac:(lia) Hrest)
        as (vs & w3 & t & Hrun & Hwr & Hnd & Hlab & Hids).
      rewrite Hrun.
      exists vs, w3,
        ([Called (GenerateEmbedding chunk)
                 (is_ok (@Fail (list float32) embErr))]
           ++ [Log ErrorLevel "Failed to generate embedding"
                   [("chunk", VInt i); ("error", VError embErr)]] ++ t).
      split; [reflexivity|].
      split; [cbn; exact Hwr|].
      split; [exact Hnd|]. split; [exact Hlab|].
      eapply Forall_impl; [|exact Hids].
      intros v' (j & Hj & Hidj). exists j. split; [lia | exact Hidj].
Qed.

Lemma written_combine (vectors : list Vector) (flags : list bool) :
  exists n,
    List.concat (map fst (combine (batches vectors) flags))
    = firstn n vectors.
Proof.
  exists (100 * Nat.min (List.length flags) (batch_count vectors))%nat.
  assert (Hmap : map fst (combine (batches vectors) flags)
                 = firstn (List.length flags) (batches vectors)).
  { generalize (batches vectors). intros bs. revert bs.
    induction flags as [|f flags IH]; intros [|b bs]; cbn; try reflexivity.
    rewrite IH. reflexivity. }
  rewrite Hmap. unfold batches. rewrite firstn_map.
  destruct (Nat.le_gt_cases (List.length flags) (batch_count vectors)) as [H|H].
  - rewrite firstn_seq_le by exact H.
    rewrite concat_batches_from. cbn [skipn Nat.mul].
    rewrite Nat.min_l by exact H. reflexivity.
  - rewrite firstn_all2 by (rewrite length_seq; lia).
    rewrite concat_batches_from. cbn [skipn Nat.mul].
    rewrite Nat.min_r by lia. reflexivity.
Qed.

(** X13.  The vectors that [processFile] writes for a document have pairwise
    different identifiers, so that no write of the document replaces
    another; each carries the identifier of the document, the hash of the
    file, the summary, the number of chunks the text was cut into, and the
    index of its chunk, which is below that number. *)
Theorem embedAndStore_labels (filePath fileHash summary docID : string)
        (chunks : list string) (w : W) :
  llen chunks <= max_len ->
  exists r w' t,
    embedAndStore dp filePath fileHash summary docID chunks w
    = Done (r, w', t) /\
    NoDup (map ID (written t)) /\
    Forall (labelled docID fileHash summary (llen chunks)) (written t).
Proof.
  intros Hmem.
  destruct (embedChunks_labels docID filePath fileHash summary (llen chunks)
              chunks 0 [] w ltac:(lia) ltac:(lia))
    as (vectors & w1 & t1 & Hrun & Hwr & Hnd & Hlab & _).
  cbn [app] in Hrun.
  destruct (embedChunks_run dp docID filePath fileHash summary (llen chunks)
              chunks 0 [] w)
    as (vectors' & w1' & t1' & Hrun' & _ & _ & _ & Hlen).
  cbn [app] in Hrun'. rewrite Hrun in Hrun'. inversion Hrun'; subst.
  assert (Hvm : llen vectors' <= max_len) by (unfold llen in *; lia).
  destruct (store_run dp filePath vectors' w1' Hvm)
    as (r & w2 & t2 & flags & Hstore & Hw & _).
  exists r, w2, (t1' ++ t2).
  split; [unfold embedAndStore; eapply bind_Done; eassumption|].
  unfold written. rewrite writes_app, Hwr, Hw. cbn [app].
  destruct (written_combine vectors' flags) as [n ->].
  split.
  - rewrite <- firstn_map. apply NoDup_firstn. exact Hnd.
  - apply Forall_firstn. exact Hlab.
Qed.

Lemma iterates_counts (total : Z) :
  forall i paths w c t c' w',
  iterates dp total i paths w c t c' w' ->
  0 <= successCount c -> 0 <= skipCount c -> 0 <= errorCount c ->
  successCount c + skipCount c + errorCount c + llen paths <= max_int ->
  successCount c <= successCount c' /\
  skipCount c <= skipCount c' /\
  errorCount c <= errorCount c' /\
  successCount c' + skipCount c' + errorCount c'
  = successCount c + skipCount c + errorCount c + llen paths.
Proof.
  intros i paths w c t c' w' H.
  induction H as [i w c | i file rest w c r w1 t1 t2 c' w2 Hrun Hit IH];
    intros H1 H2 H3 Hsum.
  - unfold llen. cbn. lia.
  - assert (Hlen : llen (file :: rest) = llen rest + 1)
      by (unfold llen; cbn [List.length]; lia).
    rewrite Hlen in *.
    pose proof (llen_nonneg rest) as Hr.
    assert (Hc : successCount (count (verdict_of r) c)
                 + skipCount (count (verdict_of r) c)
                 + errorCount (count (verdict_of r) c)
                 = successCount c + skipCount c + errorCount c + 1 /\
                 successCount c <= successCount (count (verdict_of r) c) /\
                 skipCount c <= skipCount (count (verdict_of r) c) /\
                 errorCount c <= errorCount (count (verdict_of r) c)).
    { unfold max_int, add in *.
      destruct (verdict_of r); cbn [count successCount skipCount errorCount];
        unfold add; rewrite wrap_small by (unfold min_int, max_int; lia); lia. }
    destruct Hc as (Hc & Hs1 & Hs2 & Hs3).
    specialize (IH ltac:(lia) ltac:(lia) ltac:(lia) ltac:(lia)). lia.
Qed.

(** X14.  When the scan succeeds and the image analysis returns on every
    image, the run over the directory ends with the entry [Directory
    processing complete], and the three numbers it reports add up to the
    number of files found: every file is counted exactly once, as
    processed, skipped or failed. *)
Theorem ProcessDirectory_counts (directory : string) (w : W)
        (paths : list string) :
  validated (config dp) -> texts_small dp -> analysis_returns dp ->
  (let '(name, root) := tree dp w directory in
   Scanner.scanDirectory directory name root) = (paths, None) ->
  llen paths <= max_len ->
  exists t c w',
    ProcessDirectory dp directory w
    = Done (None, w',
            t ++ [Log InfoLevel "Directory processing complete"
                      [("total_files", VInt (llen paths));
                       ("processed", VInt (successCount c));
                       ("skipped", VInt (skipCount c));
                       ("errors", VInt (errorCount c))]]) /\
    0 <= successCount c /\ 0 <= skipCount c /\ 0 <= errorCount c /\
    successCount c + skipCount c + errorCount c = llen paths.
Proof.
  intros Hvalid Hsmall Hvision Hscan Hmem.
  destruct (processFiles_iterates dp Hvalid Hsmall Hvision (llen paths) paths 0
              {| successCount := 0; skipCount := 0; errorCount := 0 |} w)
    as (t & c & w' & Hit & Hrun).
  apply iterates_counts in Hit; cbn [successCount skipCount errorCount];
    try lia; [|unfold max_len, max_int in *; lia].
  cbn [successCount skipCount errorCount] in Hit.
  exists (Log InfoLevel "Starting directory processing"
              [("directory", VString directory)]
          :: Called (WalkTree directory) true
          :: Log InfoLevel "Found files" [("count", VInt (llen paths))]
          :: t), c, w'.
  split; [|lia].
  unfold ProcessDirectory, scanDirectory, observe, ask, bind, log.
  destruct (tree dp w directory) as [name root].
  rewrite Hscan, Hrun. reflexivity.
Qed.

Lemma Contains_append (a b s : string) :
  Contains b s = true -> Contains (a ++ b) s = true.
Proof.
  intros H. induction a as [|ch a IH]; [exact H|].
  cbn [append Contains]. rewrite IH. apply orb_true_r.
Qed.

(** X15.  A file that cannot be opened is counted as skipped, and logged as
    already indexed, when the message of the error happens to contain the
    words [already indexed] (the message of a failed [os.Open] holds the
    path): the index was not asked, and the error counter stays as it
    was. *)
Theorem open_failure_counted_as_skip (filePath : string) (w : W)
        (err : error) :
  Hasher.calculateFileHash (files dp w) filePath = Fail err ->
  Contains (Error err) "already indexed" = true ->
  processFile dp filePath w
  = Done (Some (wrapf "failed to calculate hash" err), w,
          [Called (OpenFile filePath) false]) /\
  forall total i rest c,
    processFiles dp total i (filePath :: rest) c w
    = after [opening total i filePath;
             Called (OpenFile filePath) false;
             Log InfoLevel "Skipped already-indexed file"
                 [("file", VString filePath)]]
            (processFiles dp total (i + 1) rest
               {| successCount := successCount c;
                  skipCount := add (skipCount c) 1;
                  errorCount := errorCount c |} w).
Proof.
  intros Hhash Hmsg.
  assert (Hrun : processFile dp filePath w
                 = Done (Some (wrapf "failed to calculate hash" err), w,
                         [Called (OpenFile filePath) false])).
  { unfold processFile, calculateFileHash, observe, ask, bind.
    rewrite Hhash. reflexivity. }
  split; [exact Hrun|].
  intros total i rest c.
  rewrite (processFiles_step dp total i filePath rest c w w _ _ Hrun).
  assert (Hc : Contains (Error (wrapf "failed to calculate hash" err))
                        "already indexed" = true).
  { unfold wrapf. cbn [Error].
    apply Contains_append. apply Contains_append. exact Hmsg. }
  unfold closing, verdict_of. rewrite Hc. reflexivity.
Qed.

(** X16.  [extractContent] hands the file to the first processor that accepts
    its extension, and to that one only: what this processor returns is the
    result, also when it fails and a later processor accepts the extension
    too.  When no processor accepts the extension, the result is an error
    that names it, and no processor is run. *)
Theorem extractContent_dispatch (filePath : string) (w : W) :
  (forall ps1 p ps2,
     processors dp = ps1 ++ p :: ps2 ->
     Forall (fun q => CanProcess q (Ext dp filePath) = false) ps1 ->
     CanProcess p (Ext dp filePath) = true ->
     extractContent dp filePath w
     = Done (fst (Extract p w filePath), snd (Extract p w filePath),
             [Called (ExtractFile filePath)
                     (is_ok (fst (Extract p w filePath)))])) /\
  (Forall (fun q => CanProcess q (Ext dp filePath) = false) (processors dp) ->
   extractContent dp filePath w
   = Done (Fail (Errorf ("no processor found for file type: "
                         ++ Ext dp filePath)), w, [])).
Proof.
  unfold extractContent. split.
  - intros ps1 p ps2 -> Hno Hyes.
    induction Hno as [|q ps1 Hq Hno IH]; cbn [app extractWith].
    + rewrite Hyes. unfold ask.
      destruct (Extract p w filePath) as [r w']. reflexivity.
    + rewrite Hq. exact IH.
  - intros Hno.
    induction Hno as [|q ps Hq Hno IH]; cbn [extractWith];
      [reflexivity | rewrite Hq; exact IH].
Qed.

(** X17.  [CheckDocumentExists] never returns an error.  With a dimension that
    is not negative it sends one query and answers [true] exactly when the
    query comes back with at least one match, whatever the match holds; a
    query that fails is answered [false].  With a negative dimension it
    panics before anything is sent. *)
Theorem CheckDocumentExists_answer (config : PineconeConfig)
        (query : W -> QueryRequest -> result (list Match) * W)
        (fileHash : string) (w : W) :
  (Dimension config < 0 ->
   CheckDocumentExists config query fileHash w = Panics) /\
  (0 <= Dimension config ->
   exists t,
     CheckDocumentExists config query fileHash w
     = Done ((match fst (query w (exists_request config fileHash)) with
              | Ok (_ :: _) => true
              | _ => false
              end, None),
             snd (query w (exists_request config fileHash)), t) /\
     Orchestrator.calls t = [PineconeQuery (exists_request config fileHash)]).
Proof.
  split.
  - intros Hneg. unfold CheckDocumentExists, make, bind, log, lift.
    destruct (Z.ltb_spec (Dimension config) 0); [reflexivity | lia].
  - intros Hdim.
    destruct (query w (exists_request config fileHash)) as [r w1] eqn:Hq.
    destruct (CheckDocumentExists_run config query fileHash w w1 r Hdim Hq)
      as (t & Hrun & Hcalls & _).
    exists t. split; [exact Hrun | exact Hcalls].
Qed.

End OrchestratorMore.

Lemma embedAndStore_labels_witness :
  let dp := Demo.demo ["a.txt"] true 1000 200 in
  exists r w' t,
    Orchestrator.embedAndStore dp "data/a.txt" Demo.hash_a "a summary" "doc"
      ["alpha"; "beta"] (Demo.start [])
    = Done (r, w', t) /\
    map Pinecone.ID (Trace.written t) = ["doc-chunk-0"; "doc-chunk-1"].
Proof.
  intros dp.
  destruct (embedAndStore_labels dp "data/a.txt" Demo.hash_a "a summary" "doc"
              ["alpha"; "beta"] (Demo.start []))
    as (r & w' & t & Hrun & _).
  { vm_compute. discriminate. }
  exists r, w', t. split; [exact Hrun|].
  vm_compute in Hrun. inversion Hrun. reflexivity.
Defined.

Lemma ProcessDirectory_counts_witness :
  let dp := Gallery.processor Gallery.drawings ["flow.svg"] in
  exists t c w',
    Orchestrator.ProcessDirectory dp "data" (Demo.start [])
    = Done (None, w',
            t ++ [Effects.Log Effects.InfoLevel "Directory processing complete"
                      [("total_files", VInt 1);
                       ("processed", VInt (Orchestrator.successCount c));
                       ("skipped", VInt (Orchestrator.skipCount c));
                       ("errors", VInt (Orchestrator.errorCount c))]]) /\
    Orchestrator.successCount c + Orchestrator.skipCount c
    + Orchestrator.errorCount c = 1.
Proof.
  intros dp.
  destruct (ProcessDirectory_counts dp "data" (Demo.start [])
              ["data/flow.svg"]
              (gallery_validated _ _) (gallery_texts_small _)
              (gallery_analysis_returns _) eq_refl)
    as (t & c & w' & Hrun & _ & _ & _ & Hsum).
  { vm_compute. discriminate. }
  exists t, c, w'. split; [exact Hrun | exact Hsum].
Defined.

Lemma open_failure_counted_as_skip_witness :
  Orchestrator.processFile Unreadable.processor "data/already indexed/a.txt"
    (Demo.start [])
  = Done (Some (wrapf "failed to calculate hash"
                      (Errorf Unreadable.message)),
          Demo.start [],
          [Effects.Called (Effects.OpenFile "data/already indexed/a.txt")
                          false]).
Proof.
  apply (open_failure_counted_as_skip Unreadable.processor
           "data/already indexed/a.txt" (Demo.start [])
           (Errorf Unreadable.message)); reflexivity.
Defined.
(** ** Hashes and the helpers of package [utils] *)

Section HashFacts.
Import GoInt Hasher.

Lemma Copy_failure (r : reads) : forall h : digest,
  content r = None -> exists h' msg, Copy h r = (h', Some (Errorf msg)).
Proof.
  induction r as [|msg|data rest IH]; intros h Hc; cbn in *.
  - discriminate.
  - exists h, msg. reflexivity.
  - destruct (content rest) as [c|] eqn:Hrest; [discriminate|].
    apply IH. reflexivity.
Qed.

Lemma hex_digit_inj (a b : Z) :
  0 <= a < 16 -> 0 <= b < 16 -> hex_digit a = hex_digit b -> a = b.
Proof.
  intros Ha Hb.
  assert (Hx : exists n, (n < 16)%nat /\ a = Z.of_nat n)
    by (exists (Z.to_nat a); lia).
  assert (Hy : exists m, (m < 16)%nat /\ b = Z.of_nat m)
    by (exists (Z.to_nat b); lia).
  destruct Hx as (n & Hn & ->). destruct Hy as (m & Hm & ->).
  unfold hex_digit. rewrite !Nat2Z.id. intros H. f_equal.
  do 16 (destruct n as [|n]; [do 16 (destruct m as [|m];
           [first [reflexivity | discriminate H]|]); lia|]).
  lia.
Qed.

Lemma hex_inj : forall a b : list Z,
  Forall (fun x => 0 <= x < 256) a -> Forall (fun x => 0 <= x < 256) b ->
  hex a = hex b -> a = b.
Proof.
  induction a as [|x a IH]; intros [|y b] Ha Hb H; cbn in H;
    try reflexivity; try discriminate.
  inversion Ha as [|? ? Hx Ha']; subst. inversion Hb as [|? ? Hy Hb']; subst.
  injection H as Hd Hm Hrest.
  apply hex_digit_inj in Hd;
    [|split; [apply Z.div_pos | apply Z.div_lt_upper_bound]; lia ..].
  apply hex_digit_inj in Hm; [|apply Z.mod_pos_bound; lia ..].
  f_equal; [|apply IH; assumption].
  rewrite (Z.div_mod x 16), (Z.div_mod y 16) by lia. congruence.
Qed.

(** X18.  [calculateFileHash] returns a hash only for a file that was opened
    and read to its end, and then the hash of all its bytes: when the file
    cannot be opened, or a read fails after any number of blocks, the
    result is that error, as it is, and no hash of the bytes read so
    far. *)
Theorem calculateFileHash_whole_file (fs : filesystem) (path : string) :
  (forall h, calculateFileHash fs path = Ok h <->
     exists file bytes,
       fs path = Ok file /\ content file = Some bytes /\
       h = ("sha256:" ++ hex (SHA256.Sum256 bytes))%string) /\
  (forall err, fs path = Fail err -> calculateFileHash fs path = Fail err) /\
  (forall file, fs path = Ok file -> content file = None ->
     exists msg, calculateFileHash fs path = Fail (Errorf msg)).
Proof.
  unfold calculateFileHash. split; [|split].
  - intros h. split.
    + destruct (fs path) as [file|err]; [|discriminate].
      destruct (content file) as [bytes|] eqn:Hc.
      * rewrite (Copy_content file New bytes Hc). intros H. inversion H.
        exists file, bytes. repeat split. exact Hc.
      * destruct (Copy_failure file New Hc) as (h' & msg & ->). discriminate.
    + intros (file & bytes & -> & Hc & ->).
      rewrite (Copy_content file New bytes Hc). reflexivity.
  - intros err ->. reflexivity.
  - intros file -> Hc.
    destruct (Copy_failure file New Hc) as (h' & msg & ->).
    exists msg. reflexivity.
Qed.

(** X19.  Two files get the same hash from [calculateFileHash] only when the
    SHA-256 digests of their contents are the same: writing the digest in
    hexadecimal loses nothing. *)
Theorem calculateFileHash_same_digest (fs : filesystem)
        (path1 path2 h : string) (file1 file2 : reads)
        (bytes1 bytes2 : string) :
  fs path1 = Ok file1 -> fs path2 = Ok file2 ->
  content file1 = Some bytes1 -> content file2 = Some bytes2 ->
  calculateFileHash fs path1 = Ok h ->
  calculateFileHash fs path2 = Ok h ->
  SHA256.Sum256 bytes1 = SHA256.Sum256 bytes2.
Proof.
  unfold calculateFileHash. intros -> -> Hc1 Hc2.
  rewrite (Copy_content file1 New bytes1 Hc1),
          (Copy_content file2 New bytes2 Hc2).
  intros H1 H2.
  assert (E : hex (Sum {| written := written New ++ bytes1 |})
              = hex (Sum {| written := written New ++ bytes2 |})).
  { apply (append_cancel "sha256:"). congruence. }
  apply hex_inj in E; [exact E | apply Sum256_bytes ..].
Qed.

Lemma calculateFileHash_same_digest_witness :
  SHA256.Sum256 "alpha beta gamma" = SHA256.Sum256 "alpha beta gamma".
Proof.
  apply (calculateFileHash_same_digest Demo.demo_files
           "data/a.txt" "data/a_copy.txt" Demo.hash_a
           (Block "alpha beta gamma" EOF) (Block "alpha beta gamma" EOF));
    vm_compute; reflexivity.
Defined.

(** X20.  [ComputeFileHash] of package [utils] succeeds on the files on which
    [calculateFileHash] of the orchestrator succeeds, and the two hashes
    differ by the tag [sha256:] that only the orchestrator puts in front;
    the two fail together, [ComputeFileHash] with the error wrapped. *)
Theorem ComputeFileHash_untagged (fs : filesystem) (path : string) :
  (forall h, Utils.ComputeFileHash fs path = Ok h <->
             calculateFileHash fs path = Ok ("sha256:" ++ h)%string) /\
  (forall err, calculateFileHash fs path = Fail err ->
     exists stage,
       Utils.ComputeFileHash fs path = Fail (wrapf stage err) /\
       (stage = "failed to open file" \/ stage = "failed to compute hash")).
Proof.
  unfold Utils.ComputeFileHash, calculateFileHash, Utils.EncodeToString.
  destruct (fs path) as [file|err0].
  - destruct (Copy New file) as [hash [err0|]].
    + split; [intros h; split; discriminate|].
      intros err H. inversion H; subst. eexists. split; [reflexivity | auto].
    + split; [|intros err H; discriminate].
      intros h. split; intros H; inversion H; reflexivity.
  - split; [intros h; split; discriminate|].
    intros err H. inversion H; subst. eexists. split; [reflexivity | auto].
Qed.

End HashFacts.

Section UtilsFacts.
Import GoInt Utils.

Lemma ReplaceAll_byte (a b : ascii) (s : string) :
  ReplaceAll s (String a EmptyString) (String b EmptyString)
  = each (fun ch => if Ascii.eqb ch a then b else ch) s.
Proof.
  unfold ReplaceAll.
  induction s as [|ch rest IH]; [reflexivity|].
  cbn [replaceFrom prefix String.length Nat.sub each].
  destruct (Ascii.ascii_dec a ch) as [<-|Hne].
  - rewrite Ascii.eqb_refl. destruct rest; cbn [append]; rewrite IH; reflexivity.
  - destruct (Ascii.eqb_spec ch a) as [->|_]; [contradiction|].
    rewrite IH. reflexivity.
Qed.

Lemma each_each (f g : ascii -> ascii) (s : string) :
  each g (each f s) = each (fun ch => g (f ch)) s.
Proof. induction s as [|ch s IH]; cbn; [|rewrite IH]; reflexivity. Qed.

Lemma each_ext (f g : ascii -> ascii) (s : string) :
  (forall ch, f ch = g ch) -> each f s = each g s.
Proof.
  intros H. induction s as [|ch s IH]; cbn; [|rewrite IH, H]; reflexivity.
Qed.

Lemma each_length (f : ascii -> ascii) (s : string) :
  String.length (each f s) = String.length s.
Proof. induction s as [|ch s IH]; cbn; [|rewrite IH]; reflexivity. Qed.

Lemma replace_bytes (chars : list string) :
  Forall (fun s => exists ch, s = String ch EmptyString) chars ->
  forall s,
    fold_left (fun sanitized char => ReplaceAll sanitized char "_") chars s
    = each (fun ch =>
              if existsb (fun x => String.eqb x (String ch EmptyString)) chars
              then "_"%char else ch) s.
Proof.
  induction 1 as [|x chars [c ->] _ IH]; intros s; cbn [fold_left existsb].
  - symmetry. induction s as [|ch s IHs]; cbn; [|rewrite IHs]; reflexivity.
  - rewrite IH, ReplaceAll_byte, each_each. apply each_ext. intros ch.
    cbn [String.eqb]. rewrite (Ascii.eqb_sym c ch).
    destruct (Ascii.eqb ch c); cbn [orb]; [|reflexivity].
    destruct (existsb _ chars); reflexivity.
Qed.

(** X21.  [SanitizeFileName] turns each of the nine characters of its list into
    an underscore and leaves every other byte as it is: the result is as
    long as the name, holds none of the nine characters, and is left
    unchanged by a second pass. *)
Theorem SanitizeFileName_underscored (name : string) :
  SanitizeFileName name = underscored name /\
  String.length (SanitizeFileName name) = String.length name /\
  (forall n ch, String.get n (SanitizeFileName name) = Some ch ->
                invalid ch = false) /\
  SanitizeFileName (SanitizeFileName name) = SanitizeFileName name.
Proof.
  assert (Heq : forall s, SanitizeFileName s = underscored s).
  { intros s. unfold SanitizeFileName. apply replace_bytes.
    unfold invalidChars. repeat constructor; eexists; reflexivity. }
  assert (Hclean : forall ch,
            invalid (if invalid ch then "_"%char else ch) = false).
  { intros ch. destruct (invalid ch) eqn:E; [reflexivity | exact E]. }
  split; [apply Heq|]. rewrite !Heq. unfold underscored.
  split; [apply each_length|]. split.
  - induction name as [|c rest IH]; intros n ch Hget; [discriminate|].
    destruct n as [|n]; cbn in Hget.
    + inversion Hget. apply Hclean.
    + eapply IH. exact Hget.
  - rewrite each_each. apply each_ext. intros ch. rewrite Hclean. reflexivity.
Qed.

(** X22.  [TruncateString] with a limit that is not negative returns at most
    [maxLen] bytes: the string itself when it fits, and otherwise exactly
    [maxLen] bytes, the last three of them dots when the limit is three or
    more.  With a negative limit it panics on every string. *)
Theorem TruncateString_fits (s : string) (maxLen : Z) :
  maxLen <= max_int ->
  (maxLen < 0 -> TruncateString s maxLen = Panics) /\
  (0 <= maxLen ->
   exists r,
     TruncateString s maxLen = Done r /\
     len r = Z.min (len s) maxLen /\
     (len s <= maxLen -> r = s) /\
     (maxLen < len s -> 3 <= maxLen ->
      r = (substring 0 (Z.to_nat (maxLen - 3)) s ++ "...")%string) /\
     (maxLen < len s -> maxLen < 3 ->
      r = substring 0 (Z.to_nat maxLen) s)).
Proof.
  intros Hint. pose proof (len_nonneg s) as Hs.
  unfold TruncateString, Chunker.slice. split.
  - intros Hneg.
    destruct (Z.leb_spec (len s) maxLen); [lia|].
    destruct (Z.ltb_spec maxLen 3); [|lia].
    destruct (Z.leb_spec 0 maxLen); [lia | reflexivity].
  - intros Hpos.
    destruct (Z.leb_spec (len s) maxLen) as [Hfit|Hlong].
    + exists s. split; [reflexivity|]. split; [lia|].
      split; [reflexivity|]. split; intros; lia.
    + destruct (Z.ltb_spec maxLen 3) as [Hsmall|Hbig].
      * replace ((0 <=? 0) && (0 <=? maxLen) && (maxLen <=? len s)) with true
          by (symmetry; rewrite !andb_true_iff, !Z.leb_le; lia).
        eexists. split; [reflexivity|]. rewrite Z.sub_0_r.
        split; [|split; [lia | split; [lia | reflexivity]]].
        unfold len in *. rewrite substring_length by lia. lia.
      * assert (Hsub : sub maxLen 3 = maxLen - 3)
          by (unfold sub; apply wrap_small; unfold min_int, max_int in *; lia).
        rewrite Hsub.
        replace ((0 <=? 0) && (0 <=? maxLen - 3) && (maxLen - 3 <=? len s))
          with true
          by (symmetry; rewrite !andb_true_iff, !Z.leb_le; lia).
        eexists. split; [reflexivity|]. rewrite Z.sub_0_r.
        split; [|split; [lia | split; [reflexivity | lia]]].
        unfold len in *. rewrite length_append, substring_length by lia.
        cbn [String.length]. lia.
Qed.

Lemma TruncateString_fits_witness :
  TruncateString "hello world" (-1) = Panics /\
  exists r, TruncateString "hello world" 8 = Done r /\ len r = 8.
Proof.
  assert (Hint : forall n, n <= 8 -> n <= max_int)
    by (unfold max_int; intros; lia).
  split.
  - apply (TruncateString_fits "hello world" (-1) (Hint (-1) ltac:(lia))). lia.
  - destruct (TruncateString_fits "hello world" 8 (Hint 8 ltac:(lia)))
      as [_ H].
    destruct (H ltac:(lia)) as (r & Hrun & Hlen & _).
    exists r. split; [exact Hrun | rewrite Hlen; reflexivity].
Defined.

End UtilsFacts.

(** ** The orchestrator: a panic of the image analysis, and the loop over
    the chunks seen from [processFile] *)

Section StageFacts.
Import GoInt Pinecone Effects PineconeClient Orchestrator Trace.
Context {W : Type}.
Variable dp : @DocumentProcessor W.

Lemma after_after {A : Type} (t1 t2 : list event)
      (o : outcome (A * W * list event)) :
  after t1 (after t2 o) = after (t1 ++ t2) o.
Proof.
  destruct o as [[[a w] t]| |]; cbn; [rewrite app_assoc|..]; reflexivity.
Qed.

Lemma after_nil {A : Type} (o : outcome (A * W * list event)) :
  after [] o = o.
Proof. destruct o as [[[a w] t]| |]; reflexivity. Qed.

(** What is left of [processFile] once the content is there. *)
Lemma processFile_extracted (filePath : string) (w : W)
      (fileHash content : string) (w2 : W) (t : list event) :
  extracted dp filePath w fileHash content w2 t ->
  processFile dp filePath w
  = after t
      ((visualContent <- analyzeVisual dp filePath ;;
        summary <- summarize dp (combined content visualContent) ;;
        chunks <- lift (Chunker.chunkText (combined content visualContent)
                          (ChunkSize (config dp))
                          (ChunkOverlap (config dp))) ;;
        docID <- ask NewUUID (fun _ => true) (uuidNew dp) ;;
        embedAndStore dp filePath fileHash summary docID chunks) w2).
Proof.
  intros (w1 & t1 & t2 & Hhash & Hskip & Hext & Hne & ->).
  unfold processFile.
  rewrite (bind_after _ _ w (Ok fileHash) w [Called (OpenFile filePath) true])
    by (unfold calculateFileHash, observe, ask; rewrite Hhash; reflexivity).
  rewrite (bind_after _ _ w false w1 t1 Hskip).
  unfold indexFile.
  rewrite (bind_after _ _ w1 (Ok content) w2 t2 Hext).
  destruct (String.eqb_spec content "") as [|_]; [contradiction|].
  rewrite !after_after. reflexivity.
Qed.


(** A panic of the image analysis is a panic of [processFile], and of the
    loop over the files, whatever went before. *)
Lemma processFile_panics (filePath : string) (w : W)
      (fileHash content : string) (w2 : W) (t : list event)
      (analyze : W -> string -> outcome (result string * W)) :
  extracted dp filePath w fileHash content w2 t ->
  isImageFile dp filePath = true ->
  visionClient dp = Some analyze ->
  analyze w2 filePath = Panics ->
  processFile dp filePath w = Panics.
Proof.
  intros Hx Himg Hv Hp.
  rewrite (processFile_extracted _ _ _ _ _ _ Hx).
  unfold bind at 1. unfold analyzeVisual. rewrite Hv, Himg.
  unfold bind at 1, attempt. rewrite Hp. reflexivity.
Qed.

Lemma processFiles_panics (total : Z) (file : string) (rest : list string) :
  forall pre i w c t c' w1,
  iterates dp total i pre w c t c' w1 ->
  processFile dp file w1 = Panics ->
  processFiles dp total i (pre ++ file :: rest) c w = Panics.
Proof.
  intros pre i w c t c' w1 Hit.
  induction Hit as [i w c | i f rest' w c r w1 t1 t2 c' w2 Hrun Hit IH];
    intros Hp.
  - cbn [app processFiles]. unfold bind at 1. cbn [log].
    unfold bind at 1. rewrite Hp. reflexivity.
  - cbn [app].
    rewrite (processFiles_step dp total i f (rest' ++ file :: rest) c w w1 r
               t1 Hrun).
    rewrite (IH Hp). reflexivity.
Qed.

(** *** The stages before the loop over the chunks are quiet *)





(** *** The loop over the chunks *)

Lemma answers_length (chunks : list string) : forall w : W,
  List.length (answers dp chunks w) = List.length chunks.
Proof.
  induction chunks as [|chunk rest IH]; intros w; [reflexivity|].
  cbn [answers]. destruct (azureEmbedding dp w chunk) as [[emb|err] w1];
    cbn [List.length]; rewrite IH; reflexivity.
Qed.





(** C3.  One file can abort the whole run.  Once the scan has succeeded
    and the files before it are done, a file that is an image, that is not
    an SVG, that has 72 bytes or fewer and from which content was extracted
    makes [ProcessDirectory] panic when a vision client is configured: the
    client's [AnalyzeImage] reads the file and panics in
    [getBasicImageInfo], [processFile] does not recover, and neither does
    the loop.  No file after it is processed and nothing is returned to the
    caller. *)
Theorem ProcessDirectory_aborts (directory : string) (w : W)
        (pre : list string) (file : string) (rest : list string)
        (c : counters) (t : list event) (w1 : W)
        (fileHash content : string) (w2 : W) (t2 : list event)
        (TrimSpace : string -> string)
        (readFile : W -> string -> result string * W)
        (client : Startup.VisionClient) (data : string) (w3 : W) :
  (let '(name, root) := tree dp w directory in
   Scanner.scanDirectory directory name root)
  = (pre ++ file :: rest, None) ->
  iterates dp (llen (pre ++ file :: rest)) 0 pre w
           {| successCount := 0; skipCount := 0; errorCount := 0 |} t c w1 ->
  extracted dp file w1 fileHash content w2 t2 ->
  isImageFile dp file = true ->
  visionClient dp
  = Some (Vision.analyze (Base dp) (Ext dp) (ToLower dp) TrimSpace readFile
                         client) ->
  readFile w2 file = (Ok data, w3) ->
  ToLower dp (Ext dp file) <> ".svg" ->
  len data <= 72 ->
  ProcessDirectory dp directory w = Panics.
Proof.
  intros Hscan Hit Hx Himg Hv Hread Hext Hlen.
  assert (Hp : processFile dp file w1 = Panics).
  { eapply processFile_panics; [exact Hx | exact Himg | exact Hv |].
    unfold Vision.analyze, Vision.AnalyzeImage.
    unfold bind at 1, log at 1. unfold bind at 1, ask at 1. rewrite Hread.
    destruct (String.eqb_spec (ToLower dp (Ext dp file)) ".svg");
      [contradiction|].
    rewrite (proj1 (getBasicImageInfo_run (Base dp) (Ext dp) (ToLower dp)
                      file data) Hlen).
    destruct (String.eqb (Startup.vision_apiKey client) ""); reflexivity. }
  unfold ProcessDirectory, scanDirectory, observe.
  unfold bind at 1. cbn [log]. unfold bind at 1, ask at 1.
  destruct (tree dp w directory) as [name root]. rewrite Hscan.
  unfold bind at 1. cbn [log]. unfold bind at 1.
  rewrite (processFiles_panics _ _ _ _ _ _ _ _ _ _ Hit Hp). reflexivity.
Qed.


End StageFacts.

Lemma ProcessDirectory_aborts_witness :
  Orchestrator.ProcessDirectory
    (Gallery.processor Gallery.pixels ["flow.svg"; "pixel.gif"]) "data"
    (Demo.start [])
  = Panics.
Proof.
  eapply (ProcessDirectory_aborts
            (Gallery.processor Gallery.pixels ["flow.svg"; "pixel.gif"])
            "data" (Demo.start []) ["data/flow.svg"] "data/pixel.gif" []).
  - reflexivity.
  - econstructor; [vm_compute; reflexivity | constructor].
  - do 3 eexists. split; [vm_compute; reflexivity|].
    split; [vm_compute; reflexivity|].
    split; [vm_compute; reflexivity|].
    split; [discriminate | reflexivity].
  - reflexivity.
  - reflexivity.
  - reflexivity.
  - vm_compute. discriminate.
  - vm_compute. discriminate.
Defined.

